(** * Sand: the falling-tiles engine of logic.js

    A shallow embedding of the tile grid, the per-frame physics scan
    ([applyPhysics]), the incremental redraw ([drawScreen]), one frame of the
    game loop ([render]) and the tile-type selection
    ([updateCurrentTileType]), followed by the properties of the engine. *)

From stdpp Require Import gmap strings list pretty.

Open Scope string_scope.
Open Scope list_scope.

(** ** Values stored in the grid

    A grid cell holds a one-character tile tag (a JavaScript string), the
    number [-1] while a cell is marked as moved, and reading past the end of a
    column yields [undefined]. *)

Inductive jsval : Type :=
  | Str (s : string)
  | Num (n : Z)
  | Undefined.

Global Instance jsval_eq_dec : EqDecision jsval.
Proof. solve_decision. Defined.

Definition TILE_AIR : jsval := Str "a".
Definition TILE_LAND : jsval := Str "l".
Definition TILE_WATER : jsval := Str "w".
Definition TILE_STATIC : jsval := Str "s".

Definition TILE_TYPES : list jsval :=
  [TILE_AIR; TILE_LAND; TILE_WATER; TILE_STATIC].

(** The value written by [tiles[x][y] = -1]. *)
Definition MOVED : jsval := Num (-1).

Definition TILE_COLORS : gmap string string :=
  list_to_map
    [ ("a", "#ffffff"); ("l", "#2affa2"); ("w", "#add8e6"); ("s", "#000000");
      ("0", "#000000"); ("1", "#f7941d"); ("2", "#00ffff"); ("3", "#fff200");
      ("4", "#00ff00"); ("5", "#ec008c"); ("6", "#959595"); ("7", "#92278f");
      ("8", "#0000ff"); ("9", "#ff00ff"); ("-", "#754c24"); ("=", "#ed1c24") ].

(** [a === b] on the values above. *)
Definition strict_eq (a b : jsval) : bool := bool_decide (a = b).

(** [v == TILE_AIR]: a string compares by content; a number is compared with
    the numeric value of ["a"], which is NaN, so the result is false; and
    [undefined] is loosely equal to no string. *)
Definition loose_eq_air (v : jsval) : bool :=
  match v with
  | Str s => bool_decide (s = "a")
  | Num _ => false
  | Undefined => false
  end.

Infix "===" := strict_eq (at level 70, no associativity).

(** [TILE_COLORS] is an object literal, so beside its sixteen own keys it
    has the properties every object inherits from [Object.prototype]. *)
Definition OBJECT_PROTOTYPE : list string :=
  [ "constructor"; "hasOwnProperty"; "isPrototypeOf"; "propertyIsEnumerable";
    "toLocaleString"; "toString"; "valueOf"; "__proto__";
    "__defineGetter__"; "__defineSetter__"; "__lookupGetter__"; "__lookupSetter__" ].

(** What [TILE_COLORS[key]] evaluates to: the colour string of an own key, the
    function (for ["__proto__"], the object) that an inherited name gives, or
    [undefined]. *)
Inductive property : Type :=
  | Color (color : string)
  | Inherited
  | Missing.

Definition TILE_COLORS_at (key : string) : property :=
  match TILE_COLORS !! key with
  | Some color => Color color
  | None => if bool_decide (key ∈ OBJECT_PROTOTYPE) then Inherited else Missing
  end.

(** Truthiness of [TILE_COLORS[key]]: [undefined] and the empty string are
    falsy, a function or an object is truthy. *)
Definition truthy (v : property) : bool :=
  match v with
  | Color color => negb (bool_decide (color = ""))
  | Inherited => true
  | Missing => false
  end.

(** ** Grid, redraw records, accesses *)

Abbreviation column := (list jsval) (only parsing).
Abbreviation grid := (list (list jsval)) (only parsing).

(** [{ x: x, y: y, value: v }] *)
Record redraw : Type := Redraw { rx : nat; ry : nat; rvalue : jsval }.

Global Instance redraw_eq_dec : EqDecision redraw.
Proof. solve_decision. Defined.

Definition coord (r : redraw) : nat * nat := (rx r, ry r).

(** An element access [tiles[x][y]], as a read or as an assignment. *)
Inductive access : Type :=
  | Get (x y : nat)
  | Put (x y : nat).

(** The mutable state a frame works on: the grid, the list [tilesToRedraw]
    being accumulated by the scan, the number of [Math.random] calls made so
    far, and the element accesses performed so far. *)
Record state : Type := State {
  tiles : grid;
  tilesToRedraw : list redraw;
  draws : nat;
  trace : list access
}.

Definition set_tiles (g : grid) (s : state) : state :=
  State g (tilesToRedraw s) (draws s) (trace s).
Definition set_tilesToRedraw (l : list redraw) (s : state) : state :=
  State (tiles s) l (draws s) (trace s).
Definition set_draws (n : nat) (s : state) : state :=
  State (tiles s) (tilesToRedraw s) n (trace s).
Definition log (a : access) (s : state) : state :=
  State (tiles s) (tilesToRedraw s) (draws s) (trace s ++ [a]).

(** ** Computations: state passing, [None] for a thrown TypeError *)

Definition Eff (A : Type) : Type := state → option (A * state).

Definition ret {A} (a : A) : Eff A := λ s, Some (a, s).
Definition bind {A B} (m : Eff A) (k : A → Eff B) : Eff B :=
  λ s, match m s with
       | Some (a, s') => k a s'
       | None => None
       end.

Declare Scope eff_scope.
Delimit Scope eff_scope with eff.
Notation "x <- m ;; k" := (bind m (λ x, k))
  (at level 100, m at next level, right associativity) : eff_scope.
Notation "m ;;; k" := (bind m (λ _, k))
  (at level 100, right associativity) : eff_scope.
Local Open Scope eff_scope.

(** [col[y] = v] on a JavaScript array: an index inside the array replaces
    the element, an index past the end grows the array, leaving holes that
    read as [undefined]. *)
Definition array_set (col : column) (y : nat) (v : jsval) : column :=
  if decide (y < length col) then <[y := v]> col
  else col ++ replicate (y - length col) Undefined ++ [v].

(** [tiles[x][y]]: [tiles[x]] out of range is [undefined], and indexing
    [undefined] throws; inside a column, an index out of range reads
    [undefined]. *)
Definition getTile (x y : nat) : Eff jsval :=
  λ s, match tiles s !! x with
       | Some col => Some (default Undefined (col !! y), log (Get x y) s)
       | None => None
       end.

(** [tiles[x][y] = v] *)
Definition setTile (x y : nat) (v : jsval) : Eff () :=
  λ s, match tiles s !! x with
       | Some col =>
           Some ((), log (Put x y) (set_tiles (<[x := array_set col y v]> (tiles s)) s))
       | None => None
       end.

(** [tilesToRedraw.push(r1, r2)] *)
Definition push (r1 r2 : redraw) : Eff () :=
  λ s, Some ((), set_tilesToRedraw (tilesToRedraw s ++ [r1; r2]) s).

(** [tilesToRedraw = []] and [return tilesToRedraw] *)
Definition clearList : Eff () := λ s, Some ((), set_tilesToRedraw [] s).
Definition returnList : Eff (list redraw) := λ s, Some (tilesToRedraw s, s).

(** [for (i = ...; i < ...; i++) body], over the values [i] takes. *)
Fixpoint for_each (l : list nat) (body : nat → Eff ()) : Eff () :=
  match l with
  | [] => ret ()
  | i :: l' => body i ;;; for_each l' body
  end.

Section Engine.

(** [L = this.horizontalTileCount], [M = this.verticalTileCount], and the
    outcomes of the successive evaluations of
    [Math.floor(Math.random() * 2)], [true] standing for 1. *)
Variables L M : nat.
Variable flips : nat → bool.

Definition coinFlip : Eff bool :=
  λ s, Some (flips (draws s), set_draws (S (draws s)) s).

(** The test in front of the vertical move: the value [changeOccurred]
    has after the first [if ... else if]. *)
Definition fall_rule (tile tileBelow : jsval) : bool :=
  if (tile === TILE_LAND) && ((tileBelow === TILE_AIR) || (tileBelow === TILE_WATER))
  then true
  else if (tile === TILE_WATER) && (tileBelow === TILE_AIR) then true
  else false.

(** The test in front of the horizontal move: the value [changeOccurred]
    has after the second [if ... else if]. *)
Definition flow_rule (cointFlip : bool)
    (tile tileBefore tileBelow tileBelowBefore : jsval) : bool :=
  if cointFlip && (tile === TILE_WATER) && loose_eq_air tileBefore
     && negb (tileBelow === TILE_AIR)
  then true
  else if negb cointFlip && (tile === TILE_AIR) && (tileBefore === TILE_WATER)
          && negb (tileBelowBefore === TILE_AIR)
  then true
  else false.

(** The body of the two nested loops of [applyPhysics], for one cell. *)
Definition visit (x y : nat) : Eff () :=
  tile <- getTile x y ;;
  tileBelow <- getTile x (y + 1) ;;
  if decide (y < M - 1) then
    (if fall_rule tile tileBelow then
       push (Redraw x y tileBelow) (Redraw x (y + 1) tile) ;;;
       setTile x y MOVED ;;;
       setTile x (y + 1) MOVED
     else ret ()) ;;;
    if decide (0 < x) then
      tileBefore <- getTile (x - 1) y ;;
      tileBelowBefore <- getTile (x - 1) (y + 1) ;;
      cointFlip <- coinFlip ;;
      if flow_rule cointFlip tile tileBefore tileBelow tileBelowBefore then
        push (Redraw x y tileBefore) (Redraw (x - 1) y tile) ;;;
        setTile x y MOVED ;;;
        setTile (x - 1) y MOVED
      else ret ()
    else ret ()
  else ret ().

(** The inner loop: one column, top to bottom. *)
Definition scan_column (x : nat) : Eff () :=
  for_each (seq 0 M) (visit x).

(** [applyPhysics]: [tilesToRedraw] starts empty, the columns are scanned
    left to right, and the accumulated list is returned. *)
Definition applyPhysics : Eff (list redraw) :=
  clearList ;;;
  for_each (seq 0 L) scan_column ;;;
  returnList.

(** [drawScreen]: every record is written to the grid, in order. The two
    canvas calls that follow each write paint the cell and leave [tiles]
    alone. *)
Fixpoint drawScreen (l : list redraw) : Eff () :=
  match l with
  | [] => ret ()
  | tile :: l' => setTile (rx tile) (ry tile) (rvalue tile) ;;; drawScreen l'
  end.

(** One frame of [render]: the scan, then the redraw of what it returned. *)
Definition render : Eff () :=
  tilesToRedraw <- applyPhysics ;;
  drawScreen tilesToRedraw.

End Engine.

(** ** Tile-type selection *)

Record pen : Type := Pen { isDrawing : bool; currentTileType : string }.

(** [updateCurrentTileType], on the [key] of the event: the test is the
    truthiness of [TILE_COLORS[event.key]], own and inherited properties
    alike. *)
Definition updateCurrentTileType (key : string) (p : pen) : pen :=
  if negb (truthy (TILE_COLORS_at key)) then p
  else Pen (isDrawing p) key.

(** ** The grid as a table

    [cell] is what [tiles[x][y]] evaluates to when no error is thrown, and
    [put] is the assignment [tiles[x][y] = v] at a position inside the grid. *)

Definition cell (g : grid) (x y : nat) : jsval :=
  match g !! x with
  | Some col => default Undefined (col !! y)
  | None => Undefined
  end.

Definition put (g : grid) (x y : nat) (v : jsval) : grid :=
  alter (λ col, <[y := v]> col) x g.

(** A grid of [w] columns, each of [h] cells. *)
Definition shape (w h : nat) (g : grid) : Prop :=
  length g = w ∧ Forall (λ col, length col = h) g.

(** The cells of the whole grid, as one list. *)
Definition flatten (g : grid) : list jsval := concat g.

(** The grid after the records of a list were written to it one by one. *)
Definition redrawn (g : grid) (l : list redraw) : grid :=
  foldl (λ g r, put g (rx r) (ry r) (rvalue r)) g l.

(** The value of the last record of a list that addresses [(x, y)]. *)
Fixpoint last_at (l : list redraw) (x y : nat) : option jsval :=
  match l with
  | [] => None
  | r :: l' =>
      match last_at l' x y with
      | Some v => Some v
      | None => if decide (coord r = (x, y)) then Some (rvalue r) else None
      end
  end.

(** ** Running a computation

    [wp m s Q]: from [s], the computation [m] returns without throwing, with
    a result and a final state that satisfy [Q]. *)

Definition wp {A} (m : Eff A) (s : state) (Q : A → state → Prop) : Prop :=
  match m s with
  | Some (a, s') => Q a s'
  | None => False
  end.

(** The accesses a visit of [(x, y)] performs, given whether the vertical and
    the horizontal move were made. *)
Definition visit_accesses (M x y : nat) (fell flowed : bool) : list access :=
  [Get x y; Get x (y + 1)] ++
  if decide (y < M - 1) then
    (if fell then [Put x y; Put x (y + 1)] else []) ++
    (if decide (0 < x) then
       [Get (x - 1) y; Get (x - 1) (y + 1)] ++
       (if flowed then [Put x y; Put (x - 1) y] else [])
     else [])
  else [].

(** The state a visit of [(x, y)] ends in, read off the grid as it is when
    the visit starts: at most one of the two moves is made. *)
Definition visit_outcome (M : nat) (flips : nat → bool) (x y : nat) (s : state) : state :=
  let g := tiles s in
  let tile := cell g x y in
  let tileBelow := cell g x (y + 1) in
  let tileBefore := cell g (x - 1) y in
  let tileBelowBefore := cell g (x - 1) (y + 1) in
  let fell := bool_decide (y < M - 1) && fall_rule tile tileBelow in
  let drew := bool_decide (y < M - 1) && bool_decide (0 < x) in
  let flowed :=
    negb fell && drew
    && flow_rule (flips (draws s)) tile tileBefore tileBelow tileBelowBefore in
  State
    (if fell then put (put g x y MOVED) x (y + 1) MOVED
     else if flowed then put (put g x y MOVED) (x - 1) y MOVED
     else g)
    (tilesToRedraw s ++
     if fell then [Redraw x y tileBelow; Redraw x (y + 1) tile]
     else if flowed then [Redraw x y tileBefore; Redraw (x - 1) y tile]
     else [])
    (if drew then S (draws s) else draws s)
    (trace s ++ visit_accesses M x y fell flowed).

(** ** What a scan does to the grid

    The three tile natures the physics moves. *)
Definition mobile (v : jsval) : Prop :=
  v = TILE_AIR ∨ v = TILE_LAND ∨ v = TILE_WATER.

(** A visit either leaves the grid alone, or takes two distinct cells that
    hold mobile values, records each one's value for the other and marks
    both as moved. *)
Inductive exchange (w h : nat) (g : list (list jsval)) :
    list (list jsval) → list redraw → Prop :=
  | exchange_none : exchange w h g g []
  | exchange_pair x y x' y' :
      x < w → y < h → x' < w → y' < h → (x, y) ≠ (x', y') →
      mobile (cell g x y) → mobile (cell g x' y') →
      exchange w h g
        (put (put g x y MOVED) x' y' MOVED)
        [Redraw x y (cell g x' y'); Redraw x' y' (cell g x y)].

(** The grids and record lists a scan goes through, from the grid [g0] and
    the empty list. *)
Inductive scanned (w h : nat) (g0 : list (list jsval)) :
    list (list jsval) → list redraw → Prop :=
  | scanned_start : scanned w h g0 g0 []
  | scanned_visit g l g' l' :
      scanned w h g0 g l → exchange w h g g' l' → scanned w h g0 g' (l ++ l').

(** Records that come in pairs, each record of a pair carrying the value the
    other record's cell has in [g0]. *)
Inductive exchanged (g0 : list (list jsval)) : list redraw → Prop :=
  | exchanged_nil : exchanged g0 []
  | exchanged_snoc l r r' :
      exchanged g0 l →
      rvalue r = cell g0 (rx r') (ry r') →
      rvalue r' = cell g0 (rx r) (ry r) →
      exchanged g0 (l ++ [r; r']).

(** What holds of a grid and a record list in the middle of a scan. *)
Record scan_inv (w h : nat) (g0 g : list (list jsval)) (l : list redraw) : Prop := {
  inv_shape : shape w h g;
  inv_bounds : ∀ r, r ∈ l → rx r < w ∧ ry r < h;
  inv_marked : ∀ r, r ∈ l → cell g (rx r) (ry r) = MOVED;
  inv_values : ∀ r, r ∈ l → mobile (rvalue r) ∧ mobile (cell g0 (rx r) (ry r));
  inv_once : NoDup (coord <$> l);
  inv_cells : ∀ x y, cell g x y = cell g0 x y ∨ cell g x y = MOVED;
  inv_kept : ∀ x y, (x, y) ∉ coord <$> l → cell g x y = cell g0 x y;
  inv_flat : flatten (redrawn g l) ≡ₚ flatten g0;
  inv_pairs : exchanged g0 l
}.

(** ** Vocabulary of the statements *)

(** The tile values of the game: the keys of [TILE_COLORS]. *)
Definition public (v : jsval) : Prop :=
  match v with
  | Str k => is_Some (TILE_COLORS !! k)
  | _ => False
  end.

Global Instance public_dec v : Decision (public v).
Proof. destruct v; simpl; apply _. Defined.

(** The static tile and its colour variants: the tile values the physics
    does not name. *)
Definition static (v : jsval) : Prop := public v ∧ ¬ mobile v.


(** The part of the scan that runs before the visit of [(x, y)]: the columns
    on its left, then the cells above it in its own column. *)
Definition scan_before (M : nat) (flips : nat → bool) (x y : nat) : Eff () :=
  for_each (seq 0 x) (scan_column M flips) ;;; for_each (seq 0 y) (visit M flips x).

(** The part of the scan that runs after the visit of [(x, y)]. *)
Definition scan_after (L M : nat) (flips : nat → bool) (x y : nat) : Eff () :=
  for_each (seq (S y) (M - S y)) (visit M flips x) ;;;
  for_each (seq (S x) (L - S x)) (scan_column M flips).

(** Water at [(x, y)] over air, with no land on top of it. *)
Definition poised (L M x y : nat) (s : state) : Prop :=
  shape L M (tiles s)
  ∧ cell (tiles s) x y = TILE_WATER
  ∧ cell (tiles s) x (y + 1) = TILE_AIR
  ∧ (y = 0 ∨ cell (tiles s) x (y - 1) ≠ TILE_LAND).

(** A frame starts from a grid, with nothing accumulated or accessed yet. *)
Definition start (g : grid) : state := State g [] 0 [].

Definition scenarioA : grid :=
  [ [TILE_LAND; TILE_AIR]; [TILE_STATIC; TILE_AIR] ].

(** Scenario B of the tests: one water tile with air below, to its left and
    below-left, and the same column with land on top of the water. *)
Definition scenarioB : grid :=
  [ [TILE_AIR; TILE_AIR; TILE_AIR]; [TILE_AIR; TILE_WATER; TILE_AIR] ].
Definition landOverWater : grid :=
  [ [TILE_AIR; TILE_AIR; TILE_AIR]; [TILE_LAND; TILE_WATER; TILE_AIR] ].

(** Water with air on its left over a static floor. *)
Definition puddle : grid :=
  [ [TILE_AIR; TILE_STATIC]; [TILE_WATER; TILE_STATIC] ].

(** Coin flips that all come out 0, and that all come out 1. *)
Definition tails : nat → bool := λ _, false.
Definition heads : nat → bool := λ _, true.

(** ** The rest of the game object

    Construction, the pointer and key handlers, and the game loop. *)

(** [this.tileSize] *)
Definition tileSize : Z := 10.

(** What [processDrawing] reads of a mouse event and of the canvas element.
    Pixel positions are taken to be whole numbers. *)
Record mouse : Type := Mouse { pageX : Z; pageY : Z }.
Record canvas : Type := Canvas { offsetLeft : Z; offsetTop : Z }.

(** The game object: the drawing flag and the selected tile type, and the
    grid with the bookkeeping of the scans. *)
Record game : Type := Game { brush : pen; world : state }.

(** [tilesToRedraw.push(r)] and [this.tiles.push(column)] *)
Definition push1 (r : redraw) : Eff () :=
  λ s, Some ((), set_tilesToRedraw (tilesToRedraw s ++ [r]) s).
Definition pushColumn (column : list jsval) : Eff () :=
  λ s, Some ((), set_tiles (tiles s ++ [column]) s).

(** [TILE_TYPES[k]] *)
Definition tile_type (k : nat) : jsval := default Undefined (TILE_TYPES !! k).

Section Game.

(** The tile counts, the canvas, and the outcomes of the successive calls of
    [Math.random]: [flips n] is [Math.floor(Math.random() * 2)] and [rolls n]
    is [Math.floor(Math.random() * 4)] at the call number [n]. *)
Variables L M : nat.
Variable screen : canvas.
Variable flips : nat → bool.
Variable rolls : nat → nat.

Definition roll : Eff nat :=
  λ s, Some (rolls (draws s), set_draws (S (draws s)) s).

(** The inner loop of [initialize]: [column] grows by one random tile per
    iteration. *)
Fixpoint fill_column (js : list nat) (column : list jsval) : Eff (list jsval) :=
  match js with
  | [] => ret column
  | _ :: js' =>
      k <- roll ;;
      fill_column js' (column ++ [tile_type k])
  end.

(** [initialize]: each iteration of the outer loop fills a fresh column and
    pushes it. *)
Definition initialize : Eff () :=
  for_each (seq 0 L) (λ _,
    column <- fill_column (seq 0 M) [] ;;
    pushColumn column).

(** The two loops of the constructor that list every tile with its value. *)
Definition allTiles : Eff (list redraw) :=
  clearList ;;;
  for_each (seq 0 L) (λ x,
    for_each (seq 0 M) (λ y,
      value <- getTile x y ;;
      push1 (Redraw x y value))) ;;;
  returnList.

(** [new Sand()], after [d] earlier calls of [Math.random]: the fields are
    set, the grid is filled and then drawn in full. The listeners that
    [setupEvents] registers are the cases of [handle] below. *)
Definition newSand (d : nat) : option game :=
  match (initialize ;;; tilesToRedraw <- allTiles ;; drawScreen tilesToRedraw)
          (State [] [] d []) with
  | Some (_, s) => Some (Game (Pen false "s") s)
  | None => None
  end.

(** [processDrawing] *)
Definition processDrawing (event : mouse) (g : game) : option game :=
  if negb (isDrawing (brush g)) then Some g
  else
    let x := ((pageX event - offsetLeft screen) `div` tileSize)%Z in
    let y := ((pageY event - offsetTop screen) `div` tileSize)%Z in
    if (0 <=? x)%Z && (x <? Z.of_nat L)%Z && (0 <=? y)%Z && (y <? Z.of_nat M)%Z then
      match drawScreen
              [Redraw (Z.to_nat x) (Z.to_nat y) (Str (currentTileType (brush g)))]
              (world g) with
      | Some (_, s) => Some (Game (brush g) s)
      | None => None
      end
    else Some g.

(** [startDrawing] and [stopDrawing] *)
Definition startDrawing (event : mouse) (g : game) : option game :=
  processDrawing event (Game (Pen true (currentTileType (brush g))) (world g)).
Definition stopDrawing (event : mouse) (g : game) : game :=
  Game (Pen false (currentTileType (brush g))) (world g).

(** [clearScreen], on the [keyCode] of the event. *)
Definition clearScreen (keyCode : Z) : Eff () :=
  if negb (keyCode =? 27)%Z then ret ()
  else
    clearList ;;;
    for_each (seq 0 L) (λ x,
      for_each (seq 0 M) (λ y,
        setTile x y TILE_AIR ;;;
        push1 (Redraw x y TILE_AIR))) ;;;
    tilesToRedraw <- returnList ;;
    drawScreen tilesToRedraw.

(** The first [n] turns of the game loop: [render] asks for itself to be
    run again at the next frame. *)
Fixpoint frames (n : nat) : Eff () :=
  match n with
  | 0 => ret ()
  | S n' => render L M flips ;;; frames n'
  end.

(** What reaches the game: the five listeners of [setupEvents] and the
    animation frame. *)
Inductive happening : Type :=
  | MouseDown (event : mouse)
  | MouseUp (event : mouse)
  | MouseMove (event : mouse)
  | KeyPress (key : string)
  | KeyUp (keyCode : Z)
  | AnimationFrame.

Definition on_world (m : Eff ()) (g : game) : option game :=
  match m (world g) with
  | Some (_, s) => Some (Game (brush g) s)
  | None => None
  end.

Definition handle (h : happening) (g : game) : option game :=
  match h with
  | MouseDown event => startDrawing event g
  | MouseUp event => Some (stopDrawing event g)
  | MouseMove event => processDrawing event g
  | KeyPress key => Some (Game (updateCurrentTileType key (brush g)) (world g))
  | KeyUp keyCode => on_world (clearScreen keyCode) g
  | AnimationFrame => on_world (render L M flips) g
  end.

Fixpoint play (hs : list happening) (g : game) : option game :=
  match hs with
  | [] => Some g
  | h :: hs' =>
      match handle h g with
      | Some g' => play hs' g'
      | None => None
      end
  end.

End Game.

(** ** Vocabulary of the further statements *)

(** One record for every cell, column by column and top to bottom, with the
    value [f] gives the cell. *)
Definition all_cells (L M : nat) (f : nat → nat → jsval) : list redraw :=
  x ← seq 0 L; (λ y, Redraw x y (f x y)) <$> seq 0 M.

(** The tile coordinates [processDrawing] computes for a mouse event. *)
Definition pointed (screen : canvas) (event : mouse) : Z * Z :=
  (((pageX event - offsetLeft screen) `div` tileSize)%Z,
   ((pageY event - offsetTop screen) `div` tileSize)%Z).

(** The state of the game between two happenings: a full grid of public
    tile values and a selected type that has a colour. *)
Definition well_formed (L M : nat) (g : game) : Prop :=
  shape L M (tiles (world g))
  ∧ Forall (Forall public) (tiles (world g))
  ∧ currentTileType (brush g) ∈ dom TILE_COLORS.

(** Any happening but the press of a key that names a property objects
    inherit. *)
Definition plain (h : happening) : Prop :=
  match h with
  | KeyPress key => key ∉ OBJECT_PROTOTYPE
  | _ => True
  end.

(** A grid in which no rule applies whatever the coins: nothing falls, and
    above the bottom row no water has air beside it. *)
Definition settled (L M : nat) (g : list (list jsval)) : Prop :=
  ∀ x y, x < L → y < M - 1 →
    ¬ (cell g x y = TILE_LAND
       ∧ (cell g x (y + 1) = TILE_AIR ∨ cell g x (y + 1) = TILE_WATER))
    ∧ ¬ (cell g x y = TILE_WATER ∧ cell g x (y + 1) = TILE_AIR)
    ∧ (0 < x →
       ¬ (cell g x y = TILE_WATER ∧ cell g (x - 1) y = TILE_AIR)
       ∧ ¬ (cell g x y = TILE_AIR ∧ cell g (x - 1) y = TILE_WATER)).

(** Where the value of a record comes from in the grid [g0]: the cell above
    (land or water that fell), the cell below (air or water that rose), or
    the cell on the left or on the right (water and air changing places).
    The value differs from the one the cell had. *)
Definition displaced (L M : nat) (g0 : list (list jsval)) (r : redraw) : Prop :=
  rvalue r ≠ cell g0 (rx r) (ry r)
  ∧ ((0 < ry r ∧ rvalue r = cell g0 (rx r) (ry r - 1)
      ∧ (rvalue r = TILE_LAND ∨ rvalue r = TILE_WATER))
     ∨ (ry r + 1 < M ∧ rvalue r = cell g0 (rx r) (ry r + 1)
        ∧ (rvalue r = TILE_AIR ∨ rvalue r = TILE_WATER))
     ∨ (0 < rx r ∧ rvalue r = cell g0 (rx r - 1) (ry r)
        ∧ (rvalue r = TILE_AIR ∨ rvalue r = TILE_WATER))
     ∨ (rx r + 1 < L ∧ rvalue r = cell g0 (rx r + 1) (ry r)
        ∧ (rvalue r = TILE_AIR ∨ rvalue r = TILE_WATER))).

(** What the records of a scan satisfy beyond [scan_inv]: each one comes
    from a neighbour, and a cell that held land sends it straight down. *)
Definition moves_inv (L M : nat) (g0 : list (list jsval)) (l : list redraw) : Prop :=
  Forall (displaced L M g0) l
  ∧ ∀ r, r ∈ l → cell g0 (rx r) (ry r) = TILE_LAND →
         Redraw (rx r) (ry r + 1) TILE_LAND ∈ l.

(** A canvas at the corner of the page, rolls that all pick land, a grid at
    rest, and two games on scenario A: one drawing water, one idle. *)
Definition corner : canvas := Canvas 0 0.
Definition allLand : nat → nat := λ _, 1.
Definition restingLand : grid :=
  [ [TILE_AIR; TILE_LAND]; [TILE_STATIC; TILE_LAND] ].
Definition painter : game := Game (Pen true "w") (start scenarioA).
Definition idler : game := Game (Pen false "s") (start scenarioA).

(** ** The canvas

    The 2D context as [drawScreen] uses it: the current [fillStyle], and the
    colour every pixel has. *)
Record context2d : Type := Context2d { fillStyle : string; pixel : Z → Z → string }.

(** The colour [TILE_COLORS[v]], when that is one: the value is turned into
    a property name, a number into its decimal writing, and only the own
    keys of [TILE_COLORS] give colours. *)
Definition tile_color (v : jsval) : option string :=
  match v with
  | Str k => TILE_COLORS !! k
  | Num n => TILE_COLORS !! pretty n
  | Undefined => TILE_COLORS !! "undefined"
  end.

(** [context.fillStyle = color]: a value that is no colour, as [undefined]
    and an inherited function are, leaves the style as it was. *)
Definition set_fillStyle (color : option string) (c : context2d) : context2d :=
  match color with
  | Some color => Context2d color (pixel c)
  | None => c
  end.

(** [context.fillRect(x, y, w, h)] *)
Definition fillRect (x y w h : Z) (c : context2d) : context2d :=
  Context2d (fillStyle c)
    (λ px py, if bool_decide (x ≤ px < x + w ∧ y ≤ py < y + h)%Z then fillStyle c
              else pixel c px py).

(** The two canvas calls of one iteration of [drawScreen]. *)
Definition fillTile (tile : redraw) (c : context2d) : context2d :=
  fillRect (Z.of_nat (rx tile) * tileSize) (Z.of_nat (ry tile) * tileSize)
           tileSize tileSize
           (set_fillStyle (tile_color (rvalue tile)) c).

(** What [drawScreen] does to the canvas. *)
Fixpoint paint (l : list redraw) (c : context2d) : context2d :=
  match l with
  | [] => c
  | tile :: l' => paint l' (fillTile tile c)
  end.

(** [this.drawScreen(tilesToRedraw)] on the grid and the canvas, for the
    list [m] evaluates to. *)
Definition drawn (m : Eff (list redraw)) (s : state) (c : context2d) :
    option (state * context2d) :=
  match m s with
  | Some (tilesToRedraw, s1) =>
      match drawScreen tilesToRedraw s1 with
      | Some (_, s2) => Some (s2, paint tilesToRedraw c)
      | None => None
      end
  | None => None
  end.

Section Display.

Variables L M : nat.
Variable screen : canvas.
Variable flips : nat → bool.
Variable rolls : nat → nat.

(** The constructor, the handlers and the game loop once more, with the
    canvas they paint. *)
Definition newSand_on (d : nat) (c : context2d) : option (game * context2d) :=
  match drawn (initialize L M rolls ;;; allTiles L M) (State [] [] d []) c with
  | Some (s, c') => Some (Game (Pen false "s") s, c')
  | None => None
  end.

Definition processDrawing_on (event : mouse) (g : game) (c : context2d) :
    option (game * context2d) :=
  if negb (isDrawing (brush g)) then Some (g, c)
  else
    let x := ((pageX event - offsetLeft screen) `div` tileSize)%Z in
    let y := ((pageY event - offsetTop screen) `div` tileSize)%Z in
    if (0 <=? x)%Z && (x <? Z.of_nat L)%Z && (0 <=? y)%Z && (y <? Z.of_nat M)%Z then
      match drawn (ret [Redraw (Z.to_nat x) (Z.to_nat y) (Str (currentTileType (brush g)))])
                  (world g) c with
      | Some (s, c') => Some (Game (brush g) s, c')
      | None => None
      end
    else Some (g, c).

Definition clearTiles : Eff (list redraw) :=
  clearList ;;;
  for_each (seq 0 L) (λ x,
    for_each (seq 0 M) (λ y,
      setTile x y TILE_AIR ;;;
      push1 (Redraw x y TILE_AIR))) ;;;
  returnList.

Definition clearScreen_on (keyCode : Z) (s : state) (c : context2d) :
    option (state * context2d) :=
  if negb (keyCode =? 27)%Z then Some (s, c)
  else drawn clearTiles s c.

Definition render_on : state → context2d → option (state * context2d) :=
  drawn (applyPhysics L M flips).

Definition on_screen (m : state → context2d → option (state * context2d))
    (g : game) (c : context2d) : option (game * context2d) :=
  match m (world g) c with
  | Some (s, c') => Some (Game (brush g) s, c')
  | None => None
  end.

Definition handle_on (h : happening) (g : game) (c : context2d) :
    option (game * context2d) :=
  match h with
  | MouseDown event =>
      processDrawing_on event (Game (Pen true (currentTileType (brush g))) (world g)) c
  | MouseUp event => Some (stopDrawing event g, c)
  | MouseMove event => processDrawing_on event g c
  | KeyPress key => Some (Game (updateCurrentTileType key (brush g)) (world g), c)
  | KeyUp keyCode => on_screen (clearScreen_on keyCode) g c
  | AnimationFrame => on_screen render_on g c
  end.

Fixpoint play_on (hs : list happening) (g : game) (c : context2d) :
    option (game * context2d) :=
  match hs with
  | [] => Some (g, c)
  | h :: hs' =>
      match handle_on h g c with
      | Some (g', c') => play_on hs' g' c'
      | None => None
      end
  end.

End Display.

(** The pixels of the square of the cell [(x, y)]. *)
Definition square (x y : nat) (px py : Z) : Prop :=
  (tileSize * Z.of_nat x ≤ px < tileSize * Z.of_nat x + tileSize)%Z
  ∧ (tileSize * Z.of_nat y ≤ py < tileSize * Z.of_nat y + tileSize)%Z.

(** The canvas shows the grid: every pixel of the square of a cell has the
    colour of the value of the cell. *)
Definition shown (L M : nat) (g : grid) (c : context2d) : Prop :=
  ∀ x y px py, x < L → y < M → square x y px py →
    tile_color (cell g x y) = Some (pixel c px py).

(** A canvas nothing was drawn on, and the canvas on which scenario A was
    drawn in full. *)
Definition blank : context2d := Context2d "#000000" (λ _ _, "").
Definition scenarioA_canvas : context2d :=
  paint (all_cells 2 2 (cell scenarioA)) blank.

Example scenarioA_scan :
  (tiles ∘ snd <$> applyPhysics 2 2 (λ _, false) (start scenarioA))
  = Some [ [MOVED; MOVED]; [TILE_STATIC; TILE_AIR] ].
Proof. vm_compute. reflexivity. Qed.

Example scenarioA_frame :
  (tiles ∘ snd <$> render 2 2 (λ _, false) (start scenarioA))
  = Some [ [TILE_AIR; TILE_LAND]; [TILE_STATIC; TILE_AIR] ].
Proof. vm_compute. reflexivity. Qed.

(** With the coin on 1 the water of the puddle moves left; with the coin on
    0 nothing moves, the mirrored rule looking at air with water on its left. *)
Example puddle_frame_heads :
  (tiles ∘ snd <$> render 2 2 heads (start puddle))
  = Some [ [TILE_WATER; TILE_STATIC]; [TILE_AIR; TILE_STATIC] ].
Proof. vm_compute. reflexivity. Qed.

Example puddle_frame_tails :
  (tiles ∘ snd <$> render 2 2 tails (start puddle)) = Some puddle.
Proof. vm_compute. reflexivity. Qed.

(** Land falls into the water under it, and the water, marked, waits. *)
Example landOverWater_frame :
  (tiles ∘ snd <$> render 2 3 tails (start landOverWater))
  = Some [ [TILE_AIR; TILE_AIR; TILE_AIR]; [TILE_WATER; TILE_LAND; TILE_AIR] ].
Proof. vm_compute. reflexivity. Qed.

(** * Properties *)

(** ** Tables: reading, writing, exchanging *)

Section Tables.

Variables w h : nat.

Lemma shape_column g x :
  shape w h g → x < w → ∃ col, g !! x = Some col ∧ length col = h.
Proof.
  intros [Hw Hh] Hx.
  destruct (lookup_lt_is_Some_2 g x) as [col Hcol]; [lia|].
  exists col. split; [done|]. by eapply (Forall_lookup_1 _ _ _ _ Hh).
Qed.

Lemma shape_lookup g x y :
  shape w h g → x < w → y < h →
  ∃ col, g !! x = Some col ∧ col !! y = Some (cell g x y).
Proof.
  intros Hg Hx Hy.
  destruct (shape_column g x Hg Hx) as (col & Hcol & Hlen).
  exists col. split; [done|]. unfold cell. rewrite Hcol.
  destruct (lookup_lt_is_Some_2 col y) as [v Hv]; [lia|].
  by rewrite Hv.
Qed.

Lemma shape_put g x y v : shape w h g → shape w h (put g x y v).
Proof.
  intros [Hw Hh]. split.
  - unfold put. by rewrite length_alter.
  - apply Forall_lookup_2. intros x' col. unfold put. rewrite list_lookup_alter.
    case_decide as Hx; [|by apply (Forall_lookup_1 _ _ _ _ Hh)].
    destruct (g !! x) as [c|] eqn:Hc; simpl; [|done].
    intros [= <-]. rewrite length_insert. by eapply (Forall_lookup_1 _ _ _ _ Hh).
Qed.

Lemma cell_put g x y v x' y' :
  shape w h g → x < w → y < h →
  cell (put g x y v) x' y' = if decide ((x', y') = (x, y)) then v else cell g x' y'.
Proof.
  intros Hg Hx Hy.
  destruct (shape_column g x Hg Hx) as (col & Hcol & Hlen).
  unfold cell, put. rewrite list_lookup_alter.
  destruct (decide (x = x')) as [<-|Hne].
  - rewrite Hcol. simpl. rewrite list_lookup_insert.
    destruct (decide (y = y')) as [<-|Hney].
    + rewrite !decide_True; [done..|]. split; [done|lia].
    + rewrite decide_False by (intros [? ?]; done).
      rewrite decide_False by (intros [=]; congruence). done.
  - repeat case_decide; simplify_eq/=; done.
Qed.

Lemma cell_put_ne g x y v x' y' :
  shape w h g → x < w → y < h → (x', y') ≠ (x, y) →
  cell (put g x y v) x' y' = cell g x' y'.
Proof. intros. rewrite cell_put by done. by rewrite decide_False. Qed.

Lemma put_put g x y v v' : put (put g x y v) x y v' = put g x y v'.
Proof.
  unfold put. apply list_eq. intros i. rewrite !list_lookup_alter.
  destruct (decide (x = i)) as [->|]; [|done].
  rewrite decide_True by done. destruct (g !! i); simpl; [|done].
  by rewrite list_insert_insert_eq.
Qed.

Lemma put_comm g x y v x' y' v' :
  (x, y) ≠ (x', y') →
  put (put g x y v) x' y' v' = put (put g x' y' v') x y v.
Proof.
  intros Hne. unfold put. apply list_eq. intros i. rewrite !list_lookup_alter.
  repeat case_decide; simplify_eq; try done.
  match goal with |- context [g !! ?j] => destruct (g !! j); simpl; [|done] end.
  rewrite list_insert_insert_ne; [done|congruence].
Qed.

Lemma insert_Permutation (col : list jsval) y v :
  y < length col → <[y := v]> col ≡ₚ v :: delete y col.
Proof.
  revert y. induction col as [|c col IH]; intros [|y] Hy; simpl in *; try lia.
  - done.
  - rewrite IH by lia. apply Permutation_swap.
Qed.

Lemma concat_alter_Permutation (f : list jsval → list jsval) (g : list (list jsval)) x col :
  g !! x = Some col → concat (alter f x g) ≡ₚ f col ++ concat (delete x g).
Proof.
  revert x. induction g as [|c g IH]; intros [|x] Hx; simplify_eq/=.
  - done.
  - rewrite (IH x) by done. apply Permutation_app_swap_app.
Qed.

(** Writing a cell replaces one element of the flattened grid. *)
Lemma flatten_put g x y :
  shape w h g → x < w → y < h →
  ∃ rest, flatten g ≡ₚ cell g x y :: rest
          ∧ ∀ v, flatten (put g x y v) ≡ₚ v :: rest.
Proof.
  intros Hg Hx Hy.
  destruct (shape_lookup g x y Hg Hx Hy) as (col & Hcol & Hy').
  assert (y < length col) as Hyl by (by eapply lookup_lt_Some).
  exists (delete y col ++ concat (delete x g)). unfold flatten, put. split.
  - rewrite <- (list_alter_id id g x) at 1 by done.
    rewrite (concat_alter_Permutation _ _ _ col) by done. simpl.
    by rewrite (delete_Permutation col y (cell g x y)) at 1.
  - intros v. rewrite (concat_alter_Permutation _ _ _ col) by done.
    by rewrite insert_Permutation.
Qed.

(** Exchanging the values of two cells permutes the flattened grid. *)
Lemma flatten_exchange g x y x' y' :
  shape w h g → x < w → y < h → x' < w → y' < h → (x, y) ≠ (x', y') →
  flatten (put (put g x y (cell g x' y')) x' y' (cell g x y)) ≡ₚ flatten g.
Proof.
  intros Hg Hx Hy Hx' Hy' Hne.
  destruct (flatten_put g x y Hg Hx Hy) as (r1 & Hg1 & Hput1).
  set (g1 := put g x y (cell g x' y')).
  assert (shape w h g1) as Hs1 by (by apply shape_put).
  destruct (flatten_put g1 x' y' Hs1 Hx' Hy') as (r2 & Hg2 & Hput2).
  assert (cell g1 x' y' = cell g x' y') as Hc.
  { unfold g1. apply cell_put_ne; [done..|]. congruence. }
  rewrite Hc in Hg2. unfold g1 in Hg2. rewrite Hput1 in Hg2.
  apply Permutation_cons_inv in Hg2.
  rewrite Hput2, Hg1. by rewrite Hg2.
Qed.

End Tables.

(** ** Rules for running computations *)

Section Rules.

Variables L M : nat.
Variable flips : nat → bool.

Lemma wp_run {A} (m : Eff A) s Q :
  wp m s Q ↔ ∃ a s', m s = Some (a, s') ∧ Q a s'.
Proof.
  unfold wp. split.
  - destruct (m s) as [[a s']|]; [eauto|done].
  - intros (a & s' & -> & HQ). done.
Qed.

Lemma wp_mono {A} (m : Eff A) s (Q Q' : A → state → Prop) :
  wp m s Q → (∀ a s', Q a s' → Q' a s') → wp m s Q'.
Proof. unfold wp. destruct (m s) as [[a s']|]; [auto|done]. Qed.

Lemma wp_ret {A} (a : A) s (Q : A → state → Prop) : Q a s → wp (ret a) s Q.
Proof. done. Qed.

Lemma wp_bind {A B} (m : Eff A) (k : A → Eff B) s Q :
  wp m s (λ a s', wp (k a) s' Q) → wp (bind m k) s Q.
Proof. unfold wp, bind. by destruct (m s) as [[a s']|]. Qed.

Lemma wp_getTile x y s (Q : jsval → state → Prop) :
  shape L M (tiles s) → x < L →
  Q (cell (tiles s) x y) (log (Get x y) s) → wp (getTile x y) s Q.
Proof.
  intros Hg Hx HQ. destruct (shape_column L M _ x Hg Hx) as (col & Hcol & _).
  unfold wp, getTile, cell in *. by rewrite Hcol in *.
Qed.

Lemma array_set_inside (col : list jsval) y v :
  y < length col → array_set col y v = <[y := v]> col.
Proof. intros. unfold array_set. by rewrite decide_True. Qed.

Lemma wp_setTile x y v s (Q : () → state → Prop) :
  shape L M (tiles s) → x < L → y < M →
  Q () (log (Put x y) (set_tiles (put (tiles s) x y v) s)) →
  wp (setTile x y v) s Q.
Proof.
  intros Hg Hx Hy HQ. destruct (shape_column L M _ x Hg Hx) as (col & Hcol & Hlen).
  unfold wp, setTile. rewrite Hcol. rewrite array_set_inside by lia.
  replace (<[x := <[y := v]> col]> (tiles s)) with (put (tiles s) x y v); [done|].
  unfold put. apply list_eq. intros i. rewrite list_lookup_alter, list_lookup_insert.
  destruct (decide (x = i)) as [<-|].
  - rewrite Hcol. rewrite decide_True; [done|]. split; [done|]. by eapply lookup_lt_Some.
  - rewrite decide_False; [done|]. by intros [? _].
Qed.

Lemma wp_push r1 r2 s (Q : () → state → Prop) :
  Q () (set_tilesToRedraw (tilesToRedraw s ++ [r1; r2]) s) → wp (push r1 r2) s Q.
Proof. done. Qed.

Lemma wp_coinFlip s (Q : bool → state → Prop) :
  Q (flips (draws s)) (set_draws (S (draws s)) s) → wp (coinFlip flips) s Q.
Proof. done. Qed.

(** A loop keeps what each of its iterations keeps. *)
Lemma wp_for_each (I : state → Prop) l body s :
  (∀ i s, i ∈ l → I s → wp (body i) s (λ _, I)) →
  I s → wp (for_each l body) s (λ _, I).
Proof.
  revert s. induction l as [|i l IH]; intros s Hbody HI; simpl.
  - by apply wp_ret.
  - apply wp_bind. eapply wp_mono.
    + apply Hbody; [left|done].
    + intros [] s' HI'. apply IH; [|done]. intros j s'' Hj. apply Hbody. by right.
Qed.

Lemma for_each_app l1 l2 body s :
  for_each (l1 ++ l2) body s = (for_each l1 body ;;; for_each l2 body)%eff s.
Proof.
  revert s. induction l1 as [|i l1 IH]; intros s; simpl.
  - done.
  - unfold bind. destruct (body i s) as [[[] s']|]; [|done]. by rewrite IH.
Qed.

End Rules.

(** ** One visit *)

Section Visit.

Variables L M : nat.
Variable flips : nat → bool.

(** A tile that falls does not also flow: the horizontal test looks at the
    values read before the fall. *)
Lemma fall_excludes_flow c tile tileBefore tileBelow tileBelowBefore :
  fall_rule tile tileBelow = true →
  flow_rule c tile tileBefore tileBelow tileBelowBefore = false.
Proof.
  unfold fall_rule, flow_rule, strict_eq.
  repeat (case_bool_decide; simplify_eq/=); try done;
    destruct c; simpl; rewrite ?andb_false_r; try done.
Qed.

Lemma visit_spec x y s :
  shape L M (tiles s) → x < L → y < M →
  visit M flips x y s = Some ((), visit_outcome M flips x y s).
Proof.
  intros Hg Hx Hy.
  cut (wp (visit M flips x y) s (λ _ s', s' = visit_outcome M flips x y s)).
  { unfold wp. destruct (visit M flips x y s) as [[[] s']|]; [|done]. by intros ->. }
  unfold visit.
  apply wp_bind, (wp_getTile L M); [done..|].
  apply wp_bind, (wp_getTile L M); [done..|]. simpl.
  unfold visit_outcome.
  set (tile := cell (tiles s) x y). set (tileBelow := cell (tiles s) x (y + 1)).
  destruct (decide (y < M - 1)) as [Hrow|Hrow]; last first.
  { rewrite (bool_decide_eq_false_2 _ Hrow). simpl. apply wp_ret.
    unfold visit_accesses. rewrite decide_False by done.
    unfold log. simpl. by rewrite <- app_assoc, app_nil_r. }
  rewrite (bool_decide_eq_true_2 _ Hrow). simpl.
  apply wp_bind.
  destruct (fall_rule tile tileBelow) eqn:Hfall; simpl.
  - apply wp_bind, wp_push, wp_bind, (wp_setTile L M); [done..|].
    apply (wp_setTile L M); [by apply shape_put|done|lia|]. simpl.
    destruct (decide (0 < x)) as [Hcol|Hcol].
    + apply wp_bind, (wp_getTile L M); [by do 2 apply shape_put|lia|].
      apply wp_bind, (wp_getTile L M); [by do 2 apply shape_put|lia|].
      apply wp_bind, wp_coinFlip. simpl.
      rewrite !(cell_put_ne L M) by
        (first [by apply shape_put|done|lia|intros [=]; lia]).
      rewrite fall_excludes_flow by done. apply wp_ret.
      rewrite (bool_decide_eq_true_2 _ Hcol).
      unfold visit_accesses. rewrite !decide_True by done.
      unfold log, set_draws, set_tiles, set_tilesToRedraw. simpl.
      by rewrite <- !app_assoc.
    + apply wp_ret. rewrite (bool_decide_eq_false_2 _ Hcol).
      unfold visit_accesses. rewrite decide_True, decide_False by done.
      unfold log, set_draws, set_tiles, set_tilesToRedraw. simpl.
      by rewrite <- !app_assoc.
  - apply wp_ret.
    destruct (decide (0 < x)) as [Hcol|Hcol].
    + apply wp_bind, (wp_getTile L M); [done|lia|].
      apply wp_bind, (wp_getTile L M); [done|lia|].
      apply wp_bind, wp_coinFlip. simpl.
      rewrite (bool_decide_eq_true_2 _ Hcol). simpl.
      fold tile tileBelow.
      destruct (flow_rule _ _ _ _ _) eqn:Hflow.
      * apply wp_bind, wp_push, wp_bind, (wp_setTile L M); [done..|].
        apply (wp_setTile L M); [by apply shape_put|lia|done|]. simpl.
        unfold visit_accesses. rewrite !decide_True by done.
        unfold log, set_draws, set_tiles, set_tilesToRedraw. simpl.
        by rewrite <- !app_assoc.
      * apply wp_ret.
        unfold visit_accesses. rewrite !decide_True by done.
        unfold log, set_draws, set_tiles, set_tilesToRedraw. simpl.
        by rewrite app_nil_r, <- !app_assoc.
    + apply wp_ret. rewrite (bool_decide_eq_false_2 _ Hcol). simpl.
      unfold visit_accesses. rewrite decide_True, decide_False by done.
      unfold log, set_draws, set_tiles, set_tilesToRedraw. simpl.
      by rewrite app_nil_r, <- !app_assoc.
Qed.

End Visit.

(** ** Redrawing *)

Section Redrawing.

Variables w h : nat.

Lemma redrawn_app g l1 l2 : redrawn g (l1 ++ l2) = redrawn (redrawn g l1) l2.
Proof. unfold redrawn. apply foldl_app. Qed.

Lemma shape_redrawn g l : shape w h g → shape w h (redrawn g l).
Proof.
  revert g. induction l as [|r l IH]; intros g Hg; simpl; [done|].
  apply IH. by apply shape_put.
Qed.

Lemma redrawn_put g l x y v :
  (x, y) ∉ coord <$> l → redrawn (put g x y v) l = put (redrawn g l) x y v.
Proof.
  revert g. induction l as [|r l IH]; intros g Hnot; simpl; [done|].
  rewrite fmap_cons, not_elem_of_cons in Hnot. destruct Hnot as [Hr Hl].
  rewrite (put_comm g x y v) by done. by apply IH.
Qed.

Lemma last_at_None l x y : (x, y) ∉ coord <$> l → last_at l x y = None.
Proof.
  induction l as [|r l IH]; intros Hnot; simpl; [done|].
  rewrite fmap_cons, not_elem_of_cons in Hnot. destruct Hnot as [Hr Hl].
  rewrite IH by done. by rewrite decide_False.
Qed.

Lemma last_at_unique l r :
  NoDup (coord <$> l) → r ∈ l → last_at l (rx r) (ry r) = Some (rvalue r).
Proof.
  induction l as [|r' l IH]; intros Hnd Hr; [by apply elem_of_nil in Hr|].
  rewrite fmap_cons in Hnd. apply NoDup_cons in Hnd as [Hnot Hnd].
  simpl. apply elem_of_cons in Hr as [->|Hr].
  - rewrite last_at_None by done. by rewrite decide_True.
  - by rewrite IH.
Qed.

(** After the redraw, a cell holds the value of the last record that
    addresses it, and its former value when no record does. *)
Lemma cell_redrawn g l x y :
  shape w h g → (∀ r, r ∈ l → rx r < w ∧ ry r < h) →
  cell (redrawn g l) x y = default (cell g x y) (last_at l x y).
Proof.
  revert g. induction l as [|r l IH]; intros g Hg Hl; simpl; [done|].
  rewrite IH; [|by apply shape_put|by intros; apply Hl; right].
  destruct (last_at l x y) as [v|]; simpl; [done|].
  destruct (Hl r) as [? ?]; [by left|].
  rewrite (cell_put w h) by done. unfold coord.
  destruct (decide ((rx r, ry r) = (x, y))) as [Heq|Hne].
  - by rewrite decide_True.
  - by rewrite decide_False.
Qed.

End Redrawing.

(** ** The scan invariant *)

Section Scan.

Variables L M : nat.

Lemma mobile_not_moved v : mobile v → v ≠ MOVED.
Proof. by intros [-> | [-> | ->]]. Qed.

Lemma scan_inv_start g0 : shape L M g0 → scan_inv L M g0 g0 [].
Proof.
  intros Hg. split; try done.
  - intros r Hr. by apply elem_of_nil in Hr.
  - intros r Hr. by apply elem_of_nil in Hr.
  - intros r Hr. by apply elem_of_nil in Hr.
  - simpl. apply NoDup_nil_2.
  - intros. by left.
  - apply exchanged_nil.
Qed.

Lemma cell_marked g x y x' y' i j :
  shape L M g → x < L → y < M → x' < L → y' < M →
  cell (put (put g x y MOVED) x' y' MOVED) i j
  = if decide ((i, j) = (x, y) ∨ (i, j) = (x', y')) then MOVED else cell g i j.
Proof.
  intros Hg Hx Hy Hx' Hy'.
  rewrite (cell_put L M) by (by try apply shape_put).
  rewrite (cell_put L M) by done.
  repeat case_decide; try done; exfalso; tauto.
Qed.

Lemma fresh_cell g0 g l x y :
  scan_inv L M g0 g l → mobile (cell g x y) → (x, y) ∉ coord <$> l.
Proof.
  intros Hinv Hm Hin. apply list_elem_of_fmap in Hin as (r & Heq & Hr).
  apply (mobile_not_moved _ Hm). unfold coord in Heq.
  injection Heq as Hx Hy. subst x y.
  by apply (inv_marked _ _ _ _ _ Hinv).
Qed.

Lemma scan_inv_exchange g0 g l g' l' :
  scan_inv L M g0 g l → exchange L M g g' l' → scan_inv L M g0 g' (l ++ l').
Proof.
  intros Hinv Hex.
  destruct Hex as [|x y x' y' Hx Hy Hx' Hy' Hne Hm Hm'].
  { by rewrite app_nil_r. }
  pose proof (inv_shape _ _ _ _ _ Hinv) as Hg.
  pose proof (fresh_cell _ _ _ _ _ Hinv Hm) as Hp.
  pose proof (fresh_cell _ _ _ _ _ Hinv Hm') as Hq.
  assert (cell g x y = cell g0 x y) as Hv by (by apply (inv_kept _ _ _ _ _ Hinv)).
  assert (cell g x' y' = cell g0 x' y') as Hv' by (by apply (inv_kept _ _ _ _ _ Hinv)).
  split.
  - by do 2 apply shape_put.
  - intros r [Hr|Hr]%elem_of_app; [by apply (inv_bounds _ _ _ _ _ Hinv)|].
    apply elem_of_cons in Hr as [->|Hr]; [done|].
    apply list_elem_of_singleton in Hr as ->. done.
  - intros r Hr. rewrite cell_marked by done.
    case_decide as Hd; [done|].
    apply elem_of_app in Hr as [Hr|Hr]; [by apply (inv_marked _ _ _ _ _ Hinv)|].
    exfalso. apply Hd.
    apply elem_of_cons in Hr as [->|Hr]; [by left|].
    apply list_elem_of_singleton in Hr as ->. by right.
  - intros r [Hr|Hr]%elem_of_app; [by apply (inv_values _ _ _ _ _ Hinv)|].
    apply elem_of_cons in Hr as [->|Hr]; simpl.
    + split; [done|]. by rewrite <- Hv.
    + apply list_elem_of_singleton in Hr as ->. simpl. split; [done|]. by rewrite <- Hv'.
  - rewrite fmap_app. apply NoDup_app. split; [apply (inv_once _ _ _ _ _ Hinv)|].
    split.
    + intros c Hc [->|Hc']%elem_of_cons; [done|].
      apply list_elem_of_singleton in Hc' as ->. done.
    + simpl. apply NoDup_cons. split.
      * intros Hin. apply list_elem_of_singleton in Hin. done.
      * apply NoDup_singleton.
  - intros i j. rewrite cell_marked by done.
    case_decide; [by right|]. apply (inv_cells _ _ _ _ _ Hinv).
  - intros i j Hnot. rewrite fmap_app, not_elem_of_app in Hnot.
    destruct Hnot as [Hl Hnew]. simpl in Hnew.
    rewrite !not_elem_of_cons in Hnew. destruct Hnew as (Hi & Hj & _).
    rewrite cell_marked by done. rewrite decide_False by tauto.
    by apply (inv_kept _ _ _ _ _ Hinv).
  - rewrite redrawn_app.
    rewrite (redrawn_put _ l x' y') by done. rewrite (redrawn_put g l x y) by done.
    simpl.
    set (D := redrawn g l).
    assert (shape L M D) as HD by (by apply shape_redrawn).
    rewrite (put_comm (put D x y MOVED) x' y' MOVED x y) by done.
    rewrite put_put, put_put.
    assert (cell D x y = cell g x y) as Hc.
    { unfold D. rewrite (cell_redrawn L M); [|done|apply (inv_bounds _ _ _ _ _ Hinv)].
      by rewrite last_at_None. }
    assert (cell D x' y' = cell g x' y') as Hc'.
    { unfold D. rewrite (cell_redrawn L M); [|done|apply (inv_bounds _ _ _ _ _ Hinv)].
      by rewrite last_at_None. }
    rewrite <- Hc, <- Hc'. rewrite (flatten_exchange L M) by done.
    apply (inv_flat _ _ _ _ _ Hinv).
  - apply exchanged_snoc; [apply (inv_pairs _ _ _ _ _ Hinv)|done..].
Qed.

Lemma scanned_inv g0 g l :
  shape L M g0 → scanned L M g0 g l → scan_inv L M g0 g l.
Proof.
  intros Hg Hs. induction Hs as [|g l g' l' _ IH Hex].
  - by apply scan_inv_start.
  - by eapply scan_inv_exchange.
Qed.

End Scan.

(** ** The rules, as conditions on the tiles *)

Section Conditions.

Lemma loose_eq_air_true v : loose_eq_air v = true ↔ v = TILE_AIR.
Proof.
  unfold TILE_AIR. destruct v as [k| |]; simpl; [|done..].
  rewrite bool_decide_eq_true. split; [by intros ->|by intros [= ->]].
Qed.

Lemma fall_rule_true tile tileBelow :
  fall_rule tile tileBelow = true ↔
  (tile = TILE_LAND ∧ (tileBelow = TILE_AIR ∨ tileBelow = TILE_WATER))
  ∨ (tile = TILE_WATER ∧ tileBelow = TILE_AIR).
Proof.
  unfold fall_rule, strict_eq.
  repeat (case_bool_decide; simpl); split; try done; try tauto; intros; exfalso;
    intuition congruence.
Qed.

Lemma flow_rule_true c tile tileBefore tileBelow tileBelowBefore :
  flow_rule c tile tileBefore tileBelow tileBelowBefore = true ↔
  (c = true ∧ tile = TILE_WATER ∧ tileBefore = TILE_AIR ∧ tileBelow ≠ TILE_AIR)
  ∨ (c = false ∧ tile = TILE_AIR ∧ tileBefore = TILE_WATER
     ∧ tileBelowBefore ≠ TILE_AIR).
Proof.
  unfold flow_rule, strict_eq.
  destruct (loose_eq_air tileBefore) eqn:Hair.
  - apply loose_eq_air_true in Hair as ->. unfold TILE_AIR, TILE_WATER.
    destruct c; repeat (case_bool_decide; simpl); split; try done; try tauto;
      intros; exfalso; intuition congruence.
  - assert (tileBefore ≠ TILE_AIR) by (rewrite <- loose_eq_air_true; congruence).
    unfold TILE_AIR, TILE_WATER in *.
    destruct c; repeat (case_bool_decide; simpl); split; try done; try tauto;
      intros; exfalso; intuition congruence.
Qed.

Lemma fall_rule_mobile tile tileBelow :
  fall_rule tile tileBelow = true → mobile tile ∧ mobile tileBelow.
Proof. rewrite fall_rule_true. unfold mobile. intuition. Qed.

Lemma flow_rule_mobile c tile tileBefore tileBelow tileBelowBefore :
  flow_rule c tile tileBefore tileBelow tileBelowBefore = true →
  mobile tile ∧ mobile tileBefore.
Proof. rewrite flow_rule_true. unfold mobile. intuition. Qed.

End Conditions.

(** ** The scan and the redraw, as a whole *)

Section Frame.

Variables L M : nat.
Variable flips : nat → bool.

Lemma visit_exchange s x y :
  shape L M (tiles s) → x < L → y < M →
  ∃ l', exchange L M (tiles s) (tiles (visit_outcome M flips x y s)) l'
        ∧ tilesToRedraw (visit_outcome M flips x y s) = tilesToRedraw s ++ l'.
Proof.
  intros Hg Hx Hy. unfold visit_outcome. simpl.
  destruct (decide (y < M - 1)) as [Hrow|Hrow];
    [rewrite (bool_decide_eq_true_2 _ Hrow)|rewrite (bool_decide_eq_false_2 _ Hrow)];
    simpl; [|eexists; split; [apply exchange_none|done]].
  destruct (fall_rule _ _) eqn:Hfall; simpl.
  { apply fall_rule_mobile in Hfall as [? ?].
    eexists; split; [|done]. apply exchange_pair; try done; try lia.
    intros [=]; lia. }
  destruct (decide (0 < x)) as [Hcol|Hcol];
    [rewrite (bool_decide_eq_true_2 _ Hcol)|rewrite (bool_decide_eq_false_2 _ Hcol)];
    simpl; [|eexists; split; [apply exchange_none|done]].
  destruct (flow_rule _ _ _ _ _) eqn:Hflow; simpl;
    [|eexists; split; [apply exchange_none|done]].
  apply flow_rule_mobile in Hflow as [? ?].
  eexists; split; [|done]. apply exchange_pair; try done; try lia.
  intros [=]; lia.
Qed.

Lemma visit_shape s x y :
  shape L M (tiles s) → x < L → y < M →
  shape L M (tiles (visit_outcome M flips x y s)).
Proof.
  intros Hg Hx Hy. destruct (visit_exchange s x y) as (l' & Hex & _); [done..|].
  destruct Hex; [done|]. by do 2 apply shape_put.
Qed.

(** What every visit keeps, the scan keeps. *)
Lemma scan_run (I : state → Prop) s :
  shape L M (tiles s) →
  I (set_tilesToRedraw [] s) →
  (∀ x y s, x < L → y < M → shape L M (tiles s) → I s →
            I (visit_outcome M flips x y s)) →
  wp (applyPhysics L M flips) s
     (λ l s', l = tilesToRedraw s' ∧ shape L M (tiles s') ∧ I s').
Proof.
  intros Hg HI Hvisit. unfold applyPhysics. apply wp_bind. unfold wp at 1. simpl.
  apply wp_bind. eapply wp_mono.
  - apply (wp_for_each (λ s, shape L M (tiles s) ∧ I s)); [|done].
    intros x s1 Hx%elem_of_seq [Hg1 HI1]. unfold scan_column.
    apply (wp_for_each (λ s, shape L M (tiles s) ∧ I s)); [|done].
    intros y s2 Hy%elem_of_seq [Hg2 HI2].
    unfold wp. rewrite (visit_spec L M) by (done || lia).
    split; [apply visit_shape|apply Hvisit]; done || lia.
  - intros [] s' [Hg' HI']. done.
Qed.

Lemma applyPhysics_scanned s :
  shape L M (tiles s) →
  wp (applyPhysics L M flips) s
     (λ l s', l = tilesToRedraw s' ∧ shape L M (tiles s')
              ∧ scanned L M (tiles s) (tiles s') l ∧ (draws s ≤ draws s')%nat).
Proof.
  intros Hg. eapply wp_mono.
  - apply (scan_run (λ s', scanned L M (tiles s) (tiles s') (tilesToRedraw s')
                           ∧ (draws s ≤ draws s')%nat)); [done| |].
    + split; [apply scanned_start|done].
    + intros x y s1 Hx Hy Hg1 [Hs1 Hd1].
      destruct (visit_exchange s1 x y) as (l' & Hex & ->); [done..|].
      split; [by eapply scanned_visit|].
      unfold visit_outcome. simpl. case_match; lia.
  - intros l s' (-> & Hg' & Hs' & Hd). done.
Qed.

Lemma drawScreen_spec l s :
  shape L M (tiles s) → (∀ r, r ∈ l → rx r < L ∧ ry r < M) →
  wp (drawScreen l) s
     (λ _ s', tiles s' = redrawn (tiles s) l
              ∧ tilesToRedraw s' = tilesToRedraw s ∧ draws s' = draws s).
Proof.
  revert s. induction l as [|r l IH]; intros s Hg Hl; simpl.
  - by apply wp_ret.
  - destruct (Hl r) as [? ?]; [by left|].
    apply wp_bind, (wp_setTile L M); [done..|].
    eapply wp_mono.
    + apply IH; [by apply shape_put|]. intros r' Hr'. apply Hl. by right.
    + intros [] s' (-> & -> & ->). done.
Qed.

(** One frame, from any well-formed grid: both steps return, and the
    records and the two grids are related by the scan invariant. *)
Lemma frame_spec s :
  shape L M (tiles s) →
  ∃ l s1 s2,
    applyPhysics L M flips s = Some (l, s1)
    ∧ drawScreen l s1 = Some ((), s2)
    ∧ render L M flips s = Some ((), s2)
    ∧ scanned L M (tiles s) (tiles s1) l
    ∧ scan_inv L M (tiles s) (tiles s1) l
    ∧ tiles s2 = redrawn (tiles s1) l.
Proof.
  intros Hg.
  pose proof (applyPhysics_scanned s Hg) as Hscan.
  apply wp_run in Hscan as (l & s1 & Hrun & -> & Hg1 & Hs & _).
  pose proof (scanned_inv L M _ _ _ Hg Hs) as Hinv.
  pose proof (drawScreen_spec (tilesToRedraw s1) s1 Hg1 (inv_bounds _ _ _ _ _ Hinv)) as Hdraw.
  apply wp_run in Hdraw as ([] & s2 & Hrun2 & Ht & _).
  exists (tilesToRedraw s1), s1, s2. split_and!; try done.
  unfold render, bind. by rewrite Hrun.
Qed.

End Frame.

(** ** The engine: invariants of a frame *)

Section Invariants.

Variables L M : nat.
Variable flips : nat → bool.

Lemma mobile_public v : mobile v → public v.
Proof. intros [-> | [-> | ->]]; simpl; by eexists. Qed.

Lemma moved_not_public : ¬ public MOVED.
Proof. simpl. tauto. Qed.

(** C1, as amended. One frame is [applyPhysics] followed by [drawScreen] on
    the records it returned. From a grid of public tile values both steps
    return; every record value handed to [drawScreen] is a public tile
    value; when [applyPhysics] returns, the cells its records address hold
    the marker [-1]; and when [drawScreen] has returned, every cell of the
    grid holds a public tile value again. *)
Theorem frame_restores_tiles s :
  shape L M (tiles s) → Forall (Forall public) (tiles s) →
  ∃ l s1 s2,
    applyPhysics L M flips s = Some (l, s1)
    ∧ drawScreen l s1 = Some ((), s2)
    ∧ render L M flips s = Some ((), s2)
    ∧ Forall (λ r, public (rvalue r)) l
    ∧ Forall (λ r, cell (tiles s1) (rx r) (ry r) = MOVED) l
    ∧ shape L M (tiles s2)
    ∧ Forall (Forall public) (tiles s2).
Proof.
  intros Hg Hpub.
  destruct (frame_spec L M flips s Hg) as (l & s1 & s2 & Hscan & Hdraw & Hframe & _ & Hinv & Ht).
  exists l, s1, s2. split_and!; try done.
  - apply Forall_forall. intros r Hr. apply mobile_public.
    by apply (inv_values _ _ _ _ _ Hinv).
  - apply Forall_forall. intros r Hr. by apply (inv_marked _ _ _ _ _ Hinv).
  - rewrite Ht. apply shape_redrawn, (inv_shape _ _ _ _ _ Hinv).
  - rewrite Ht. apply Forall_concat. fold (flatten (redrawn (tiles s1) l)).
    rewrite (inv_flat _ _ _ _ _ Hinv). by apply Forall_concat.
Qed.

(** C2. In one frame the records of the scan come in pairs, each record of a
    pair carrying the value the other one's cell held before the frame; no
    cell is addressed by two records, so each cell takes part in at most one
    exchange; after the redraw every addressed cell holds the value of its
    record and every other cell its former value; and the tile values of the
    whole grid after the frame are a permutation of those before it. *)
Theorem frame_conserves_tiles s :
  shape L M (tiles s) →
  ∃ l s1 s2,
    applyPhysics L M flips s = Some (l, s1)
    ∧ drawScreen l s1 = Some ((), s2)
    ∧ render L M flips s = Some ((), s2)
    ∧ exchanged (tiles s) l
    ∧ NoDup (coord <$> l)
    ∧ (∀ r, r ∈ l → cell (tiles s2) (rx r) (ry r) = rvalue r)
    ∧ (∀ x y, (x, y) ∉ coord <$> l → cell (tiles s2) x y = cell (tiles s) x y)
    ∧ flatten (tiles s2) ≡ₚ flatten (tiles s).
Proof.
  intros Hg.
  destruct (frame_spec L M flips s Hg) as (l & s1 & s2 & Hscan & Hdraw & Hframe & Hs & Hinv & Ht).
  pose proof (inv_shape _ _ _ _ _ Hinv) as Hg1.
  pose proof (inv_bounds _ _ _ _ _ Hinv) as Hl.
  exists l, s1, s2. split_and!; try done.
  - apply (inv_pairs _ _ _ _ _ Hinv).
  - apply (inv_once _ _ _ _ _ Hinv).
  - intros r Hr. rewrite Ht, (cell_redrawn L M) by done.
    rewrite (last_at_unique l r); [done|apply (inv_once _ _ _ _ _ Hinv)|done].
  - intros x y Hnot. rewrite Ht, (cell_redrawn L M) by done.
    rewrite last_at_None by done. simpl. by apply (inv_kept _ _ _ _ _ Hinv).
  - rewrite Ht. apply (inv_flat _ _ _ _ _ Hinv).
Qed.

(** C7. Every record the scan emits has its coordinates inside the grid:
    [x < L] and [y < M], the coordinates being natural numbers. *)
Theorem records_in_bounds s :
  shape L M (tiles s) →
  ∃ l s1,
    applyPhysics L M flips s = Some (l, s1)
    ∧ Forall (λ r, 0 ≤ rx r < L ∧ 0 ≤ ry r < M) l.
Proof.
  intros Hg.
  destruct (frame_spec L M flips s Hg) as (l & s1 & s2 & Hscan & _ & _ & _ & Hinv & _).
  exists l, s1. split; [done|]. apply Forall_forall. intros r Hr.
  destruct (inv_bounds _ _ _ _ _ Hinv r Hr). lia.
Qed.

(** C10. [drawScreen] on records with coordinates inside the grid returns,
    having written the records to the grid one by one in list order;
    afterwards a cell addressed by some record holds the value of the
    last record addressing it, and a cell addressed by none is unchanged.
    For the records of a scan: when the scan returns, the cells they
    address hold the marker, and it is the redraw that gives each of them
    the value of its record. *)
Theorem drawScreen_last_record_wins l s :
  shape L M (tiles s) → Forall (λ r, rx r < L ∧ ry r < M) l →
  (∃ s', drawScreen l s = Some ((), s')
         ∧ tiles s' = foldl (λ g r, put g (rx r) (ry r) (rvalue r)) (tiles s) l
         ∧ ∀ x y, cell (tiles s') x y = default (cell (tiles s) x y) (last_at l x y))
  ∧ (∃ l0 s1 s2,
       applyPhysics L M flips s = Some (l0, s1)
       ∧ drawScreen l0 s1 = Some ((), s2)
       ∧ Forall (λ r, cell (tiles s1) (rx r) (ry r) = MOVED
                      ∧ cell (tiles s2) (rx r) (ry r) = rvalue r) l0).
Proof.
  intros Hg Hl. rewrite Forall_forall in Hl. split.
  - pose proof (drawScreen_spec L M l s Hg Hl) as Hdraw.
    apply wp_run in Hdraw as ([] & s' & Hrun & Ht & _).
    exists s'. split; [done|]. split; [done|].
    intros x y. rewrite Ht. by apply (cell_redrawn L M).
  - destruct (frame_spec L M flips s Hg) as (l0 & s1 & s2 & Hscan & Hdraw & _ & _ & Hinv & Ht).
    exists l0, s1, s2. split_and!; try done.
    apply Forall_forall. intros r Hr. split; [by apply (inv_marked _ _ _ _ _ Hinv)|].
    rewrite Ht, (cell_redrawn L M);
      [|apply (inv_shape _ _ _ _ _ Hinv)|apply (inv_bounds _ _ _ _ _ Hinv)].
    rewrite (last_at_unique l0 r); [done|apply (inv_once _ _ _ _ _ Hinv)|done].
Qed.

End Invariants.

(** ** The engine: the two rules at one cell *)

Section Moves.

Variables L M : nat.
Variable flips : nat → bool.

(** C3. When the scan visits a cell above the bottom row that holds Land
    over Air or Water, or Water over Air, the visit returns having emitted
    two records, the value below for [(x, y)] and the tile for
    [(x, y + 1)], and having overwritten both cells with the marker. *)
Theorem visit_falls x y s :
  shape L M (tiles s) → x < L → y < M - 1 →
  (cell (tiles s) x y = TILE_LAND
   ∧ (cell (tiles s) x (y + 1) = TILE_AIR ∨ cell (tiles s) x (y + 1) = TILE_WATER))
  ∨ (cell (tiles s) x y = TILE_WATER ∧ cell (tiles s) x (y + 1) = TILE_AIR) →
  ∃ s',
    visit M flips x y s = Some ((), s')
    ∧ tilesToRedraw s'
      = tilesToRedraw s ++ [Redraw x y (cell (tiles s) x (y + 1));
                            Redraw x (y + 1) (cell (tiles s) x y)]
    ∧ tiles s' = put (put (tiles s) x y MOVED) x (y + 1) MOVED
    ∧ cell (tiles s') x y = MOVED
    ∧ cell (tiles s') x (y + 1) = MOVED.
Proof.
  intros Hg Hx Hy Hrule. apply fall_rule_true in Hrule.
  exists (visit_outcome M flips x y s). split; [apply (visit_spec L M); done || lia|].
  unfold visit_outcome. simpl. rewrite (bool_decide_eq_true_2 _ Hy), Hrule. simpl.
  split_and!; try done.
  - rewrite (cell_marked L M) by (done || lia). rewrite decide_True; [done|by left].
  - rewrite (cell_marked L M) by (done || lia). rewrite decide_True; [done|by right].
Qed.

(** C4. When the scan visits a cell above the bottom row and right of the
    first column, it draws exactly one bit. If the bit is 1 and the cell
    holds Water, its left neighbour Air and the cell below it something
    other than Air, or if the bit is 0 and the cell holds Air, its left
    neighbour Water and the cell below the neighbour something other than
    Air, the visit returns having emitted two records, the neighbour's
    value for [(x, y)] and the tile for [(x - 1, y)], and having
    overwritten both cells with the marker. *)
Theorem visit_flows x y s :
  shape L M (tiles s) → x < L → 0 < x → y < M - 1 →
  (flips (draws s) = true
   ∧ cell (tiles s) x y = TILE_WATER
   ∧ cell (tiles s) (x - 1) y = TILE_AIR
   ∧ cell (tiles s) x (y + 1) ≠ TILE_AIR)
  ∨ (flips (draws s) = false
     ∧ cell (tiles s) x y = TILE_AIR
     ∧ cell (tiles s) (x - 1) y = TILE_WATER
     ∧ cell (tiles s) (x - 1) (y + 1) ≠ TILE_AIR) →
  ∃ s',
    visit M flips x y s = Some ((), s')
    ∧ draws s' = S (draws s)
    ∧ tilesToRedraw s'
      = tilesToRedraw s ++ [Redraw x y (cell (tiles s) (x - 1) y);
                            Redraw (x - 1) y (cell (tiles s) x y)]
    ∧ tiles s' = put (put (tiles s) x y MOVED) (x - 1) y MOVED
    ∧ cell (tiles s') x y = MOVED
    ∧ cell (tiles s') (x - 1) y = MOVED.
Proof.
  intros Hg Hx Hx0 Hy Hrule. apply flow_rule_true in Hrule.
  exists (visit_outcome M flips x y s). split; [apply (visit_spec L M); done || lia|].
  unfold visit_outcome. simpl.
  rewrite (bool_decide_eq_true_2 _ Hy), (bool_decide_eq_true_2 _ Hx0), Hrule. simpl.
  destruct (fall_rule _ _) eqn:Hfall.
  { by rewrite (fall_excludes_flow _ _ _ _ _ Hfall) in Hrule. }
  simpl. split_and!; try done.
  - rewrite (cell_marked L M) by (done || lia). rewrite decide_True; [done|by left].
  - rewrite (cell_marked L M) by (done || lia). rewrite decide_True; [done|by right].
Qed.

End Moves.

(** ** The engine: static tiles, accesses *)

Section Inert.

Variables L M : nat.
Variable flips : nat → bool.

Lemma static_blocks v :
  ¬ mobile v →
  (∀ tile, fall_rule tile v = false)
  ∧ (∀ tileBelow, fall_rule v tileBelow = false)
  ∧ (∀ c tile tileBelow tileBelowBefore,
       flow_rule c tile v tileBelow tileBelowBefore = false)
  ∧ (∀ c tileBefore tileBelow tileBelowBefore,
       flow_rule c v tileBefore tileBelow tileBelowBefore = false).
Proof.
  intros Hv. split_and!; intros; apply not_true_is_false.
  - intros [? ?]%fall_rule_mobile. done.
  - intros [? ?]%fall_rule_mobile. done.
  - intros [? ?]%flow_rule_mobile. done.
  - intros [? ?]%flow_rule_mobile. done.
Qed.

(** C6. A cell that holds the static tile or one of its colour variants is
    addressed by no record of the scan and holds the same value when the
    scan returns and when the frame is over. As the tile below or the tile
    before, a static value makes both rules fail, so no Land or Water tile
    moves into its cell; as the tile itself it makes both rules fail too. *)
Theorem static_tiles_stay x y s :
  shape L M (tiles s) → x < L → y < M → static (cell (tiles s) x y) →
  ∃ l s1 s2,
    applyPhysics L M flips s = Some (l, s1)
    ∧ drawScreen l s1 = Some ((), s2)
    ∧ ((x, y) ∉ coord <$> l)
    ∧ cell (tiles s1) x y = cell (tiles s) x y
    ∧ cell (tiles s2) x y = cell (tiles s) x y
    ∧ (∀ tile, fall_rule tile (cell (tiles s) x y) = false)
    ∧ (∀ c tile tileBelow tileBelowBefore,
         flow_rule c tile (cell (tiles s) x y) tileBelow tileBelowBefore = false)
    ∧ (∀ tileBelow, fall_rule (cell (tiles s) x y) tileBelow = false)
    ∧ (∀ c tileBefore tileBelow tileBelowBefore,
         flow_rule c (cell (tiles s) x y) tileBefore tileBelow tileBelowBefore = false).
Proof.
  intros Hg Hx Hy [_ Hstatic].
  destruct (frame_spec L M flips s Hg) as (l & s1 & s2 & Hscan & Hdraw & _ & _ & Hinv & Ht).
  destruct (static_blocks _ Hstatic) as (Hb1 & Hb2 & Hb3 & Hb4).
  assert ((x, y) ∉ coord <$> l) as Hnot.
  { intros (r & Heq & Hr)%list_elem_of_fmap. apply Hstatic.
    unfold coord in Heq. injection Heq as Hrx Hry. subst x y.
    by apply (inv_values _ _ _ _ _ Hinv). }
  exists l, s1, s2. split_and!; try done.
  - by apply (inv_kept _ _ _ _ _ Hinv).
  - rewrite Ht, (cell_redrawn L M);
      [|apply (inv_shape _ _ _ _ _ Hinv)|apply (inv_bounds _ _ _ _ _ Hinv)].
    rewrite last_at_None by done. simpl. by apply (inv_kept _ _ _ _ _ Hinv).
Qed.



End Inert.

(** ** The engine: one move per visit *)

Section Once.

Variables L M : nat.
Variable flips : nat → bool.

Lemma seq_split n i : i < n → seq 0 n = seq 0 i ++ i :: seq (S i) (n - S i).
Proof.
  intros Hi. replace n with (i + S (n - S i)) at 1 by lia.
  by rewrite seq_app.
Qed.

Lemma for_each_split n i body s :
  i < n →
  for_each (seq 0 n) body s
  = (for_each (seq 0 i) body ;;; body i ;;; for_each (seq (S i) (n - S i)) body)%eff s.
Proof. intros Hi. by rewrite (seq_split n i Hi), for_each_app. Qed.

(** The scan, cut at the visit of one cell. *)
Lemma applyPhysics_split x y s :
  x < L → y < M →
  applyPhysics L M flips s
  = (clearList ;;; scan_before M flips x y ;;; visit M flips x y ;;;
     scan_after L M flips x y ;;; returnList)%eff s.
Proof.
  intros Hx Hy. unfold applyPhysics, scan_before, scan_after, bind, clearList.
  rewrite (for_each_split L x) by done. unfold bind.
  destruct (for_each (seq 0 x) _ _) as [[[] sa]|]; [|done].
  unfold scan_column at 1. rewrite (for_each_split M y) by done. unfold bind.
  destruct (for_each (seq 0 y) _ _) as [[[] sb]|]; [|done].
  destruct (visit M flips x y sb) as [[[] sc]|]; [|done].
  by destruct (for_each (seq (S y) _) _ _) as [[[] sd]|].
Qed.

Lemma poised_visit x y i j s :
  i < L → j < M → i < x ∨ (i = x ∧ j < y) →
  poised L M x y s → poised L M x y (visit_outcome M flips i j s).
Proof.
  intros Hi Hj Hbefore (Hg & Hw & Ha & Hl).
  split; [by apply visit_shape|].
  unfold visit_outcome. simpl.
  destruct (decide (j < M - 1)) as [Hrow|Hrow];
    [rewrite (bool_decide_eq_true_2 _ Hrow)|rewrite (bool_decide_eq_false_2 _ Hrow)];
    simpl; [|done].
  destruct (fall_rule _ _) eqn:Hfall; simpl.
  { apply fall_rule_true in Hfall.
    assert ((x, y) ≠ (i, j + 1)) as Hne.
    { intros [= -> ->]. replace (j + 1 - 1) with j in Hl by lia.
      rewrite Hw in Hfall. unfold TILE_AIR, TILE_WATER, TILE_LAND in *.
      destruct Hl as [?|Hl]; [lia|]. intuition congruence. }
    rewrite !(cell_marked L M) by (done || lia).
    rewrite !decide_False by (intros [[= ? ?]|[= ? ?]]; subst; done || lia).
    split_and!; try done.
    destruct Hl as [?|Hl]; [by left|right].
    case_decide; [done|done]. }
  destruct (decide (0 < i)) as [Hcol|Hcol];
    [rewrite (bool_decide_eq_true_2 _ Hcol)|rewrite (bool_decide_eq_false_2 _ Hcol)];
    simpl; [|done].
  destruct (flow_rule _ _ _ _ _); simpl; [|done].
  rewrite !(cell_marked L M) by (done || lia).
  rewrite !decide_False by (intros [[= ? ?]|[= ? ?]]; subst; done || lia).
  split_and!; try done.
  destruct Hl as [?|Hl]; [by left|right].
  case_decide; [done|done].
Qed.

Lemma poised_scan_before x y s :
  x < L → y < M → poised L M x y s →
  wp (scan_before M flips x y) s (λ _ s', poised L M x y s').
Proof.
  intros Hx Hy Hp. unfold scan_before. apply wp_bind.
  eapply wp_mono.
  - apply (wp_for_each (poised L M x y)); [|done].
    intros i s1 Hi%elem_of_seq Hp1. unfold scan_column.
    apply (wp_for_each (poised L M x y)); [|done].
    intros j s2 Hj%elem_of_seq Hp2.
    unfold wp. rewrite (visit_spec L M) by (apply Hp2 || lia).
    apply poised_visit; [lia..|done].
  - intros [] s1 Hp1. apply (wp_for_each (poised L M x y)); [|done].
    intros j s2 Hj%elem_of_seq Hp2.
    unfold wp. rewrite (visit_spec L M) by (apply Hp2 || lia).
    apply poised_visit; [lia..|done].
Qed.

(** C5, as amended. Take water at [(x, y)] with air below it, air to its
    left and air below-left, and, when [y > 0], something other than land
    directly above it. Whatever the coin flips, when the scan reaches
    [(x, y)] the visit makes exactly one move, the fall: it emits the two
    records of the vertical exchange and nothing else. In any state a visit
    emits no record or exactly two, the first one for the visited cell. *)
Theorem water_falls_once x y s :
  shape L M (tiles s) → 0 < x → x < L → y < M - 1 →
  cell (tiles s) x y = TILE_WATER →
  cell (tiles s) x (y + 1) = TILE_AIR →
  cell (tiles s) (x - 1) y = TILE_AIR →
  cell (tiles s) (x - 1) (y + 1) = TILE_AIR →
  (y = 0 ∨ cell (tiles s) x (y - 1) ≠ TILE_LAND) →
  applyPhysics L M flips s
  = (clearList ;;; scan_before M flips x y ;;; visit M flips x y ;;;
     scan_after L M flips x y ;;; returnList)%eff s
  ∧ (∃ s1 s2,
       (clearList ;;; scan_before M flips x y)%eff s = Some ((), s1)
       ∧ visit M flips x y s1 = Some ((), s2)
       ∧ tilesToRedraw s2
         = tilesToRedraw s1 ++ [Redraw x y TILE_AIR; Redraw x (y + 1) TILE_WATER]
       ∧ tiles s2 = put (put (tiles s1) x y MOVED) x (y + 1) MOVED)
  ∧ (∀ i j s', shape L M (tiles s') → i < L → j < M →
       ∃ s'' l',
         visit M flips i j s' = Some ((), s'')
         ∧ tilesToRedraw s'' = tilesToRedraw s' ++ l'
         ∧ (l' = [] ∨ ∃ r r', l' = [r; r'] ∧ coord r = (i, j))).
Proof.
  intros Hg Hx0 Hx Hy Hw Ha _ _ Hl. split_and!.
  - apply applyPhysics_split; lia.
  - pose proof (poised_scan_before x y (set_tilesToRedraw [] s)) as Hrun.
    apply wp_run in Hrun as ([] & s1 & Hbefore & Hg1 & Hw1 & Ha1 & _); [|lia..|done].
    exists s1, (visit_outcome M flips x y s1). split_and!.
    + unfold bind, clearList. done.
    + apply (visit_spec L M); done || lia.
    + unfold visit_outcome. simpl. rewrite (bool_decide_eq_true_2 _ Hy), Hw1, Ha1. done.
    + unfold visit_outcome. simpl. rewrite (bool_decide_eq_true_2 _ Hy), Hw1, Ha1. done.
  - intros i j s' Hg' Hi Hj. exists (visit_outcome M flips i j s'). eexists.
    split; [by apply (visit_spec L M)|]. split; [reflexivity|].
    simpl. repeat case_match; eauto.
Qed.

End Once.

(** ** Tile-type selection *)

Section Selection.

Lemma colors_nonempty key color : TILE_COLORS !! key = Some color → color ≠ "".
Proof.
  intros Hkey%elem_of_list_to_map_2.
  repeat (apply elem_of_cons in Hkey as [[= -> ->]|Hkey]; [done|]).
  by apply elem_of_nil in Hkey.
Qed.

Lemma truthy_color key :
  truthy (TILE_COLORS_at key) = true ↔ key ∈ dom TILE_COLORS ∨ key ∈ OBJECT_PROTOTYPE.
Proof.
  rewrite elem_of_dom. unfold TILE_COLORS_at.
  destruct (TILE_COLORS !! key) as [color|] eqn:Hcolor; cbn [truthy].
  - split; [intros _; left; by eexists|intros _].
    apply negb_true_iff, bool_decide_eq_false. by eapply colors_nonempty.
  - destruct (bool_decide (key ∈ OBJECT_PROTOTYPE)) eqn:Hin; cbn [truthy].
    + apply bool_decide_eq_true in Hin. split; [by right|done].
    + apply bool_decide_eq_false in Hin. split; [done|].
      intros [[color Hsome]|Hkey]; [discriminate Hsome|done].
Qed.

(** C9. Not confirmed. The key ["constructor"] is none of the sixteen keys
    of [TILE_COLORS], yet [TILE_COLORS["constructor"]] is the function every
    object inherits, which is truthy: [updateCurrentTileType] makes
    ["constructor"] the selected tile type instead of keeping the selection. *)
Theorem constructor_is_selected :
  ("constructor" ∉ dom TILE_COLORS)
  ∧ updateCurrentTileType "constructor" (Pen false "s") = Pen false "constructor".
Proof. split; [by apply not_elem_of_dom|reflexivity]. Qed.

End Selection.

(** ** The statements on concrete grids *)

Section Scenarios.

Lemma scenarioA_shape : shape 2 2 (tiles (start scenarioA)).
Proof. split; [reflexivity|repeat constructor]. Defined.

Lemma scenarioA_public : Forall (Forall public) (tiles (start scenarioA)).
Proof. repeat constructor; by eexists. Defined.

Lemma scenarioB_shape : shape 2 3 (tiles (start scenarioB)).
Proof. split; [reflexivity|repeat constructor]. Defined.

Lemma puddle_shape : shape 2 2 (tiles (start puddle)).
Proof. split; [reflexivity|repeat constructor]. Defined.

(** C1, as stated, fails: on scenario A every cell holds a public value,
    and when [applyPhysics] returns its records, the two cells of the first
    column hold the marker, which is no public value. *)
Lemma scan_leaves_marker :
  shape 2 2 (tiles (start scenarioA))
  ∧ Forall (Forall public) (tiles (start scenarioA))
  ∧ ∃ l s1,
      applyPhysics 2 2 tails (start scenarioA) = Some (l, s1)
      ∧ l = [Redraw 0 0 TILE_AIR; Redraw 0 1 TILE_LAND]
      ∧ tiles s1 = [ [MOVED; MOVED]; [TILE_STATIC; TILE_AIR] ]
      ∧ ¬ Forall (Forall public) (tiles s1).
Proof.
  split; [apply scenarioA_shape|]. split; [apply scenarioA_public|].
  eexists _, _. split; [vm_compute; reflexivity|]. split; [reflexivity|].
  split; [reflexivity|]. simpl. intros Hall.
  apply Forall_cons in Hall as [Hcol _]. apply Forall_cons in Hcol as [Hcell _].
  by apply moved_not_public.
Qed.

Lemma frame_restores_tiles_witness :
  shape 2 2 (tiles (start scenarioA))
  ∧ Forall (Forall public) (tiles (start scenarioA))
  ∧ ∃ s2, render 2 2 tails (start scenarioA) = Some ((), s2)
          ∧ Forall (Forall public) (tiles s2).
Proof.
  split; [apply scenarioA_shape|]. split; [apply scenarioA_public|].
  destruct (frame_restores_tiles 2 2 tails (start scenarioA)
              scenarioA_shape scenarioA_public)
    as (l & s1 & s2 & _ & _ & Hframe & _ & _ & _ & Hpublic).
  exists s2. split; [exact Hframe|exact Hpublic].
Defined.

Lemma frame_conserves_tiles_witness :
  shape 2 2 (tiles (start scenarioA))
  ∧ ∃ s2, render 2 2 tails (start scenarioA) = Some ((), s2)
          ∧ flatten (tiles s2) ≡ₚ flatten (tiles (start scenarioA)).
Proof.
  split; [apply scenarioA_shape|].
  destruct (frame_conserves_tiles 2 2 tails (start scenarioA) scenarioA_shape)
    as (l & s1 & s2 & _ & _ & Hframe & _ & _ & _ & _ & Hperm).
  exists s2. split; [exact Hframe|exact Hperm].
Defined.

Lemma records_in_bounds_witness :
  shape 2 2 (tiles (start scenarioA))
  ∧ ∃ l s1, applyPhysics 2 2 tails (start scenarioA) = Some (l, s1)
            ∧ Forall (λ r, 0 ≤ rx r < 2 ∧ 0 ≤ ry r < 2) l.
Proof.
  split; [apply scenarioA_shape|].
  exact (records_in_bounds 2 2 tails (start scenarioA) scenarioA_shape).
Defined.

Lemma visit_falls_witness :
  shape 2 2 (tiles (start scenarioA)) ∧ 0 < 2 ∧ 0 < 2 - 1
  ∧ cell (tiles (start scenarioA)) 0 0 = TILE_LAND
  ∧ cell (tiles (start scenarioA)) 0 (0 + 1) = TILE_AIR
  ∧ ∃ s', visit 2 tails 0 0 (start scenarioA) = Some ((), s')
          ∧ cell (tiles s') 0 0 = MOVED ∧ cell (tiles s') 0 (0 + 1) = MOVED.
Proof.
  split; [apply scenarioA_shape|]. split; [lia|]. split; [simpl; lia|].
  split; [reflexivity|]. split; [reflexivity|].
  destruct (visit_falls 2 2 tails 0 0 (start scenarioA) scenarioA_shape)
    as (s' & Hrun & _ & _ & Hhere & Hbelow).
  - lia.
  - simpl. lia.
  - left. split; [reflexivity|]. left. reflexivity.
  - exists s'. split; [exact Hrun|]. split; [exact Hhere|exact Hbelow].
Defined.

Lemma visit_flows_witness :
  shape 2 2 (tiles (start puddle)) ∧ 1 < 2 ∧ 0 < 1 ∧ 0 < 2 - 1
  ∧ heads (draws (start puddle)) = true
  ∧ cell (tiles (start puddle)) 1 0 = TILE_WATER
  ∧ cell (tiles (start puddle)) (1 - 1) 0 = TILE_AIR
  ∧ cell (tiles (start puddle)) 1 (0 + 1) ≠ TILE_AIR
  ∧ ∃ s', visit 2 heads 1 0 (start puddle) = Some ((), s')
          ∧ draws s' = S (draws (start puddle))
          ∧ cell (tiles s') 1 0 = MOVED ∧ cell (tiles s') (1 - 1) 0 = MOVED.
Proof.
  assert (cell (tiles (start puddle)) 1 (0 + 1) ≠ TILE_AIR) as Hfloor.
  { simpl. discriminate. }
  split; [apply puddle_shape|]. split; [lia|]. split; [lia|]. split; [simpl; lia|].
  split; [reflexivity|]. split; [reflexivity|]. split; [reflexivity|].
  split; [exact Hfloor|].
  destruct (visit_flows 2 2 heads 1 0 (start puddle) puddle_shape)
    as (s' & Hrun & Hdraws & _ & _ & Hhere & Hleft).
  - lia.
  - lia.
  - simpl. lia.
  - left. split; [reflexivity|]. split; [reflexivity|]. split; [reflexivity|exact Hfloor].
  - exists s'. split; [exact Hrun|]. split; [exact Hdraws|].
    split; [exact Hhere|exact Hleft].
Defined.

Lemma landOverWater_shape : shape 2 3 (tiles (start landOverWater)).
Proof. split; [reflexivity|repeat constructor]. Defined.

(** C5, as stated, fails: water at [(1, 1)] with air below it, to its left
    and below-left, but land on top of it. The land falls into the water
    first and marks its cell, and the visit of [(1, 1)] then emits no
    record: no swap originates there in this tick. *)
Lemma water_under_land_stays :
  shape 2 3 (tiles (start landOverWater))
  ∧ cell landOverWater 1 1 = TILE_WATER
  ∧ cell landOverWater 1 (1 + 1) = TILE_AIR
  ∧ cell landOverWater (1 - 1) 1 = TILE_AIR
  ∧ cell landOverWater (1 - 1) (1 + 1) = TILE_AIR
  ∧ ∃ s1 s2,
      (clearList ;;; scan_before 3 tails 1 1)%eff (start landOverWater) = Some ((), s1)
      ∧ cell (tiles s1) 1 1 = MOVED
      ∧ visit 3 tails 1 1 s1 = Some ((), s2)
      ∧ tilesToRedraw s2 = tilesToRedraw s1
      ∧ tiles s2 = tiles s1.
Proof.
  split; [apply landOverWater_shape|]. do 4 (split; [reflexivity|]).
  eexists _, _. split; [vm_compute; reflexivity|]. split; [reflexivity|].
  split; [vm_compute; reflexivity|]. split; reflexivity.
Qed.

Lemma water_falls_once_witness :
  shape 2 3 (tiles (start scenarioB)) ∧ 0 < 1 ∧ 1 < 2 ∧ 1 < 3 - 1
  ∧ cell (tiles (start scenarioB)) 1 1 = TILE_WATER
  ∧ cell (tiles (start scenarioB)) 1 (1 + 1) = TILE_AIR
  ∧ cell (tiles (start scenarioB)) (1 - 1) 1 = TILE_AIR
  ∧ cell (tiles (start scenarioB)) (1 - 1) (1 + 1) = TILE_AIR
  ∧ (1 = 0 ∨ cell (tiles (start scenarioB)) 1 (1 - 1) ≠ TILE_LAND)
  ∧ ∃ s1 s2,
      (clearList ;;; scan_before 3 heads 1 1)%eff (start scenarioB) = Some ((), s1)
      ∧ visit 3 heads 1 1 s1 = Some ((), s2)
      ∧ tilesToRedraw s2
        = tilesToRedraw s1 ++ [Redraw 1 1 TILE_AIR; Redraw 1 (1 + 1) TILE_WATER].
Proof.
  assert (1 = 0 ∨ cell (tiles (start scenarioB)) 1 (1 - 1) ≠ TILE_LAND) as Habove.
  { right. simpl. discriminate. }
  split; [apply scenarioB_shape|]. split; [lia|]. split; [lia|]. split; [simpl; lia|].
  do 4 (split; [reflexivity|]). split; [exact Habove|].
  destruct (water_falls_once 2 3 heads 1 1 (start scenarioB) scenarioB_shape)
    as (_ & (s1 & s2 & Hbefore & Hrun & Hrecords & _) & _).
  - lia.
  - lia.
  - simpl. lia.
  - reflexivity.
  - reflexivity.
  - reflexivity.
  - reflexivity.
  - exact Habove.
  - exists s1, s2. split; [exact Hbefore|]. split; [exact Hrun|exact Hrecords].
Defined.

Lemma static_tiles_stay_witness :
  shape 2 2 (tiles (start scenarioA)) ∧ 1 < 2 ∧ 0 < 2
  ∧ static (cell (tiles (start scenarioA)) 1 0)
  ∧ ∃ s2, render 2 2 tails (start scenarioA) = Some ((), s2)
          ∧ cell (tiles s2) 1 0 = TILE_STATIC.
Proof.
  assert (static (cell (tiles (start scenarioA)) 1 0)) as Hstatic.
  { split; [by eexists|]. intros [Hm | [Hm | Hm]]; discriminate Hm. }
  split; [apply scenarioA_shape|]. split; [lia|]. split; [lia|].
  split; [exact Hstatic|].
  destruct (static_tiles_stay 2 2 tails 1 0 (start scenarioA) scenarioA_shape)
    as (l & s1 & s2 & Hscan & Hdraw & _ & _ & Hkept & _).
  - lia.
  - lia.
  - exact Hstatic.
  - exists s2. split; [|exact Hkept].
    unfold render, bind. rewrite Hscan. exact Hdraw.
Defined.



Lemma drawScreen_last_record_wins_witness :
  shape 2 2 (tiles (start scenarioA))
  ∧ Forall (λ r, rx r < 2 ∧ ry r < 2) [Redraw 1 1 TILE_WATER; Redraw 1 1 TILE_LAND]
  ∧ ∃ s', drawScreen [Redraw 1 1 TILE_WATER; Redraw 1 1 TILE_LAND] (start scenarioA)
          = Some ((), s')
          ∧ cell (tiles s') 1 1 = TILE_LAND
          ∧ cell (tiles s') 0 0 = TILE_LAND.
Proof.
  assert (Forall (λ r, rx r < 2 ∧ ry r < 2)
            [Redraw 1 1 TILE_WATER; Redraw 1 1 TILE_LAND]) as Hin.
  { repeat constructor; simpl; lia. }
  split; [apply scenarioA_shape|]. split; [exact Hin|].
  destruct (drawScreen_last_record_wins 2 2 tails _ (start scenarioA)
              scenarioA_shape Hin) as ((s' & Hrun & _ & Hcells) & _).
  exists s'. split; [exact Hrun|]. split; [exact (Hcells 1 1)|exact (Hcells 0 0)].
Defined.

End Scenarios.

(** * Further properties: construction, handlers, the game loop *)

(** ** Loops that accumulate *)

Section Loops.

Variables L M : nat.

(** An invariant that follows the indices a loop has gone through. *)
Lemma wp_for_each_prefix (I : list nat → state → Prop) l body s :
  I [] s →
  (∀ p i q s, l = p ++ i :: q → I p s → wp (body i) s (λ _, I (p ++ [i]))) →
  wp (for_each l body) s (λ _, I l).
Proof.
  intros Hstart Hbody.
  cut (∀ q p s, l = p ++ q → I p s → wp (for_each q body) s (λ _, I l)).
  { intros Hgen. by apply (Hgen l []). }
  induction q as [|i q IH]; intros p s' Hl Hp; simpl.
  - apply wp_ret. by rewrite Hl, app_nil_r.
  - apply wp_bind. eapply wp_mono; [by eapply Hbody|].
    intros [] s'' Hp'. apply (IH (p ++ [i])); [|done].
    by rewrite <- app_assoc.
Qed.

Lemma grid_ext (g g' : list (list jsval)) :
  shape L M g → shape L M g' →
  (∀ x y, x < L → y < M → cell g x y = cell g' x y) → g = g'.
Proof.
  intros Hg Hg' Hcells. apply list_eq. intros x.
  destruct (decide (x < L)) as [Hx|Hx].
  - destruct (shape_column L M g x Hg Hx) as (col & Hcol & Hlen).
    destruct (shape_column L M g' x Hg' Hx) as (col' & Hcol' & Hlen').
    rewrite Hcol, Hcol'. f_equal. apply list_eq. intros y.
    destruct (decide (y < M)) as [Hy|Hy].
    + destruct (shape_lookup L M g x y Hg Hx Hy) as (c & Hc & Hv).
      destruct (shape_lookup L M g' x y Hg' Hx Hy) as (c' & Hc' & Hv').
      simplify_eq. by rewrite Hv, Hv', Hcells.
    + rewrite !lookup_ge_None_2; [done|lia..].
  - destruct Hg as [Hw _], Hg' as [Hw' _].
    rewrite !lookup_ge_None_2; [done|lia..].
Qed.

Lemma all_cells_elem f r :
  r ∈ all_cells L M f ↔ rx r < L ∧ ry r < M ∧ rvalue r = f (rx r) (ry r).
Proof.
  unfold all_cells. rewrite list_elem_of_bind. split.
  - intros (x & Hr & Hx). apply list_elem_of_fmap in Hr as (y & -> & Hy).
    apply elem_of_seq in Hx, Hy. simpl. split_and!; [lia..|done].
  - intros (Hx & Hy & Hv). exists (rx r). split; [|apply elem_of_seq; lia].
    apply list_elem_of_fmap. exists (ry r). split; [|apply elem_of_seq; lia].
    destruct r as [x y v]. simpl in *. by subst.
Qed.

Lemma all_cells_once f : NoDup (coord <$> all_cells L M f).
Proof.
  apply NoDup_fmap_2_strong.
  - intros [x y v] [x' y' v'] Hr%all_cells_elem Hr'%all_cells_elem [= -> ->].
    simpl in *. destruct Hr as (_ & _ & ->), Hr' as (_ & _ & ->). done.
  - unfold all_cells. apply NoDup_bind; [| |apply NoDup_seq].
    + intros x x' r _ _ (y & -> & _)%list_elem_of_fmap (y' & [= -> _] & _)%list_elem_of_fmap.
      done.
    + intros x _. apply NoDup_fmap_2_strong; [|apply NoDup_seq].
      by intros y y' _ _ [= ->].
Qed.

Lemma last_at_all_cells f x y :
  x < L → y < M → last_at (all_cells L M f) x y = Some (f x y).
Proof.
  intros Hx Hy.
  apply (last_at_unique (all_cells L M f) (Redraw x y (f x y))).
  - apply all_cells_once.
  - by apply all_cells_elem.
Qed.

Lemma length_all_cells f : length (all_cells L M f) = L * M.
Proof.
  unfold all_cells.
  cut (∀ l : list nat,
         length (l ≫= λ x, (λ y, Redraw x y (f x y)) <$> seq 0 M) = length l * M).
  { intros Hlen. by rewrite Hlen, length_seq. }
  induction l as [|x l IH]; [done|].
  rewrite bind_cons, length_app, length_fmap, length_seq, IH. simpl. lia.
Qed.

(** Redrawing every cell gives every cell the value of its record. *)
Lemma redrawn_all_cells g f x y :
  shape L M g → x < L → y < M → cell (redrawn g (all_cells L M f)) x y = f x y.
Proof.
  intros Hg Hx Hy. rewrite (cell_redrawn L M); [|done|].
  - by rewrite last_at_all_cells.
  - intros r (? & ? & _)%all_cells_elem. done.
Qed.

(** Two nested loops over the grid whose body pushes one record. *)
Lemma wp_collect (R : state → Prop) (f : nat → nat → jsval)
    (body : nat → nat → Eff ()) s :
  (∀ x y s, x < L → y < M → R s →
     wp (body x y) s
        (λ _ s', R s' ∧ tilesToRedraw s' = tilesToRedraw s ++ [Redraw x y (f x y)])) →
  R s →
  wp (for_each (seq 0 L) (λ x, for_each (seq 0 M) (body x))) s
     (λ _ s', R s' ∧ tilesToRedraw s' = tilesToRedraw s ++ all_cells L M f).
Proof.
  intros Hbody HR. unfold all_cells.
  apply (wp_for_each_prefix
           (λ p s', R s' ∧ tilesToRedraw s'
                           = tilesToRedraw s
                             ++ (p ≫= λ x, (λ y, Redraw x y (f x y)) <$> seq 0 M))).
  { split; [done|]. by rewrite app_nil_r. }
  intros p x q s1 Hsplit [HR1 Hl1].
  assert (x < L) as Hx.
  { apply (elem_of_seq 0). rewrite Hsplit. apply elem_of_app. right. by left. }
  eapply wp_mono.
  - apply (wp_for_each_prefix
             (λ p' s', R s' ∧ tilesToRedraw s'
                               = tilesToRedraw s1 ++ ((λ y, Redraw x y (f x y)) <$> p'))).
    { split; [done|]. by rewrite app_nil_r. }
    intros p' y q' s2 Hsplit' [HR2 Hl2].
    assert (y < M) as Hy.
    { apply (elem_of_seq 0). rewrite Hsplit'. apply elem_of_app. right. by left. }
    eapply wp_mono; [by apply Hbody|].
    intros [] s3 [HR3 Hl3]. split; [done|].
    by rewrite Hl3, Hl2, fmap_app, <- app_assoc.
  - intros [] s2 [HR2 Hl2]. split; [done|].
    rewrite Hl2, Hl1, bind_app, <- app_assoc. simpl. by rewrite app_nil_r.
Qed.

End Loops.

(** ** Construction *)

Section Construction.

Variables L M : nat.
Variable rolls : nat → nat.

Lemma tile_type_public k : k < 4 → public (tile_type k).
Proof.
  intros Hk. destruct k as [|[|[|[|k]]]]; [by eexists..|lia].
Qed.

Lemma fill_column_spec js column s :
  wp (fill_column rolls js column) s
     (λ c s', c = column ++ ((λ j, tile_type (rolls (draws s + j))) <$> seq 0 (length js))
              ∧ tiles s' = tiles s ∧ draws s' = draws s + length js
              ∧ tilesToRedraw s' = tilesToRedraw s ∧ trace s' = trace s).
Proof.
  revert column s. induction js as [|j js IH]; intros column s; simpl.
  - apply wp_ret. rewrite app_nil_r. split_and!; [done..|lia|done|done].
  - apply wp_bind. unfold wp at 1, roll. eapply wp_mono; [apply IH|].
    intros c s' (-> & Ht & Hd & Hl & Htr). simpl in *.
    split_and!; [|done|lia|done|done].
    rewrite <- app_assoc. simpl. rewrite Nat.add_0_r. do 2 f_equal.
    rewrite <- fmap_S_seq, <- list_fmap_compose. apply list_fmap_ext.
    intros _ i _. simpl. do 2 f_equal. lia.
Qed.

(** The grid [initialize] leaves behind, as columns of rolled tiles. *)
Lemma initialize_spec s :
  wp (initialize L M rolls) s
     (λ _ s', tiles s'
              = tiles s ++ ((λ x, (λ y, tile_type (rolls (draws s + x * M + y))) <$> seq 0 M)
                            <$> seq 0 L)
              ∧ draws s' = draws s + L * M
              ∧ tilesToRedraw s' = tilesToRedraw s ∧ trace s' = trace s).
Proof.
  unfold initialize. eapply wp_mono.
  - apply (wp_for_each_prefix
      (λ p s', tiles s'
               = tiles s ++ ((λ x, (λ y, tile_type (rolls (draws s + x * M + y))) <$> seq 0 M)
                             <$> seq 0 (length p))
               ∧ draws s' = draws s + length p * M
               ∧ tilesToRedraw s' = tilesToRedraw s ∧ trace s' = trace s)).
    { simpl. rewrite app_nil_r. split_and!; [done|lia|done|done]. }
    intros p i q s1 _ (Ht & Hd & Hl & Htr).
    apply wp_bind. eapply wp_mono; [apply fill_column_spec|].
    intros c s2 (-> & Ht2 & Hd2 & Hl2 & Htr2). unfold wp, pushColumn. simpl.
    rewrite length_app, length_seq in *. simpl.
    split_and!; [|lia|congruence|congruence].
    rewrite Ht2, Ht, seq_app, fmap_app, <- app_assoc. simpl. do 3 f_equal.
    apply list_fmap_ext. intros _ y _. do 2 f_equal. lia.
  - intros [] s' (Ht & Hd & Hl & Htr). rewrite length_seq in *. done.
Qed.

Lemma rolled_grid_cell d x y :
  x < L → y < M →
  cell ((λ x, (λ y, tile_type (rolls (d + x * M + y))) <$> seq 0 M) <$> seq 0 L) x y
  = tile_type (rolls (d + x * M + y)).
Proof.
  intros Hx Hy. unfold cell.
  rewrite list_lookup_fmap, lookup_seq_lt by done. simpl.
  by rewrite list_lookup_fmap, lookup_seq_lt by done.
Qed.

Lemma rolled_grid_shape d :
  shape L M ((λ x, (λ y, tile_type (rolls (d + x * M + y))) <$> seq 0 M) <$> seq 0 L).
Proof.
  split; [by rewrite length_fmap, length_seq|].
  apply Forall_fmap, Forall_forall. intros x _. simpl.
  by rewrite length_fmap, length_seq.
Qed.

Lemma rolled_grid_public d :
  (∀ n, rolls n < 4) →
  Forall (Forall public)
    ((λ x, (λ y, tile_type (rolls (d + x * M + y))) <$> seq 0 M) <$> seq 0 L).
Proof.
  intros Hrolls. apply Forall_fmap, Forall_forall. intros x _. simpl.
  apply Forall_fmap, Forall_forall. intros y _. simpl.
  by apply tile_type_public.
Qed.

(** X1. Started on the empty grid with every roll among 0, 1, 2, 3,
    [initialize] returns a grid of [L] columns of [M] cells; the cell
    [(x, y)] holds the tile type picked by the roll number [x * M + y], so
    the grid is filled column by column; every cell holds one of the four
    natures; and exactly [L * M] random numbers are used. *)
Theorem initialize_fills s :
  tiles s = [] → (∀ n, rolls n < 4) →
  ∃ s',
    initialize L M rolls s = Some ((), s')
    ∧ shape L M (tiles s')
    ∧ (∀ x y, x < L → y < M →
         cell (tiles s') x y = tile_type (rolls (draws s + x * M + y))
         ∧ cell (tiles s') x y ∈ TILE_TYPES)
    ∧ Forall (Forall public) (tiles s')
    ∧ draws s' = draws s + L * M.
Proof.
  intros Hempty Hrolls.
  pose proof (initialize_spec s) as Hrun.
  apply wp_run in Hrun as ([] & s' & Hrun & Ht & Hd & _).
  rewrite Hempty in Ht. simpl in Ht.
  exists s'. split; [done|]. rewrite Ht. split_and!; [| | |done].
  - apply rolled_grid_shape.
  - intros x y Hx Hy. rewrite rolled_grid_cell by done. split; [done|].
    unfold tile_type. pose proof (Hrolls (draws s + x * M + y)) as Hk.
    destruct (lookup_lt_is_Some_2 TILE_TYPES (rolls (draws s + x * M + y))) as [v Hv];
      [simpl; lia|].
    rewrite Hv. simpl. by eapply list_elem_of_lookup_2.
  - by apply rolled_grid_public.
Qed.

End Construction.

(** ** The first drawing of the screen, and clearing it *)

Section Screen.

Variables L M : nat.
Variable rolls : nat → nat.

Lemma allTiles_spec s :
  shape L M (tiles s) →
  wp (allTiles L M) s
     (λ l s', l = all_cells L M (cell (tiles s)) ∧ tilesToRedraw s' = l
              ∧ tiles s' = tiles s ∧ draws s' = draws s).
Proof.
  intros Hg. unfold allTiles. apply wp_bind. unfold wp at 1, clearList.
  apply wp_bind. eapply wp_mono.
  - apply (wp_collect L M (λ s', tiles s' = tiles s ∧ draws s' = draws s)
                      (cell (tiles s))); [|done].
    intros x y s1 Hx Hy [Ht Hd].
    apply wp_bind, (wp_getTile L M); [by rewrite Ht|done|].
    unfold wp, push1. simpl. by rewrite Ht.
  - intros [] s' [[Ht Hd] Hl]. unfold wp, returnList. simpl in *. by rewrite Hl.
Qed.

(** Writing back to every cell the value it holds changes nothing. *)
Lemma redrawn_same g : shape L M g → redrawn g (all_cells L M (cell g)) = g.
Proof.
  intros Hg. apply (grid_ext L M); [by apply shape_redrawn|done|].
  intros x y Hx Hy. by apply (redrawn_all_cells L M).
Qed.

Lemma all_cells_bounds f r : r ∈ all_cells L M f → rx r < L ∧ ry r < M.
Proof. intros (? & ? & _)%all_cells_elem. done. Qed.

Lemma air_grid_shape : shape L M (replicate L (replicate M TILE_AIR)).
Proof.
  split; [by rewrite length_replicate|].
  apply Forall_replicate. by rewrite length_replicate.
Qed.

Lemma air_grid_cell x y :
  x < L → y < M → cell (replicate L (replicate M TILE_AIR)) x y = TILE_AIR.
Proof.
  intros Hx Hy. unfold cell. rewrite lookup_replicate_2 by done.
  by rewrite lookup_replicate_2.
Qed.

Lemma clearScreen_spec s :
  shape L M (tiles s) →
  wp (clearScreen L M 27) s
     (λ _ s', tiles s' = replicate L (replicate M TILE_AIR)
              ∧ tilesToRedraw s' = all_cells L M (λ _ _, TILE_AIR)
              ∧ draws s' = draws s).
Proof.
  intros Hg. unfold clearScreen. simpl.
  apply wp_bind. unfold wp at 1, clearList.
  apply wp_bind. eapply wp_mono.
  - apply (wp_collect L M (λ s', shape L M (tiles s') ∧ draws s' = draws s)
                      (λ _ _, TILE_AIR)); [|done].
    intros x y s1 Hx Hy [Hg1 Hd].
    apply wp_bind, (wp_setTile L M); [done..|].
    unfold wp, push1. simpl. split; [|done]. split; [by apply shape_put|done].
  - intros [] s1 [[Hg1 Hd] Hl]. simpl in Hl.
    apply wp_bind. unfold wp at 1, returnList.
    eapply wp_mono.
    + apply (drawScreen_spec L M); [done|]. rewrite Hl. apply all_cells_bounds.
    + intros [] s2 (Ht & Hl2 & Hd2). split_and!; [|congruence..].
      rewrite Ht, Hl. apply (grid_ext L M); [by apply shape_redrawn|apply air_grid_shape|].
      intros x y Hx Hy. rewrite (redrawn_all_cells L M) by done.
      by rewrite air_grid_cell.
Qed.

(** X2. With every roll among 0, 1, 2, 3, [new Sand()] returns: the game
    is not drawing and has the static tile selected; its grid has [L]
    columns of [M] cells, cell [(x, y)] holding the tile type of the roll
    number [x * M + y]; the list drawn on the screen has one record for
    every cell, column by column, carrying the value of the cell; and
    drawing it leaves the grid as [initialize] filled it. *)
Theorem newSand_ready d :
  (∀ n, rolls n < 4) →
  ∃ g,
    newSand L M rolls d = Some g
    ∧ well_formed L M g
    ∧ brush g = Pen false "s"
    ∧ (∀ x y, x < L → y < M →
         cell (tiles (world g)) x y = tile_type (rolls (d + x * M + y)))
    ∧ tilesToRedraw (world g) = all_cells L M (cell (tiles (world g)))
    ∧ length (tilesToRedraw (world g)) = L * M
    ∧ draws (world g) = d + L * M.
Proof.
  intros Hrolls.
  pose proof (initialize_spec L M rolls (State [] [] d [])) as Hinit.
  apply wp_run in Hinit as ([] & s1 & Hinit & Ht1 & Hd1 & _). simpl in Ht1, Hd1.
  assert (shape L M (tiles s1)) as Hg1 by (rewrite Ht1; apply rolled_grid_shape).
  pose proof (allTiles_spec s1 Hg1) as Hall.
  apply wp_run in Hall as (l & s2 & Hall & -> & Hl2 & Ht2 & Hd2).
  pose proof (drawScreen_spec L M (all_cells L M (cell (tiles s1))) s2) as Hdraw.
  rewrite Ht2 in Hdraw. specialize (Hdraw Hg1 (all_cells_bounds _)).
  apply wp_run in Hdraw as ([] & s3 & Hdraw & Ht3 & Hl3 & Hd3).
  rewrite redrawn_same in Ht3 by done.
  exists (Game (Pen false "s") s3). split.
  { unfold newSand, bind. by rewrite Hinit, Hall, Hdraw. }
  simpl. rewrite Ht3, Hl3, Hl2. split_and!; try done.
  - split_and!; simpl; rewrite ?Ht3; [done| |].
    + rewrite Ht1. by apply rolled_grid_public.
    + apply elem_of_dom. by eexists.
  - intros x y Hx Hy. rewrite Ht1. by apply rolled_grid_cell.
  - apply length_all_cells.
  - lia.
Qed.

(** X3. On Escape (key code 27) [clearScreen] returns with every cell
    holding Air and with a list of one Air record for every cell, column by
    column; neither depends on what the grid held, so clearing twice gives
    the same grid and the same full list again; no random number is used.
    On any other key code nothing changes. *)
Theorem clearScreen_clears keyCode s :
  shape L M (tiles s) →
  (∃ s' s'',
     clearScreen L M 27 s = Some ((), s')
     ∧ tiles s' = replicate L (replicate M TILE_AIR)
     ∧ tilesToRedraw s' = all_cells L M (λ _ _, TILE_AIR)
     ∧ length (tilesToRedraw s') = L * M
     ∧ draws s' = draws s
     ∧ clearScreen L M 27 s' = Some ((), s'')
     ∧ tiles s'' = tiles s'
     ∧ tilesToRedraw s'' = tilesToRedraw s')
  ∧ (keyCode ≠ 27%Z → clearScreen L M keyCode s = Some ((), s)).
Proof.
  intros Hg. split.
  - pose proof (clearScreen_spec s Hg) as Hrun.
    apply wp_run in Hrun as ([] & s' & Hrun & Ht & Hl & Hd).
    assert (shape L M (tiles s')) as Hg' by (rewrite Ht; apply air_grid_shape).
    pose proof (clearScreen_spec s' Hg') as Hrun'.
    apply wp_run in Hrun' as ([] & s'' & Hrun' & Ht' & Hl' & Hd').
    exists s', s''. split_and!; try done; try congruence.
    rewrite Hl. apply length_all_cells.
  - intros Hkey. unfold clearScreen.
    by rewrite (proj2 (Z.eqb_neq keyCode 27) Hkey).
Qed.

End Screen.

(** ** Painting *)

Section Painting.

Variables L M : nat.
Variable screen : canvas.
Variable flips : nat → bool.

Lemma pixel_cell (a : Z) (x : nat) :
  (tileSize * Z.of_nat x ≤ a < tileSize * Z.of_nat x + tileSize)%Z →
  (a `div` tileSize)%Z = Z.of_nat x.
Proof.
  intros Ha. symmetry. apply (Z.div_unique a tileSize (Z.of_nat x) (a - tileSize * Z.of_nat x)); lia.
Qed.

Lemma public_put g x y v :
  Forall (Forall public) g → public v → Forall (Forall public) (put g x y v).
Proof.
  intros Hg Hv. unfold put. apply Forall_alter; [done|].
  intros col _ Hcol. by apply Forall_insert.
Qed.

Lemma selected_public k : k ∈ dom TILE_COLORS → public (Str k).
Proof. intros Hk. simpl. by apply elem_of_dom. Qed.

(** The one write of a paint stroke. *)
Lemma drawScreen_one x y v s :
  shape L M (tiles s) → x < L → y < M →
  ∃ s', drawScreen [Redraw x y v] s = Some ((), s')
        ∧ tiles s' = put (tiles s) x y v
        ∧ tilesToRedraw s' = tilesToRedraw s ∧ draws s' = draws s.
Proof.
  intros Hg Hx Hy.
  pose proof (drawScreen_spec L M [Redraw x y v] s Hg) as Hrun.
  apply wp_run in Hrun as ([] & s' & Hrun & Ht & Hl & Hd).
  - by exists s'.
  - intros r ->%list_elem_of_singleton. done.
Qed.

(** X4. While the game is drawing, a pointer inside the square of
    [tileSize] pixels of the cell [(x, y)] of the canvas gives that cell the
    selected tile type; every other cell, the selection and the drawing flag
    are as they were, and the grid keeps its dimensions. *)
Theorem processDrawing_paints event g x y :
  shape L M (tiles (world g)) → isDrawing (brush g) = true →
  x < L → y < M →
  (tileSize * Z.of_nat x ≤ pageX event - offsetLeft screen
   < tileSize * Z.of_nat x + tileSize)%Z →
  (tileSize * Z.of_nat y ≤ pageY event - offsetTop screen
   < tileSize * Z.of_nat y + tileSize)%Z →
  ∃ g',
    processDrawing L M screen event g = Some g'
    ∧ brush g' = brush g
    ∧ shape L M (tiles (world g'))
    ∧ ∀ i j, cell (tiles (world g')) i j
             = if decide ((i, j) = (x, y)) then Str (currentTileType (brush g))
               else cell (tiles (world g)) i j.
Proof.
  intros Hg Hdrawing Hx Hy Hpx Hpy.
  destruct (drawScreen_one x y (Str (currentTileType (brush g))) (world g) Hg Hx Hy)
    as (s' & Hrun & Ht & _).
  exists (Game (brush g) s'). split.
  - unfold processDrawing. rewrite Hdrawing. simpl.
    rewrite (pixel_cell _ x Hpx), (pixel_cell _ y Hpy), !Nat2Z.id.
    replace ((0 <=? Z.of_nat x)%Z && (Z.of_nat x <? Z.of_nat L)%Z
             && (0 <=? Z.of_nat y)%Z && (Z.of_nat y <? Z.of_nat M)%Z) with true.
    + simpl in Hrun. by rewrite Hrun.
    + symmetry. rewrite !andb_true_iff, !Z.leb_le, !Z.ltb_lt. lia.
  - simpl. rewrite Ht. split; [done|]. split; [by apply shape_put|].
    intros i j. by apply (cell_put L M).
Qed.

(** X5. [processDrawing] changes nothing at all when the game is not
    drawing, and when the pointer is left of or above the canvas, or at or
    beyond [tileSize * L] pixels to the right or [tileSize * M] pixels down:
    one pixel past the last column paints nothing. *)
Theorem processDrawing_ignores event g :
  isDrawing (brush g) = false
  ∨ (pageX event - offsetLeft screen < 0)%Z
  ∨ (tileSize * Z.of_nat L ≤ pageX event - offsetLeft screen)%Z
  ∨ (pageY event - offsetTop screen < 0)%Z
  ∨ (tileSize * Z.of_nat M ≤ pageY event - offsetTop screen)%Z →
  processDrawing L M screen event g = Some g.
Proof.
  intros Hout. unfold processDrawing.
  destruct (isDrawing (brush g)); simpl; [|done].
  destruct Hout as [?|Hout]; [done|].
  set (a := (pageX event - offsetLeft screen)%Z) in *.
  set (b := (pageY event - offsetTop screen)%Z) in *.
  replace ((0 <=? a `div` tileSize)%Z && (a `div` tileSize <? Z.of_nat L)%Z
           && (0 <=? b `div` tileSize)%Z && (b `div` tileSize <? Z.of_nat M)%Z)
    with false; [done|].
  symmetry. apply not_true_is_false.
  rewrite !andb_true_iff, !Z.leb_le, !Z.ltb_lt. intros (((Ha0 & HaL) & Hb0) & HbM).
  assert (0 < tileSize)%Z as Hsize by done.
  destruct Hout as [Ha|[Ha|[Hb|Hb]]].
  - pose proof (Z.div_lt_upper_bound a tileSize 0 Hsize). lia.
  - pose proof (Z.div_le_lower_bound a tileSize (Z.of_nat L) Hsize Ha). lia.
  - pose proof (Z.div_lt_upper_bound b tileSize 0 Hsize). lia.
  - pose proof (Z.div_le_lower_bound b tileSize (Z.of_nat M) Hsize Hb). lia.
Qed.

End Painting.

(** ** The game as a whole *)

Section Play.

Variables L M : nat.
Variable screen : canvas.
Variable flips : nat → bool.

(** One frame keeps the dimensions and the tile values, and leaves alone
    every cell whose value is none of air, land and water. *)
Lemma frame_keeps s :
  shape L M (tiles s) →
  ∃ s', render L M flips s = Some ((), s')
        ∧ shape L M (tiles s')
        ∧ flatten (tiles s') ≡ₚ flatten (tiles s)
        ∧ (∀ x y, ¬ mobile (cell (tiles s) x y) →
                  cell (tiles s') x y = cell (tiles s) x y).
Proof.
  intros Hg.
  destruct (frame_spec L M flips s Hg) as (l & s1 & s2 & _ & _ & Hframe & _ & Hinv & Ht).
  pose proof (inv_shape _ _ _ _ _ Hinv) as Hg1.
  pose proof (inv_bounds _ _ _ _ _ Hinv) as Hl.
  exists s2. rewrite Ht. split_and!; [done|by apply shape_redrawn| |].
  - apply (inv_flat _ _ _ _ _ Hinv).
  - intros x y Hstatic.
    assert ((x, y) ∉ coord <$> l) as Hnot.
    { intros (r & Heq & Hr)%list_elem_of_fmap. apply Hstatic.
      unfold coord in Heq. injection Heq as Hrx Hry. subst x y.
      by apply (inv_values _ _ _ _ _ Hinv). }
    rewrite (cell_redrawn L M) by done. rewrite last_at_None by done. simpl.
    by apply (inv_kept _ _ _ _ _ Hinv).
Qed.

Lemma public_flatten (g g' : list (list jsval)) :
  flatten g' ≡ₚ flatten g → Forall (Forall public) g → Forall (Forall public) g'.
Proof.
  intros Hperm Hg. apply Forall_concat. fold (flatten g').
  rewrite Hperm. by apply Forall_concat.
Qed.

Lemma selected_after key p :
  currentTileType (updateCurrentTileType key p)
  = (if decide (key ∈ dom TILE_COLORS ∨ key ∈ OBJECT_PROTOTYPE) then key
     else currentTileType p)
  ∧ isDrawing (updateCurrentTileType key p) = isDrawing p.
Proof.
  unfold updateCurrentTileType.
  destruct (truthy (TILE_COLORS_at key)) eqn:Htruthy; cbn [negb currentTileType isDrawing].
  - apply truthy_color in Htruthy. rewrite (decide_True _ _ Htruthy). split; reflexivity.
  - rewrite decide_False; [split; reflexivity|].
    intros Hkey. apply truthy_color in Hkey. rewrite Hkey in Htruthy. discriminate Htruthy.
Qed.

(** A stroke whose pointer falls in the cell [(x, y)]. *)
Lemma paint_at event g x y :
  shape L M (tiles (world g)) → isDrawing (brush g) = true →
  x < L → y < M →
  ((pageX event - offsetLeft screen) `div` tileSize)%Z = Z.of_nat x →
  ((pageY event - offsetTop screen) `div` tileSize)%Z = Z.of_nat y →
  ∃ s', processDrawing L M screen event g = Some (Game (brush g) s')
        ∧ tiles s' = put (tiles (world g)) x y (Str (currentTileType (brush g))).
Proof.
  intros Hg Hdrawing Hx Hy Hpx Hpy.
  destruct (drawScreen_one L M x y (Str (currentTileType (brush g))) (world g) Hg Hx Hy)
    as (s' & Hrun & Ht & _).
  exists s'. split; [|done].
  unfold processDrawing. rewrite Hdrawing. simpl. rewrite Hpx, Hpy, !Nat2Z.id.
  replace ((0 <=? Z.of_nat x)%Z && (Z.of_nat x <? Z.of_nat L)%Z
           && (0 <=? Z.of_nat y)%Z && (Z.of_nat y <? Z.of_nat M)%Z) with true.
  - simpl in Hrun. by rewrite Hrun.
  - symmetry. rewrite !andb_true_iff, !Z.leb_le, !Z.ltb_lt. lia.
Qed.

Lemma processDrawing_keeps event g :
  well_formed L M g →
  ∃ g', processDrawing L M screen event g = Some g'
        ∧ well_formed L M g' ∧ brush g' = brush g.
Proof.
  intros (Hg & Hpub & Hsel). unfold processDrawing.
  destruct (isDrawing (brush g)) eqn:Hdrawing; simpl; [|by exists g].
  set (a := ((pageX event - offsetLeft screen) `div` tileSize)%Z).
  set (b := ((pageY event - offsetTop screen) `div` tileSize)%Z).
  destruct ((0 <=? a)%Z && (a <? Z.of_nat L)%Z && (0 <=? b)%Z && (b <? Z.of_nat M)%Z)
    eqn:Hin; [|by exists g].
  rewrite !andb_true_iff, !Z.leb_le, !Z.ltb_lt in Hin.
  destruct (drawScreen_one L M (Z.to_nat a) (Z.to_nat b)
              (Str (currentTileType (brush g))) (world g) Hg) as (s' & Hrun & Ht & _);
    [lia..|].
  simpl in Hrun. rewrite Hrun. eexists. split; [done|]. split; [|done].
  split_and!; simpl; rewrite ?Ht; [by apply shape_put| |done].
  apply public_put; [done|]. by apply selected_public.
Qed.

Lemma processDrawing_runs event g :
  shape L M (tiles (world g)) →
  ∃ g', processDrawing L M screen event g = Some g'
        ∧ shape L M (tiles (world g')) ∧ brush g' = brush g.
Proof.
  intros Hg. unfold processDrawing.
  destruct (isDrawing (brush g)) eqn:Hdrawing; simpl; [|by exists g].
  set (a := ((pageX event - offsetLeft screen) `div` tileSize)%Z).
  set (b := ((pageY event - offsetTop screen) `div` tileSize)%Z).
  destruct ((0 <=? a)%Z && (a <? Z.of_nat L)%Z && (0 <=? b)%Z && (b <? Z.of_nat M)%Z)
    eqn:Hin; [|by exists g].
  rewrite !andb_true_iff, !Z.leb_le, !Z.ltb_lt in Hin.
  destruct (drawScreen_one L M (Z.to_nat a) (Z.to_nat b)
              (Str (currentTileType (brush g))) (world g) Hg) as (s' & Hrun & Ht & _);
    [lia..|].
  simpl in Hrun. rewrite Hrun. eexists. split; [done|]. split; [|done].
  simpl. rewrite Ht. by apply shape_put.
Qed.

(** No happening makes a handler throw, whatever the key, and the grid
    keeps its dimensions. *)
Lemma handle_runs h g :
  shape L M (tiles (world g)) →
  ∃ g', handle L M screen flips h g = Some g' ∧ shape L M (tiles (world g')).
Proof.
  intros Hg. destruct h as [event|event|event|key|keyCode|]; cbn [handle].
  - destruct (processDrawing_runs event
                (Game (Pen true (currentTileType (brush g))) (world g)))
      as (g' & Hrun & Hg' & _); [done|].
    by exists g'.
  - eexists. split; [reflexivity|]. exact Hg.
  - destruct (processDrawing_runs event g Hg) as (g' & Hrun & Hg' & _).
    by exists g'.
  - eexists. split; [reflexivity|]. exact Hg.
  - unfold on_world. destruct (decide (keyCode = 27%Z)) as [->|Hkey].
    + pose proof (clearScreen_spec L M (world g) Hg) as Hrun.
      apply wp_run in Hrun as ([] & s' & Hrun & Ht & _). rewrite Hrun.
      eexists. split; [reflexivity|]. cbn [world]. rewrite Ht. apply air_grid_shape.
    + unfold clearScreen. rewrite (proj2 (Z.eqb_neq keyCode 27) Hkey).
      cbn [negb]. unfold ret. eexists. split; [reflexivity|]. exact Hg.
  - unfold on_world.
    destruct (frame_keeps (world g) Hg) as (s' & Hrun & Hg' & _).
    rewrite Hrun. eexists. split; [reflexivity|]. exact Hg'.
Qed.

Lemma handle_keeps h g :
  well_formed L M g → plain h →
  ∃ g', handle L M screen flips h g = Some g' ∧ well_formed L M g'.
Proof.
  intros Hwf Hplain. pose proof Hwf as (Hg & Hpub & Hsel).
  destruct h as [event|event|event|key|keyCode|]; simpl.
  - destruct (processDrawing_keeps event
                (Game (Pen true (currentTileType (brush g))) (world g)))
      as (g' & Hrun & Hwf' & _); [done|].
    by exists g'.
  - eexists. split; [done|]. done.
  - destruct (processDrawing_keeps event g Hwf) as (g' & Hrun & Hwf' & _).
    by exists g'.
  - eexists. split; [reflexivity|]. split; [exact Hg|]. split; [exact Hpub|].
    cbn [brush]. rewrite (proj1 (selected_after key (brush g))).
    destruct (decide (key ∈ dom TILE_COLORS ∨ key ∈ OBJECT_PROTOTYPE))
      as [[Hkey|Hkey]|_]; [exact Hkey|by destruct Hplain|exact Hsel].
  - unfold on_world. destruct (decide (keyCode = 27%Z)) as [->|Hkey].
    + pose proof (clearScreen_spec L M (world g) Hg) as Hrun.
      apply wp_run in Hrun as ([] & s' & Hrun & Ht & _). rewrite Hrun.
      eexists. split; [done|]. split_and!; simpl; rewrite ?Ht; [| |done].
      * apply air_grid_shape.
      * apply Forall_replicate, Forall_replicate. by eexists.
    + unfold clearScreen. rewrite (proj2 (Z.eqb_neq keyCode 27) Hkey). simpl.
      by exists g; destruct g.
  - unfold on_world.
    destruct (frame_keeps (world g) Hg) as (s' & Hrun & Hg' & Hperm & _).
    rewrite Hrun. eexists. split; [done|]. split_and!; simpl; [done| |done].
    by eapply public_flatten.
Qed.

(** X6. From a grid of [L] columns of [M] cells, every sequence of mouse
    and key events and animation frames is handled without an error and
    leaves such a grid, whatever keys are pressed. If moreover the grid
    holds tile values, the selected type has a colour, and no key press
    carries a name that objects inherit (["constructor"], ["toString"] and
    the like), then the grid still holds tile values and the selected type
    still has a colour afterwards. *)
Theorem play_keeps hs g :
  shape L M (tiles (world g)) →
  ∃ g', play L M screen flips hs g = Some g'
        ∧ shape L M (tiles (world g'))
        ∧ (well_formed L M g → Forall plain hs → well_formed L M g').
Proof.
  revert g. induction hs as [|h hs IH]; intros g Hg; cbn [play].
  - exists g. split; [reflexivity|]. split; [exact Hg|]. by intros Hwf _.
  - destruct (handle_runs h g Hg) as (g1 & Hrun & Hg1). rewrite Hrun.
    destruct (IH g1 Hg1) as (g' & Hplay & Hg' & Hkeeps).
    exists g'. split; [exact Hplay|]. split; [exact Hg'|].
    intros Hwf [Hh Hhs]%Forall_cons. apply Hkeeps; [|exact Hhs].
    destruct (handle_keeps h g Hwf Hh) as (g1' & Hrun' & Hwf1).
    rewrite Hrun in Hrun'. by injection Hrun' as <-.
Qed.

End Play.

(** ** Strokes and frames in sequence *)

Section Sessions.

Variables L M : nat.
Variable screen : canvas.
Variable flips : nat → bool.

(** One call of [processDrawing] while drawing, wherever the pointer is. *)
Lemma stroke event g :
  shape L M (tiles (world g)) → isDrawing (brush g) = true →
  ∃ g', processDrawing L M screen event g = Some g'
        ∧ brush g' = brush g
        ∧ shape L M (tiles (world g'))
        ∧ ∀ i j, i < L → j < M →
            cell (tiles (world g')) i j
            = if decide (pointed screen event = (Z.of_nat i, Z.of_nat j))
              then Str (currentTileType (brush g))
              else cell (tiles (world g)) i j.
Proof.
  intros Hg Hdrawing. unfold processDrawing, pointed. rewrite Hdrawing. simpl.
  set (a := ((pageX event - offsetLeft screen) `div` tileSize)%Z).
  set (b := ((pageY event - offsetTop screen) `div` tileSize)%Z).
  destruct ((0 <=? a)%Z && (a <? Z.of_nat L)%Z && (0 <=? b)%Z && (b <? Z.of_nat M)%Z)
    eqn:Hin.
  - rewrite !andb_true_iff, !Z.leb_le, !Z.ltb_lt in Hin.
    destruct (drawScreen_one L M (Z.to_nat a) (Z.to_nat b)
                (Str (currentTileType (brush g))) (world g) Hg) as (s' & Hrun & Ht & _);
      [lia..|].
    simpl in Hrun. rewrite Hrun. eexists. split; [done|]. simpl. rewrite Ht.
    split; [done|]. split; [by apply shape_put|].
    intros i j Hi Hj. rewrite (cell_put L M) by (done || lia).
    destruct (decide ((i, j) = (Z.to_nat a, Z.to_nat b))) as [[= -> ->]|Hne].
    + rewrite decide_True; [done|]. f_equal; lia.
    + rewrite decide_False; [done|]. intros [= -> ->]. apply Hne. by rewrite !Nat2Z.id.
  - exists g. split; [done|]. split; [done|]. split; [done|].
    intros i j Hi Hj. rewrite decide_False; [done|].
    intros [= Ha Hb]. apply not_true_iff_false in Hin. apply Hin.
    rewrite !andb_true_iff, !Z.leb_le, !Z.ltb_lt. lia.
Qed.

Lemma moves_paint events g :
  shape L M (tiles (world g)) → isDrawing (brush g) = true →
  ∃ g', play L M screen flips (MouseMove <$> events) g = Some g'
        ∧ brush g' = brush g
        ∧ shape L M (tiles (world g'))
        ∧ ∀ i j, i < L → j < M →
            cell (tiles (world g')) i j
            = if decide (Exists (λ e, pointed screen e = (Z.of_nat i, Z.of_nat j)) events)
              then Str (currentTileType (brush g))
              else cell (tiles (world g)) i j.
Proof.
  revert g. induction events as [|e events IH]; intros g Hg Hdrawing; simpl.
  - exists g. split; [reflexivity|]. split; [reflexivity|]. split; [exact Hg|].
    intros i j _ _. reflexivity.
  - destruct (stroke e g Hg Hdrawing) as (g1 & Hrun & Hb1 & Hg1 & Hcells1).
    rewrite Hrun.
    destruct (IH g1 Hg1) as (g' & Hrun' & Hb' & Hg' & Hcells'); [by rewrite Hb1|].
    exists g'. split_and!; [done|congruence|done|].
    intros i j Hi Hj. rewrite Hcells', Hcells1, Hb1 by done.
    repeat case_decide; try done.
    + exfalso. match goal with H : ¬ Exists _ (_ :: _) |- _ => apply H end.
      by apply Exists_cons_tl.
    + exfalso. match goal with H : ¬ Exists _ (_ :: _) |- _ => apply H end.
      by apply Exists_cons_hd.
    + exfalso.
      match goal with H : Exists _ (_ :: _) |- _ => apply Exists_cons in H as [?|?] end;
        done.
Qed.

Lemma moves_ignored events g :
  isDrawing (brush g) = false →
  play L M screen flips (MouseMove <$> events) g = Some g.
Proof.
  intros Hup. induction events as [|e events IH]; simpl; [done|].
  unfold processDrawing. by rewrite Hup.
Qed.

Lemma play_app hs hs' g :
  play L M screen flips (hs ++ hs') g
  = match play L M screen flips hs g with
    | Some g' => play L M screen flips hs' g'
    | None => None
    end.
Proof.
  revert g. induction hs as [|h hs IH]; intros g; [reflexivity|].
  rewrite <- app_comm_cons. cbn [play].
  destruct (handle L M screen flips h g) as [g'|]; [apply IH|reflexivity].
Qed.

(** X7. A drag, that is a mouse down, any number of mouse moves and a
    mouse up, is handled without an error; afterwards a cell of the grid
    holds the selected tile type if the pointer of the mouse down or of one
    of the moves fell on it, and its former value otherwise; the selection
    is unchanged and the game no longer draws, so that mouse moves that
    follow change nothing. *)
Theorem drag_paints down moves up later g :
  shape L M (tiles (world g)) →
  ∃ g',
    play L M screen flips
         (MouseDown down :: (MouseMove <$> moves) ++ [MouseUp up]) g = Some g'
    ∧ brush g' = Pen false (currentTileType (brush g))
    ∧ shape L M (tiles (world g'))
    ∧ (∀ i j, i < L → j < M →
         cell (tiles (world g')) i j
         = if decide (Exists (λ e, pointed screen e = (Z.of_nat i, Z.of_nat j))
                             (down :: moves))
           then Str (currentTileType (brush g))
           else cell (tiles (world g)) i j)
    ∧ play L M screen flips (MouseMove <$> later) g' = Some g'.
Proof.
  intros Hg.
  destruct (moves_paint (down :: moves)
              (Game (Pen true (currentTileType (brush g))) (world g)) Hg eq_refl)
    as (g1 & Hrun & Hb1 & Hg1 & Hcells1).
  exists (stopDrawing up g1). split; [|split; [|split; [|split]]].
  - rewrite fmap_cons in Hrun.
    change (play L M screen flips (MouseDown down :: (MouseMove <$> moves) ++ [MouseUp up]) g)
      with (match startDrawing L M screen down g with
            | Some g0 => play L M screen flips ((MouseMove <$> moves) ++ [MouseUp up]) g0
            | None => None
            end).
    change (play L M screen flips (MouseMove down :: (MouseMove <$> moves)) _)
      with (match startDrawing L M screen down g with
            | Some g0 => play L M screen flips (MouseMove <$> moves) g0
            | None => None
            end) in Hrun.
    destruct (startDrawing L M screen down g) as [g0|]; [|discriminate Hrun].
    rewrite play_app, Hrun. reflexivity.
  - unfold stopDrawing. rewrite Hb1. reflexivity.
  - exact Hg1.
  - exact Hcells1.
  - apply moves_ignored. reflexivity.
Qed.

(** X8. A key press followed by a mouse down inside the cell [(x, y)]
    paints that cell with the key when [TILE_COLORS[key]] is truthy, that is
    when the key is one of the sixteen keys of [TILE_COLORS] or names a
    property that objects inherit (["constructor"], ["toString"] and the
    like), and with the type selected before otherwise; no other cell
    changes. *)
Theorem select_then_paint key event g x y :
  shape L M (tiles (world g)) → x < L → y < M →
  (tileSize * Z.of_nat x ≤ pageX event - offsetLeft screen
   < tileSize * Z.of_nat x + tileSize)%Z →
  (tileSize * Z.of_nat y ≤ pageY event - offsetTop screen
   < tileSize * Z.of_nat y + tileSize)%Z →
  ∃ g',
    play L M screen flips [KeyPress key; MouseDown event] g = Some g'
    ∧ isDrawing (brush g') = true
    ∧ currentTileType (brush g')
      = (if decide (key ∈ dom TILE_COLORS ∨ key ∈ OBJECT_PROTOTYPE) then key
         else currentTileType (brush g))
    ∧ cell (tiles (world g')) x y = Str (currentTileType (brush g'))
    ∧ ∀ i j, (i, j) ≠ (x, y) →
        cell (tiles (world g')) i j = cell (tiles (world g)) i j.
Proof.
  intros Hg Hx Hy Hpx Hpy.
  set (selected := currentTileType (updateCurrentTileType key (brush g))).
  destruct (paint_at L M screen event (Game (Pen true selected) (world g)) x y
              Hg eq_refl Hx Hy (pixel_cell _ x Hpx) (pixel_cell _ y Hpy))
    as (s' & Hrun & Ht).
  cbn [brush world currentTileType] in Hrun, Ht.
  exists (Game (Pen true selected) s'). split.
  { cbn [play handle]. unfold startDrawing. cbn [brush world]. fold selected.
    rewrite Hrun. reflexivity. }
  cbn [brush world isDrawing currentTileType]. rewrite Ht.
  split; [reflexivity|]. split; [exact (proj1 (selected_after key (brush g)))|].
  split.
  - rewrite (cell_put L M) by assumption. rewrite decide_True; reflexivity.
  - intros i j Hne. apply (cell_put_ne L M); assumption.
Qed.

(** X9. However many frames the game loop runs, from a grid of [L] columns
    of [M] cells, no frame fails, the grid keeps its dimensions, the tile
    values it holds are a permutation of those it started with, and every
    cell that holds something other than air, land or water still holds
    it. *)
Theorem frames_conserve n s :
  shape L M (tiles s) →
  ∃ s',
    frames L M flips n s = Some ((), s')
    ∧ shape L M (tiles s')
    ∧ flatten (tiles s') ≡ₚ flatten (tiles s)
    ∧ (∀ x y, ¬ mobile (cell (tiles s) x y) →
              cell (tiles s') x y = cell (tiles s) x y).
Proof.
  revert s. induction n as [|n IH]; intros s Hg; simpl.
  - by exists s.
  - destruct (frame_keeps L M flips s Hg) as (s1 & Hrun & Hg1 & Hperm1 & Hstatic1).
    destruct (IH s1 Hg1) as (s' & Hrun' & Hg' & Hperm' & Hstatic').
    exists s'. split_and!; [|done| |].
    + unfold bind. by rewrite Hrun.
    + by rewrite Hperm'.
    + intros x y Hstatic. rewrite Hstatic', Hstatic1; [done..|].
      by rewrite Hstatic1.
Qed.

End Sessions.

(** ** Where tiles go in a frame *)

Section Motion.

Variables L M : nat.
Variable flips : nat → bool.

(** The records a visit adds, by case. *)
Lemma visit_cases s x y :
  ∃ l', tilesToRedraw (visit_outcome M flips x y s) = tilesToRedraw s ++ l'
        ∧ (l' = []
           ∨ (y < M - 1
              ∧ ((cell (tiles s) x y = TILE_LAND
                  ∧ (cell (tiles s) x (y + 1) = TILE_AIR
                     ∨ cell (tiles s) x (y + 1) = TILE_WATER))
                 ∨ (cell (tiles s) x y = TILE_WATER ∧ cell (tiles s) x (y + 1) = TILE_AIR))
              ∧ l' = [Redraw x y (cell (tiles s) x (y + 1));
                      Redraw x (y + 1) (cell (tiles s) x y)])
           ∨ (y < M - 1 ∧ 0 < x
              ∧ ((cell (tiles s) x y = TILE_WATER ∧ cell (tiles s) (x - 1) y = TILE_AIR)
                 ∨ (cell (tiles s) x y = TILE_AIR ∧ cell (tiles s) (x - 1) y = TILE_WATER))
              ∧ l' = [Redraw x y (cell (tiles s) (x - 1) y);
                      Redraw (x - 1) y (cell (tiles s) x y)])).
Proof.
  unfold visit_outcome. cbn [tilesToRedraw]. eexists. split; [reflexivity|].
  destruct (decide (y < M - 1)) as [Hrow|Hrow];
    [rewrite (bool_decide_eq_true_2 _ Hrow)|rewrite (bool_decide_eq_false_2 _ Hrow)];
    cbn [andb negb]; [|by left].
  destruct (fall_rule _ _) eqn:Hfall; cbn [andb negb].
  { right. left. apply fall_rule_true in Hfall. done. }
  destruct (decide (0 < x)) as [Hcol|Hcol];
    [rewrite (bool_decide_eq_true_2 _ Hcol)|rewrite (bool_decide_eq_false_2 _ Hcol)];
    cbn [andb negb]; [|by left].
  destruct (flow_rule _ _ _ _ _) eqn:Hflow; [|by left].
  right. right. apply flow_rule_true in Hflow. split_and!; [done..| |done].
  destruct Hflow as [(_ & ? & ? & _)|(_ & ? & ? & _)]; [by left|by right].
Qed.

Lemma tiles_differ :
  TILE_AIR ≠ TILE_LAND ∧ TILE_AIR ≠ TILE_WATER ∧ TILE_LAND ≠ TILE_WATER.
Proof. done. Qed.

Lemma moves_inv_start g0 : moves_inv L M g0 [].
Proof.
  unfold moves_inv. split.
  - by apply Forall_nil.
  - intros r Hr. by apply elem_of_nil in Hr.
Qed.

Lemma moves_inv_more g0 l l' :
  moves_inv L M g0 l → Forall (displaced L M g0) l' →
  (∀ r, r ∈ l' → cell g0 (rx r) (ry r) = TILE_LAND →
        Redraw (rx r) (ry r + 1) TILE_LAND ∈ l') →
  moves_inv L M g0 (l ++ l').
Proof.
  intros [Hall Hland] Hall' Hland'. unfold moves_inv. split.
  - by apply Forall_app.
  - intros r [Hr|Hr]%elem_of_app Hcell; apply elem_of_app; [left|right]; auto.
Qed.

(** A visit keeps the two invariants of the records. *)
Lemma visit_moves g0 s x y :
  x < L → y < M →
  scan_inv L M g0 (tiles s) (tilesToRedraw s) →
  moves_inv L M g0 (tilesToRedraw s) →
  scan_inv L M g0 (tiles (visit_outcome M flips x y s))
                  (tilesToRedraw (visit_outcome M flips x y s))
  ∧ moves_inv L M g0 (tilesToRedraw (visit_outcome M flips x y s)).
Proof.
  intros Hx Hy Hinv Hmoves.
  pose proof (inv_shape _ _ _ _ _ Hinv) as Hg.
  split.
  { destruct (visit_exchange L M flips s x y Hg Hx Hy) as (l' & Hex & ->).
    by eapply scan_inv_exchange. }
  destruct (visit_cases s x y) as (l' & -> & Hcases).
  destruct tiles_differ as (Hal & Haw & Hlw).
  assert (∀ i j, mobile (cell (tiles s) i j) → cell (tiles s) i j = cell g0 i j) as Hkept.
  { intros i j Hm. apply (inv_kept _ _ _ _ _ Hinv). by eapply fresh_cell. }
  destruct Hcases as [->|[(Hrow & Hrule & ->)|(Hrow & Hcol & Hrule & ->)]].
  - by rewrite app_nil_r.
  - assert (mobile (cell (tiles s) x y) ∧ mobile (cell (tiles s) x (y + 1))) as [Hm Hm'].
    { unfold mobile. intuition. }
    pose proof (Hkept _ _ Hm) as Ht. pose proof (Hkept _ _ Hm') as Hb.
    rewrite Ht, Hb in *.
    apply moves_inv_more; [done| |].
    + apply Forall_cons. split; [|apply Forall_cons; split; [|by apply Forall_nil]].
      * split; cbn [rx ry rvalue]; [intuition congruence|].
        right. left. split; [lia|]. split; [done|]. intuition.
      * split; cbn [rx ry rvalue]; [intuition congruence|].
        left. split; [lia|]. replace (y + 1 - 1) with y by lia. split; [done|]. intuition.
    + intros r [->|Hr]%elem_of_cons; cbn [rx ry].
      * intros Hland. rewrite Hland. right. by left.
      * apply list_elem_of_singleton in Hr as ->. cbn [rx ry].
        intros Hland. exfalso. intuition congruence.
  - assert (mobile (cell (tiles s) x y) ∧ mobile (cell (tiles s) (x - 1) y)) as [Hm Hm'].
    { unfold mobile. intuition. }
    pose proof (Hkept _ _ Hm) as Ht. pose proof (Hkept _ _ Hm') as Hb.
    rewrite Ht, Hb in *.
    apply moves_inv_more; [done| |].
    + apply Forall_cons. split; [|apply Forall_cons; split; [|by apply Forall_nil]].
      * split; cbn [rx ry rvalue]; [intuition congruence|].
        right. right. left. split; [done|]. split; [done|]. intuition.
      * split; cbn [rx ry rvalue]; [intuition congruence|].
        right. right. right. replace (x - 1 + 1) with x by lia.
        split; [done|]. split; [done|]. intuition.
    + intros r [->|Hr]%elem_of_cons; cbn [rx ry].
      * intros Hland. exfalso. intuition congruence.
      * apply list_elem_of_singleton in Hr as ->. cbn [rx ry].
        intros Hland. exfalso. intuition congruence.
Qed.

(** One frame, with everything known about its records. *)
Lemma frame_moves s :
  shape L M (tiles s) →
  ∃ l s1 s2,
    applyPhysics L M flips s = Some (l, s1)
    ∧ drawScreen l s1 = Some ((), s2)
    ∧ render L M flips s = Some ((), s2)
    ∧ scan_inv L M (tiles s) (tiles s1) l
    ∧ moves_inv L M (tiles s) l
    ∧ ∀ x y, cell (tiles s2) x y = default (cell (tiles s) x y) (last_at l x y).
Proof.
  intros Hg.
  pose proof (scan_run L M flips
    (λ s', scan_inv L M (tiles s) (tiles s') (tilesToRedraw s')
           ∧ moves_inv L M (tiles s) (tilesToRedraw s')) s Hg) as Hscan.
  apply wp_run in Hscan as (l & s1 & Hscan & -> & Hg1 & Hinv & Hmoves).
  - pose proof (drawScreen_spec L M (tilesToRedraw s1) s1 Hg1 (inv_bounds _ _ _ _ _ Hinv))
      as Hdraw.
    apply wp_run in Hdraw as ([] & s2 & Hdraw & Ht & _).
    exists (tilesToRedraw s1), s1, s2. split_and!; try done.
    + unfold render, bind. by rewrite Hscan.
    + intros x y. rewrite Ht, (cell_redrawn L M);
        [|done|apply (inv_bounds _ _ _ _ _ Hinv)].
      destruct (last_at (tilesToRedraw s1) x y) as [v|] eqn:Hlast; [done|]. simpl.
      destruct (decide ((x, y) ∈ coord <$> tilesToRedraw s1)) as [Hin|Hnot].
      * apply list_elem_of_fmap in Hin as (r & Heq & Hr).
        unfold coord in Heq. injection Heq as -> ->.
        rewrite (last_at_unique _ r) in Hlast; [done|apply (inv_once _ _ _ _ _ Hinv)|done].
      * by apply (inv_kept _ _ _ _ _ Hinv).
  - split; [by apply scan_inv_start|apply moves_inv_start].
  - intros x y s' Hx Hy _ [Hinv Hmoves]. by apply visit_moves.
Qed.

Lemma record_at (l : list redraw) x y :
  (x, y) ∈ coord <$> l → ∃ v, Redraw x y v ∈ l.
Proof.
  intros (r & Heq & Hr)%list_elem_of_fmap. destruct r as [i j v].
  unfold coord in Heq. cbn [rx ry] in Heq. injection Heq as -> ->. by exists v.
Qed.

Lemma last_at_record (l : list redraw) x y v :
  NoDup (coord <$> l) → Redraw x y v ∈ l → last_at l x y = Some v.
Proof. intros Honce Hr. exact (last_at_unique l (Redraw x y v) Honce Hr). Qed.

(** X10. The list a scan returns names exactly the cells that the frame
    changes: a cell is addressed by a record if and only if its value after
    the redraw differs from its value before the scan, and the record
    carries the new value. *)
Theorem records_are_changes s :
  shape L M (tiles s) →
  ∃ l s1 s2,
    applyPhysics L M flips s = Some (l, s1)
    ∧ drawScreen l s1 = Some ((), s2)
    ∧ (∀ x y, (x, y) ∈ coord <$> l ↔ cell (tiles s2) x y ≠ cell (tiles s) x y)
    ∧ (∀ r, r ∈ l → cell (tiles s2) (rx r) (ry r) = rvalue r).
Proof.
  intros Hg.
  destruct (frame_moves s Hg) as (l & s1 & s2 & Hscan & Hdraw & _ & Hinv & [Hall _] & Hcells).
  rewrite Forall_forall in Hall.
  assert (∀ r, r ∈ l → cell (tiles s2) (rx r) (ry r) = rvalue r) as Hnew.
  { intros r Hr. rewrite Hcells, (last_at_unique l r); [done| |done].
    apply (inv_once _ _ _ _ _ Hinv). }
  exists l, s1, s2. split_and!; try done.
  intros x y. split.
  - intros [v Hr]%record_at. pose proof (Hnew _ Hr) as Hv.
    destruct (Hall _ Hr) as [Hne _]. cbn [rx ry rvalue] in Hv, Hne. by rewrite Hv.
  - intros Hchanged. destruct (decide ((x, y) ∈ coord <$> l)) as [|Hnot]; [done|].
    exfalso. apply Hchanged. rewrite Hcells, last_at_None by done. done.
Qed.

(** X11. In one frame no tile moves further than to a neighbouring cell: a
    cell whose value changes receives the former value of the cell above it
    (land or water that fell), of the cell below it (air or water that
    rose), or of the cell on its left or right (water and air changing
    places), and that neighbour lies inside the grid. *)
Theorem tiles_move_one_cell s x y :
  shape L M (tiles s) →
  ∃ s2,
    render L M flips s = Some ((), s2)
    ∧ (cell (tiles s2) x y = cell (tiles s) x y
       ∨ displaced L M (tiles s) (Redraw x y (cell (tiles s2) x y))).
Proof.
  intros Hg.
  destruct (frame_moves s Hg) as (l & s1 & s2 & _ & _ & Hframe & Hinv & [Hall _] & Hcells).
  rewrite Forall_forall in Hall.
  exists s2. split; [done|].
  destruct (decide ((x, y) ∈ coord <$> l)) as [Hin|Hnot].
  - right. apply record_at in Hin as [v Hr].
    rewrite Hcells, (last_at_record l x y v (inv_once _ _ _ _ _ Hinv) Hr).
    by apply Hall.
  - left. by rewrite Hcells, last_at_None.
Qed.

(** X12. Land only ever falls, and by one cell per frame. A cell that
    holds land before a frame holds it afterwards too, unless the land is
    then in the cell directly below; and a cell that holds land after a
    frame held it before, or the cell directly above did. *)
Theorem land_falls s x y :
  shape L M (tiles s) →
  ∃ s2,
    render L M flips s = Some ((), s2)
    ∧ (cell (tiles s) x y = TILE_LAND →
       cell (tiles s2) x y = TILE_LAND
       ∨ (y + 1 < M ∧ cell (tiles s2) x (y + 1) = TILE_LAND))
    ∧ (cell (tiles s2) x y = TILE_LAND →
       cell (tiles s) x y = TILE_LAND
       ∨ (0 < y ∧ cell (tiles s) x (y - 1) = TILE_LAND)).
Proof.
  intros Hg.
  destruct (frame_moves s Hg)
    as (l & s1 & s2 & _ & _ & Hframe & Hinv & [Hall Hland] & Hcells).
  rewrite Forall_forall in Hall.
  pose proof (inv_once _ _ _ _ _ Hinv) as Honce.
  destruct tiles_differ as (Hal & Haw & Hlw).
  exists s2. split; [done|].
  destruct (decide ((x, y) ∈ coord <$> l)) as [Hin|Hnot].
  - apply record_at in Hin as [v Hr]. split.
    + intros Hbefore. right.
      pose proof (Hland _ Hr Hbefore) as Hbelow. cbn [rx ry] in Hbelow.
      destruct (inv_bounds _ _ _ _ _ Hinv _ Hbelow) as [_ Hy]. cbn [ry] in Hy.
      split; [done|]. by rewrite Hcells, (last_at_record l _ _ _ Honce Hbelow).
    + rewrite Hcells, (last_at_record l x y v Honce Hr). simpl.
      intros ->. destruct (Hall _ Hr) as [_ Hfrom]. cbn [rx ry rvalue] in Hfrom.
      right. destruct Hfrom as [(? & ? & _)|[(_ & _ & [?|?])|[(_ & _ & [?|?])|(_ & _ & [?|?])]]];
        [done|congruence..].
  - rewrite Hcells, last_at_None by done. simpl. split; intros ?; by left.
Qed.

End Motion.

(** ** Random numbers used, and grids at rest *)

Section Rest.

Variables L M : nat.
Variable flips : nat → bool.

Lemma seq_prefix n (p : list nat) i q : seq 0 n = p ++ i :: q → i = length p ∧ i < n.
Proof.
  intros Hsplit.
  assert (seq 0 n !! length p = Some i) as Hi.
  { rewrite Hsplit. by apply list_lookup_middle. }
  apply lookup_seq in Hi. lia.
Qed.

Lemma column_draws x s :
  shape L M (tiles s) → x < L →
  wp (scan_column M flips x) s
     (λ _ s', shape L M (tiles s')
              ∧ draws s' = draws s + (if decide (0 < x) then M - 1 else 0)).
Proof.
  intros Hg Hx. unfold scan_column. eapply wp_mono.
  - apply (wp_for_each_prefix
             (λ p s', shape L M (tiles s')
                      ∧ draws s' = draws s
                                   + (if decide (0 < x) then length p `min` (M - 1) else 0))).
    { split; [done|]. case_decide; simpl; lia. }
    intros p y q s1 [-> Hy]%seq_prefix [Hg1 Hd1].
    unfold wp. rewrite (visit_spec L M) by done.
    split; [by apply visit_shape|].
    rewrite length_app. unfold visit_outcome. cbn [draws length].
    destruct (decide (length p < M - 1)) as [Hrow|Hrow];
      [rewrite (bool_decide_eq_true_2 _ Hrow)|rewrite (bool_decide_eq_false_2 _ Hrow)];
      destruct (decide (0 < x)) as [Hcol|Hcol];
      rewrite ?(bool_decide_eq_true_2 _ Hcol), ?(bool_decide_eq_false_2 _ Hcol);
      cbn [andb]; lia.
  - intros [] s' [Hg' Hd']. split; [done|]. rewrite length_seq in Hd'.
    case_decide; lia.
Qed.

Lemma scan_draws s :
  shape L M (tiles s) →
  wp (applyPhysics L M flips) s
     (λ _ s', shape L M (tiles s') ∧ draws s' = draws s + (L - 1) * (M - 1)).
Proof.
  intros Hg. unfold applyPhysics. apply wp_bind. unfold wp at 1, clearList.
  apply wp_bind. eapply wp_mono.
  - apply (wp_for_each_prefix
             (λ p s', shape L M (tiles s')
                      ∧ draws s' = draws s + (length p - 1) * (M - 1))).
    { split; [done|]. simpl. lia. }
    intros p x q s1 [-> Hx]%seq_prefix [Hg1 Hd1].
    eapply wp_mono; [by apply column_draws|].
    intros [] s2 [Hg2 Hd2]. split; [done|].
    rewrite length_app. cbn [length]. rewrite Hd2, Hd1.
    case_decide; [|replace (length p) with 0 by lia; simpl; lia].
    replace (length p + 1 - 1) with (S (length p - 1)) by lia. simpl. lia.
  - intros [] s' [Hg' Hd']. unfold wp, returnList. by rewrite length_seq in Hd'.
Qed.

Lemma render_draws s :
  shape L M (tiles s) →
  ∃ s', render L M flips s = Some ((), s')
        ∧ shape L M (tiles s') ∧ draws s' = draws s + (L - 1) * (M - 1).
Proof.
  intros Hg.
  destruct (frame_spec L M flips s Hg) as (l & s1 & s2 & Hscan & Hdraw & Hframe & _ & Hinv & Ht).
  pose proof (scan_draws s Hg) as Hd. unfold wp in Hd. rewrite Hscan in Hd.
  destruct Hd as [Hg1 Hd1].
  pose proof (drawScreen_spec L M l s1 Hg1 (inv_bounds _ _ _ _ _ Hinv)) as Hspec.
  unfold wp in Hspec. rewrite Hdraw in Hspec. destruct Hspec as (_ & _ & Hd2).
  exists s2. split_and!; [done| |lia].
  rewrite Ht. by apply shape_redrawn.
Qed.

(** X13. Whatever the grid holds, a scan draws exactly
    [(L - 1) * (M - 1)] random bits, one for each cell that is neither in
    the first column nor in the bottom row, and the redraw draws none: after
    [n] frames the game has used [n * ((L - 1) * (M - 1))] of them. *)
Theorem scan_uses_flips n s :
  shape L M (tiles s) →
  (∃ l s1, applyPhysics L M flips s = Some (l, s1)
           ∧ draws s1 = draws s + (L - 1) * (M - 1))
  ∧ (∃ s', frames L M flips n s = Some ((), s')
           ∧ draws s' = draws s + n * ((L - 1) * (M - 1))).
Proof.
  intros Hg. split.
  - pose proof (scan_draws s Hg) as Hd.
    apply wp_run in Hd as (l & s1 & Hscan & _ & Hd). by exists l, s1.
  - revert s Hg. induction n as [|n IH]; intros s Hg; cbn [frames].
    + exists s. split; [done|]. lia.
    + destruct (render_draws s Hg) as (s1 & Hrun & Hg1 & Hd1).
      destruct (IH s1 Hg1) as (s' & Hrun' & Hd').
      exists s'. split; [unfold bind; by rewrite Hrun|]. lia.
Qed.

Lemma settled_visit s x y :
  settled L M (tiles s) → x < L →
  tiles (visit_outcome M flips x y s) = tiles s
  ∧ tilesToRedraw (visit_outcome M flips x y s) = tilesToRedraw s.
Proof.
  intros Hsettled Hx. unfold visit_outcome. cbn [tiles tilesToRedraw].
  destruct (decide (y < M - 1)) as [Hrow|Hrow];
    [rewrite (bool_decide_eq_true_2 _ Hrow)|rewrite (bool_decide_eq_false_2 _ Hrow)];
    cbn [andb negb]; [|by rewrite app_nil_r].
  destruct (Hsettled x y Hx Hrow) as (Hland & Hwater & Hside).
  destruct (fall_rule _ _) eqn:Hfall; cbn [andb negb].
  { exfalso. apply fall_rule_true in Hfall. tauto. }
  destruct (decide (0 < x)) as [Hcol|Hcol];
    [rewrite (bool_decide_eq_true_2 _ Hcol)|rewrite (bool_decide_eq_false_2 _ Hcol)];
    cbn [andb negb]; [|by rewrite app_nil_r].
  destruct (flow_rule _ _ _ _ _) eqn:Hflow; [|by rewrite app_nil_r].
  exfalso. apply flow_rule_true in Hflow. destruct (Hside Hcol). tauto.
Qed.

Lemma settled_frame s :
  shape L M (tiles s) → settled L M (tiles s) →
  ∃ s1, applyPhysics L M flips s = Some ([], s1)
        ∧ render L M flips s = Some ((), s1)
        ∧ tiles s1 = tiles s.
Proof.
  intros Hg Hsettled.
  pose proof (scan_run L M flips
                (λ s', tiles s' = tiles s ∧ tilesToRedraw s' = []) s Hg) as Hscan.
  apply wp_run in Hscan as (l & s1 & Hscan & -> & _ & Ht & Hl).
  - exists s1. rewrite Hl in Hscan. split_and!; [done| |done].
    unfold render, bind. by rewrite Hscan.
  - done.
  - intros x y s' Hx Hy _ [Ht Hl].
    destruct (settled_visit s' x y) as [Ht' Hl']; [by rewrite Ht|done|].
    split; congruence.
Qed.

(** X14. A grid at rest stays at rest. If nowhere above the bottom row
    land lies on air or water, water lies on air, or water has air beside
    it, then whatever the coins the scan returns the empty list and leaves
    the grid untouched, and the grid is the same after any number of
    frames. *)
Theorem settled_still n s :
  shape L M (tiles s) → settled L M (tiles s) →
  (∃ s1, applyPhysics L M flips s = Some ([], s1) ∧ tiles s1 = tiles s)
  ∧ (∃ s', frames L M flips n s = Some ((), s') ∧ tiles s' = tiles s).
Proof.
  intros Hg Hsettled. split.
  - destruct (settled_frame s Hg Hsettled) as (s1 & Hscan & _ & Ht). by exists s1.
  - revert s Hg Hsettled. induction n as [|n IH]; intros s Hg Hsettled; cbn [frames].
    + by exists s.
    + destruct (settled_frame s Hg Hsettled) as (s1 & _ & Hrun & Ht).
      destruct (IH s1) as (s' & Hrun' & Ht'); [by rewrite Ht..|].
      exists s'. split; [unfold bind; by rewrite Hrun|]. congruence.
Qed.

End Rest.

(** ** The redraw on its own *)

Section Redraws.

Variables L M : nat.

(** X15. [drawScreen] does not check its records: it throws exactly when
    some record names a column the grid does not have, and when it returns
    the grid has as many columns as before. *)
Theorem drawScreen_fails_iff l s :
  (drawScreen l s = None ↔ ∃ r, r ∈ l ∧ (length (tiles s) ≤ rx r)%nat)
  ∧ (∀ s', drawScreen l s = Some ((), s') → length (tiles s') = length (tiles s)).
Proof.
  revert s. induction l as [|r l IH]; intros s.
  - split.
    + split; [done|]. intros (r & Hr & _). by apply elem_of_nil in Hr.
    + by intros s' [= <-].
  - cbn [drawScreen]. unfold bind, setTile.
    destruct (tiles s !! rx r) as [col|] eqn:Hcol.
    + set (s1 := log (Put (rx r) (ry r))
                     (set_tiles (<[rx r:=array_set col (ry r) (rvalue r)]> (tiles s)) s)).
      assert (length (tiles s1) = length (tiles s)) as Hlen.
      { unfold s1. cbn [tiles log set_tiles]. by rewrite length_insert. }
      destruct (IH s1) as [Hfail Hsame]. rewrite Hlen in Hfail. split.
      * rewrite Hfail. split.
        -- intros (r' & Hr' & Hout). exists r'. split; [by right|done].
        -- intros (r' & [->|Hr']%elem_of_cons & Hout); [|by exists r'].
           apply lookup_lt_Some in Hcol. lia.
      * intros s' Hrun. by rewrite (Hsame s' Hrun).
    + split; [|done]. split; [|done]. intros _. exists r. split; [by left|].
      by apply lookup_ge_None.
Qed.

(** X16. A record that names a column of the grid but a row past its end
    makes the column grow: the cell now holds the value, the cells between
    the old end and it read as [undefined], the other cells are as before,
    and the grid no longer has [M] cells in every column. *)
Theorem drawScreen_grows x y v s :
  shape L M (tiles s) → x < L → (M ≤ y)%nat →
  ∃ s',
    drawScreen [Redraw x y v] s = Some ((), s')
    ∧ cell (tiles s') x y = v
    ∧ (∀ j, (M ≤ j < y)%nat → cell (tiles s') x j = Undefined)
    ∧ (∀ i j, i ≠ x ∨ j < M → cell (tiles s') i j = cell (tiles s) i j)
    ∧ ¬ shape L M (tiles s').
Proof.
  intros Hg Hx Hy.
  destruct (shape_column L M _ x Hg Hx) as (col & Hcol & Hlen).
  assert (x < length (tiles s)) as Hxl by (by eapply lookup_lt_Some).
  cbn [drawScreen rx ry rvalue]. unfold bind, setTile. rewrite Hcol.
  eexists. split; [reflexivity|]. cbn [tiles log set_tiles].
  unfold array_set. rewrite decide_False by lia. rewrite Hlen.
  split_and!.
  - unfold cell. rewrite list_lookup_insert_eq by done.
    rewrite lookup_app_r by lia. rewrite lookup_app_r by (rewrite length_replicate; lia).
    rewrite Hlen, length_replicate. by replace (y - M - (y - M)) with 0 by lia.
  - intros j Hj. unfold cell. rewrite list_lookup_insert_eq by done.
    rewrite lookup_app_r by lia. rewrite lookup_app_l by (rewrite length_replicate; lia).
    rewrite lookup_replicate_2 by lia. done.
  - intros i j Hij. unfold cell.
    destruct (decide (i = x)) as [->|Hne].
    + rewrite list_lookup_insert_eq by done. rewrite Hcol.
      rewrite lookup_app_l by lia. done.
    + by rewrite list_lookup_insert_ne.
  - intros [_ Hcols]. rewrite Forall_lookup in Hcols.
    specialize (Hcols x _ (list_lookup_insert_eq _ _ _ Hxl)).
    rewrite !length_app, length_replicate in Hcols. simpl in Hcols. lia.
Qed.

(** X17. Drawing the same records, all inside the grid, a second time
    changes nothing. *)
Theorem redraw_again l s :
  shape L M (tiles s) → Forall (λ r, rx r < L ∧ ry r < M) l →
  ∃ s1 s2,
    drawScreen l s = Some ((), s1)
    ∧ drawScreen l s1 = Some ((), s2)
    ∧ tiles s2 = tiles s1.
Proof.
  intros Hg Hl. rewrite Forall_forall in Hl.
  pose proof (drawScreen_spec L M l s Hg Hl) as Hrun.
  apply wp_run in Hrun as ([] & s1 & Hrun & Ht & _).
  assert (shape L M (tiles s1)) as Hg1 by (rewrite Ht; by apply shape_redrawn).
  pose proof (drawScreen_spec L M l s1 Hg1 Hl) as Hrun'.
  apply wp_run in Hrun' as ([] & s2 & Hrun' & Ht' & _).
  exists s1, s2. split_and!; [done..|].
  rewrite Ht'. apply (grid_ext L M); [by apply shape_redrawn|done|].
  intros x y _ _. rewrite (cell_redrawn L M) by done.
  rewrite Ht, (cell_redrawn L M) by done.
  by destruct (last_at l x y).
Qed.

(** X18. Drawing two lists one after the other is drawing the one list
    they make together, whether or not an error is thrown on the way. *)
Theorem redraw_in_batches l1 l2 s :
  drawScreen (l1 ++ l2) s = (drawScreen l1 ;;; drawScreen l2)%eff s.
Proof.
  revert s. induction l1 as [|r l1 IH]; intros s; [done|].
  cbn [app drawScreen]. unfold bind.
  destruct (setTile (rx r) (ry r) (rvalue r) s) as [[[] s1]|]; [|done].
  by rewrite IH.
Qed.

End Redraws.

(** ** The further statements on concrete games *)

Section Sessions_on_scenarios.

Lemma allLand_rolls : ∀ n, allLand n < 4.
Proof. intros n. unfold allLand. lia. Defined.

Lemma painter_shape : shape 2 2 (tiles (world painter)).
Proof. split; [reflexivity|repeat constructor]. Defined.

Lemma initialize_fills_witness :
  tiles (State [] [] 0 []) = [] ∧ (∀ n, allLand n < 4)
  ∧ ∃ s', initialize 2 2 allLand (State [] [] 0 []) = Some ((), s')
          ∧ shape 2 2 (tiles s') ∧ draws s' = 0 + 2 * 2.
Proof.
  split; [reflexivity|]. split; [exact allLand_rolls|].
  destruct (initialize_fills 2 2 allLand (State [] [] 0 []) eq_refl allLand_rolls)
    as (s' & Hrun & Hshape & _ & _ & Hdraws).
  exists s'. split; [exact Hrun|]. split; [exact Hshape|exact Hdraws].
Defined.

Lemma newSand_ready_witness :
  (∀ n, allLand n < 4)
  ∧ ∃ g, newSand 2 2 allLand 0 = Some g ∧ well_formed 2 2 g
         ∧ length (tilesToRedraw (world g)) = 2 * 2.
Proof.
  split; [exact allLand_rolls|].
  destruct (newSand_ready 2 2 allLand 0 allLand_rolls)
    as (g & Hrun & Hwf & _ & _ & _ & Hlen & _).
  exists g. split; [exact Hrun|]. split; [exact Hwf|exact Hlen].
Defined.

Lemma clearScreen_clears_witness :
  shape 2 2 (tiles (start scenarioA))
  ∧ ∃ s', clearScreen 2 2 27 (start scenarioA) = Some ((), s')
          ∧ tiles s' = replicate 2 (replicate 2 TILE_AIR).
Proof.
  split; [exact scenarioA_shape|].
  destruct (clearScreen_clears 2 2 13 (start scenarioA) scenarioA_shape)
    as ((s' & s'' & Hrun & Htiles & _) & _).
  exists s'. split; [exact Hrun|exact Htiles].
Defined.

Lemma processDrawing_paints_witness :
  shape 2 2 (tiles (world painter)) ∧ isDrawing (brush painter) = true
  ∧ 1 < 2 ∧ 0 < 2
  ∧ (tileSize * Z.of_nat 1 ≤ pageX (Mouse 15 5) - offsetLeft corner
     < tileSize * Z.of_nat 1 + tileSize)%Z
  ∧ (tileSize * Z.of_nat 0 ≤ pageY (Mouse 15 5) - offsetTop corner
     < tileSize * Z.of_nat 0 + tileSize)%Z
  ∧ ∃ g', processDrawing 2 2 corner (Mouse 15 5) painter = Some g'
          ∧ cell (tiles (world g')) 1 0 = Str "w".
Proof.
  assert (tileSize * Z.of_nat 1 ≤ pageX (Mouse 15 5) - offsetLeft corner
          < tileSize * Z.of_nat 1 + tileSize)%Z as Hx by (unfold tileSize; simpl; lia).
  assert (tileSize * Z.of_nat 0 ≤ pageY (Mouse 15 5) - offsetTop corner
          < tileSize * Z.of_nat 0 + tileSize)%Z as Hy by (unfold tileSize; simpl; lia).
  split; [exact painter_shape|]. split; [reflexivity|]. split; [lia|]. split; [lia|].
  split; [exact Hx|]. split; [exact Hy|].
  destruct (processDrawing_paints 2 2 corner (Mouse 15 5) painter 1 0
              painter_shape eq_refl) as (g' & Hrun & _ & _ & Hcells); [lia|lia|exact Hx|exact Hy|].
  exists g'. split; [exact Hrun|exact (Hcells 1 0)].
Defined.

Lemma processDrawing_ignores_witness :
  (tileSize * Z.of_nat 2 ≤ pageX (Mouse 20 0) - offsetLeft corner)%Z
  ∧ processDrawing 2 2 corner (Mouse 20 0) painter = Some painter.
Proof.
  assert (tileSize * Z.of_nat 2 ≤ pageX (Mouse 20 0) - offsetLeft corner)%Z as Hout
    by (unfold tileSize; simpl; lia).
  split; [exact Hout|].
  apply (processDrawing_ignores 2 2 corner (Mouse 20 0) painter).
  right. right. left. exact Hout.
Defined.

Lemma painter_well_formed : well_formed 2 2 painter.
Proof.
  split; [exact painter_shape|]. split; [exact scenarioA_public|].
  apply elem_of_dom. by eexists.
Defined.

Lemma plain_key (key : string) :
  bool_decide (key ∈ OBJECT_PROTOTYPE) = false → plain (KeyPress key).
Proof. intros Hkey. by apply bool_decide_eq_false in Hkey. Defined.

Lemma play_keeps_witness :
  shape 2 2 (tiles (world painter))
  ∧ ∃ g', play 2 2 corner tails
               [KeyPress "constructor"; MouseDown (Mouse 15 5); AnimationFrame; KeyUp 27]
               painter
          = Some g'
          ∧ shape 2 2 (tiles (world g')).
Proof.
  split; [exact painter_shape|].
  destruct (play_keeps 2 2 corner tails
              [KeyPress "constructor"; MouseDown (Mouse 15 5); AnimationFrame; KeyUp 27]
              painter painter_shape) as (g' & Hrun & Hshape & _).
  exists g'. split; [exact Hrun|exact Hshape].
Defined.

Lemma drag_paints_witness :
  shape 2 2 (tiles (world idler))
  ∧ ∃ g', play 2 2 corner tails
               (MouseDown (Mouse 5 5) :: (MouseMove <$> [Mouse 15 5]) ++ [MouseUp (Mouse 15 5)])
               idler = Some g'
          ∧ brush g' = Pen false "s".
Proof.
  split; [exact scenarioA_shape|].
  destruct (drag_paints 2 2 corner tails (Mouse 5 5) [Mouse 15 5] (Mouse 15 5) [] idler
              scenarioA_shape) as (g' & Hrun & Hbrush & _).
  exists g'. split; [exact Hrun|exact Hbrush].
Defined.

Lemma select_then_paint_witness :
  shape 2 2 (tiles (world idler)) ∧ 1 < 2 ∧ 0 < 2
  ∧ (tileSize * Z.of_nat 1 ≤ pageX (Mouse 15 5) - offsetLeft corner
     < tileSize * Z.of_nat 1 + tileSize)%Z
  ∧ (tileSize * Z.of_nat 0 ≤ pageY (Mouse 15 5) - offsetTop corner
     < tileSize * Z.of_nat 0 + tileSize)%Z
  ∧ ∃ g', play 2 2 corner tails [KeyPress "x"; MouseDown (Mouse 15 5)] idler = Some g'
          ∧ cell (tiles (world g')) 1 0 = Str (currentTileType (brush g')).
Proof.
  assert (tileSize * Z.of_nat 1 ≤ pageX (Mouse 15 5) - offsetLeft corner
          < tileSize * Z.of_nat 1 + tileSize)%Z as Hx by (unfold tileSize; simpl; lia).
  assert (tileSize * Z.of_nat 0 ≤ pageY (Mouse 15 5) - offsetTop corner
          < tileSize * Z.of_nat 0 + tileSize)%Z as Hy by (unfold tileSize; simpl; lia).
  split; [exact scenarioA_shape|]. split; [lia|]. split; [lia|].
  split; [exact Hx|]. split; [exact Hy|].
  destruct (select_then_paint 2 2 corner tails "x" (Mouse 15 5) idler 1 0 scenarioA_shape)
    as (g' & Hrun & _ & _ & Hcell & _); [lia|lia|exact Hx|exact Hy|].
  exists g'. split; [exact Hrun|exact Hcell].
Defined.

Lemma frames_conserve_witness :
  shape 2 2 (tiles (start scenarioA))
  ∧ ∃ s', frames 2 2 tails 3 (start scenarioA) = Some ((), s')
          ∧ flatten (tiles s') ≡ₚ flatten (tiles (start scenarioA)).
Proof.
  split; [exact scenarioA_shape|].
  destruct (frames_conserve 2 2 tails 3 (start scenarioA) scenarioA_shape)
    as (s' & Hrun & _ & Hperm & _).
  exists s'. split; [exact Hrun|exact Hperm].
Defined.

Lemma records_are_changes_witness :
  shape 2 2 (tiles (start scenarioA))
  ∧ ∃ l s1 s2,
      applyPhysics 2 2 tails (start scenarioA) = Some (l, s1)
      ∧ drawScreen l s1 = Some ((), s2)
      ∧ ∀ r, r ∈ l → cell (tiles s2) (rx r) (ry r) = rvalue r.
Proof.
  split; [exact scenarioA_shape|].
  destruct (records_are_changes 2 2 tails (start scenarioA) scenarioA_shape)
    as (l & s1 & s2 & Hscan & Hdraw & _ & Hnew).
  exists l, s1, s2. split; [exact Hscan|]. split; [exact Hdraw|exact Hnew].
Defined.

Lemma tiles_move_one_cell_witness :
  shape 2 2 (tiles (start scenarioA))
  ∧ ∃ s2, render 2 2 tails (start scenarioA) = Some ((), s2)
          ∧ (cell (tiles s2) 0 1 = cell (tiles (start scenarioA)) 0 1
             ∨ displaced 2 2 (tiles (start scenarioA)) (Redraw 0 1 (cell (tiles s2) 0 1))).
Proof.
  split; [exact scenarioA_shape|].
  exact (tiles_move_one_cell 2 2 tails (start scenarioA) 0 1 scenarioA_shape).
Defined.

Lemma land_falls_witness :
  shape 2 2 (tiles (start scenarioA))
  ∧ cell (tiles (start scenarioA)) 0 0 = TILE_LAND
  ∧ ∃ s2, render 2 2 tails (start scenarioA) = Some ((), s2)
          ∧ (cell (tiles s2) 0 0 = TILE_LAND
             ∨ (0 + 1 < 2 ∧ cell (tiles s2) 0 (0 + 1) = TILE_LAND)).
Proof.
  split; [exact scenarioA_shape|]. split; [reflexivity|].
  destruct (land_falls 2 2 tails (start scenarioA) 0 0 scenarioA_shape)
    as (s2 & Hrun & Hforward & _).
  exists s2. split; [exact Hrun|]. apply Hforward. reflexivity.
Defined.

Lemma scan_uses_flips_witness :
  shape 2 2 (tiles (start scenarioA))
  ∧ ∃ s', frames 2 2 tails 3 (start scenarioA) = Some ((), s')
          ∧ draws s' = draws (start scenarioA) + 3 * ((2 - 1) * (2 - 1)).
Proof.
  split; [exact scenarioA_shape|].
  exact (proj2 (scan_uses_flips 2 2 tails 3 (start scenarioA) scenarioA_shape)).
Defined.

Lemma restingLand_shape : shape 2 2 (tiles (start restingLand)).
Proof. split; [reflexivity|repeat constructor]. Defined.

Lemma restingLand_settled : settled 2 2 (tiles (start restingLand)).
Proof.
  intros x y Hx Hy. assert (y = 0) as -> by (simpl in Hy; lia).
  destruct x as [|[|x]]; [| |lia].
  - split; [|split].
    + intros [Hland _]. discriminate Hland.
    + intros [Hwater _]. discriminate Hwater.
    + intros Hcol. lia.
  - split; [|split].
    + intros [Hland _]. discriminate Hland.
    + intros [Hwater _]. discriminate Hwater.
    + intros _. split.
      * intros [Hwater _]. discriminate Hwater.
      * intros [Hair _]. discriminate Hair.
Defined.

Lemma settled_still_witness :
  shape 2 2 (tiles (start restingLand)) ∧ settled 2 2 (tiles (start restingLand))
  ∧ ∃ s', frames 2 2 heads 5 (start restingLand) = Some ((), s')
          ∧ tiles s' = tiles (start restingLand).
Proof.
  split; [exact restingLand_shape|]. split; [exact restingLand_settled|].
  exact (proj2 (settled_still 2 2 heads 5 (start restingLand)
                  restingLand_shape restingLand_settled)).
Defined.

Lemma drawScreen_grows_witness :
  shape 2 2 (tiles (start scenarioA)) ∧ 0 < 2 ∧ (2 ≤ 5)%nat
  ∧ ∃ s', drawScreen [Redraw 0 5 TILE_WATER] (start scenarioA) = Some ((), s')
          ∧ cell (tiles s') 0 5 = TILE_WATER
          ∧ ¬ shape 2 2 (tiles s').
Proof.
  split; [exact scenarioA_shape|]. split; [lia|]. split; [lia|].
  destruct (drawScreen_grows 2 2 0 5 TILE_WATER (start scenarioA) scenarioA_shape)
    as (s' & Hrun & Hcell & _ & _ & Hbroken); [lia|lia|].
  exists s'. split; [exact Hrun|]. split; [exact Hcell|exact Hbroken].
Defined.

Lemma redraw_again_witness :
  shape 2 2 (tiles (start scenarioA))
  ∧ Forall (λ r, rx r < 2 ∧ ry r < 2) [Redraw 1 1 TILE_WATER]
  ∧ ∃ s1 s2,
      drawScreen [Redraw 1 1 TILE_WATER] (start scenarioA) = Some ((), s1)
      ∧ drawScreen [Redraw 1 1 TILE_WATER] s1 = Some ((), s2)
      ∧ tiles s2 = tiles s1.
Proof.
  assert (Forall (λ r, rx r < 2 ∧ ry r < 2) [Redraw 1 1 TILE_WATER]) as Hin.
  { repeat constructor; simpl; lia. }
  split; [exact scenarioA_shape|]. split; [exact Hin|].
  exact (redraw_again 2 2 _ (start scenarioA) scenarioA_shape Hin).
Defined.

End Sessions_on_scenarios.

(** ** The canvas: what the screen shows *)

Section Canvas.

Variables L M : nat.

Lemma public_color v : public v → is_Some (tile_color v).
Proof. destruct v; simpl; [done|intros []..]. Qed.

Lemma square_unique x y x' y' px py :
  square x y px py → square x' y' px py → (x', y') = (x, y).
Proof. unfold square, tileSize. intros [? ?] [? ?]. f_equal; lia. Qed.

Lemma pixel_fillTile r c x y px py :
  square x y px py →
  pixel (fillTile r c) px py
  = if decide (coord r = (x, y)) then fillStyle (set_fillStyle (tile_color (rvalue r)) c)
    else pixel c px py.
Proof.
  intros Hsq. unfold fillTile, fillRect. cbn [pixel fillStyle].
  assert (pixel (set_fillStyle (tile_color (rvalue r)) c) px py = pixel c px py) as ->.
  { by destruct (tile_color (rvalue r)). }
  destruct (decide (coord r = (x, y))) as [Heq|Hne].
  - unfold coord in Heq. injection Heq as Hx Hy.
    rewrite bool_decide_eq_true_2; [done|].
    unfold square, tileSize in *. lia.
  - rewrite bool_decide_eq_false_2; [done|]. intros Hin. apply Hne.
    apply (square_unique x y (rx r) (ry r) px py Hsq).
    unfold square, tileSize in *. lia.
Qed.

Lemma pixel_fillTile_out r c px py :
  ¬ square (rx r) (ry r) px py → pixel (fillTile r c) px py = pixel c px py.
Proof.
  intros Hout. unfold fillTile, fillRect. cbn [pixel fillStyle].
  rewrite bool_decide_eq_false_2.
  - by destruct (tile_color (rvalue r)).
  - intros Hin. apply Hout. unfold square, tileSize in *. lia.
Qed.

Lemma paint_out l c px py :
  (∀ r, r ∈ l → ¬ square (rx r) (ry r) px py) →
  pixel (paint l c) px py = pixel c px py.
Proof.
  revert c. induction l as [|r l IH]; intros c Hout; [done|].
  cbn [paint]. rewrite IH.
  - apply pixel_fillTile_out, Hout. by left.
  - intros r' Hr'. apply Hout. by right.
Qed.

Lemma last_at_elem (l : list redraw) x y v :
  last_at l x y = Some v → Redraw x y v ∈ l.
Proof.
  induction l as [|r l IH]; [done|]. cbn [last_at].
  destruct (last_at l x y) as [v'|].
  - intros [= ->]. right. by apply IH.
  - destruct (decide (coord r = (x, y))) as [Heq|]; [|done].
    intros [= <-]. destruct r as [i j w]. unfold coord in Heq. cbn [rx ry] in Heq.
    injection Heq as -> ->. by left.
Qed.

(** The colour of a pixel after a list of records was painted. *)
Lemma paint_spec l c x y px py :
  Forall (λ r, public (rvalue r)) l → square x y px py →
  match last_at l x y with
  | Some v => tile_color v = Some (pixel (paint l c) px py)
  | None => pixel (paint l c) px py = pixel c px py
  end.
Proof.
  intros Hl Hsq. revert c. induction Hl as [|r l Hr Hl IH]; intros c; [done|].
  cbn [paint last_at]. specialize (IH (fillTile r c)).
  destruct (last_at l x y) as [v|]; [done|].
  rewrite IH, (pixel_fillTile r c x y px py Hsq).
  destruct (decide (coord r = (x, y))); [|done].
  destruct (public_color _ Hr) as [color Hcolor]. by rewrite Hcolor.
Qed.

(** Painting the records of a redraw keeps the canvas showing the grid. *)
Lemma shown_paint g0 g2 l c :
  Forall (λ r, public (rvalue r)) l →
  (∀ x y, x < L → y < M → cell g2 x y = default (cell g0 x y) (last_at l x y)) →
  (∀ x y px py, x < L → y < M → last_at l x y = None → square x y px py →
     tile_color (cell g0 x y) = Some (pixel c px py)) →
  shown L M g2 (paint l c).
Proof.
  intros Hl Hcells Hshown x y px py Hx Hy Hsq.
  pose proof (paint_spec l c x y px py Hl Hsq) as Hpaint.
  rewrite (Hcells x y Hx Hy).
  destruct (last_at l x y) as [v|] eqn:Hlast; simpl; [done|].
  rewrite Hpaint. by apply Hshown.
Qed.

Lemma drawn_run m s c s2 c2 :
  drawn m s c = Some (s2, c2) ↔
  ∃ l s1, m s = Some (l, s1) ∧ drawScreen l s1 = Some ((), s2) ∧ c2 = paint l c.
Proof.
  unfold drawn. split.
  - destruct (m s) as [[l s1]|]; [|done].
    destruct (drawScreen l s1) as [[[] s2']|] eqn:Hdraw; [|done].
    intros [= ? ?]. subst. by exists l, s1.
  - intros (l & s1 & -> & -> & ->). done.
Qed.

End Canvas.

Section Showing.

Variables L M : nat.
Variable screen : canvas.
Variable flips : nat → bool.
Variable rolls : nat → nat.

Lemma in_square px py :
  (0 ≤ px)%Z → (0 ≤ py)%Z →
  square (Z.to_nat (px `div` tileSize)) (Z.to_nat (py `div` tileSize)) px py.
Proof.
  intros Hx Hy. unfold square, tileSize.
  rewrite !Z2Nat.id by (apply Z.div_pos; lia).
  pose proof (Z.mul_div_le px 10). pose proof (Z.mul_div_le py 10).
  pose proof (Z.mul_succ_div_gt px 10). pose proof (Z.mul_succ_div_gt py 10). lia.
Qed.

(** Forgetting the canvas gives the handlers of the game. *)
Lemma drawn_world m s c :
  fst <$> drawn m s c = snd <$> bind m drawScreen s.
Proof.
  unfold drawn, bind. destruct (m s) as [[l s1]|]; [|reflexivity].
  by destruct (drawScreen l s1) as [[[] s2]|].
Qed.

Lemma processDrawing_on_game event g c :
  fst <$> processDrawing_on L M screen event g c = processDrawing L M screen event g.
Proof.
  unfold processDrawing_on, processDrawing.
  destruct (negb (isDrawing (brush g))); [reflexivity|]. cbv zeta.
  destruct (_ && _); [|reflexivity].
  unfold drawn, ret.
  by destruct (drawScreen _ (world g)) as [[[] s2]|].
Qed.

Lemma clearScreen_on_game keyCode s c :
  fst <$> clearScreen_on L M keyCode s c = snd <$> clearScreen L M keyCode s.
Proof.
  unfold clearScreen_on, clearScreen.
  destruct (negb (keyCode =? 27)%Z); [reflexivity|].
  rewrite drawn_world. unfold clearTiles, bind.
  destruct (clearList s) as [[[] s1]|]; [|reflexivity]. cbv beta iota.
  by destruct (for_each _ _ s1) as [[[] s2]|].
Qed.

Lemma render_on_game s c :
  fst <$> render_on L M flips s c = snd <$> render L M flips s.
Proof. unfold render_on. by rewrite drawn_world. Qed.

Lemma on_screen_game m m' g c :
  fst <$> m (world g) c = snd <$> m' (world g) →
  fst <$> on_screen m g c = on_world m' g.
Proof.
  unfold on_screen, on_world. intros Heq.
  destruct (m (world g) c) as [[s c']|], (m' (world g)) as [[[] s']|];
    cbn in Heq |- *; congruence.
Qed.

Lemma handle_on_game h g c :
  fst <$> handle_on L M screen flips h g c = handle L M screen flips h g.
Proof.
  destruct h as [event|event|event|key|keyCode|]; cbn [handle_on handle].
  - apply processDrawing_on_game.
  - reflexivity.
  - apply processDrawing_on_game.
  - reflexivity.
  - apply on_screen_game, clearScreen_on_game.
  - apply on_screen_game, render_on_game.
Qed.

Lemma play_on_game hs g c :
  fst <$> play_on L M screen flips hs g c = play L M screen flips hs g.
Proof.
  revert g c. induction hs as [|h hs IH]; intros g c; [reflexivity|].
  cbn [play_on play]. pose proof (handle_on_game h g c) as Hh.
  destruct (handle_on L M screen flips h g c) as [[g' c']|];
    cbn in Hh; rewrite <- Hh; [apply IH|reflexivity].
Qed.

(** The list [clearScreen] builds. *)
Lemma clearTiles_spec s :
  shape L M (tiles s) →
  wp (clearTiles L M) s
     (λ l s', l = all_cells L M (λ _ _, TILE_AIR) ∧ shape L M (tiles s')).
Proof.
  intros Hg. unfold clearTiles.
  apply wp_bind. unfold wp at 1, clearList.
  apply wp_bind. eapply wp_mono.
  - apply (wp_collect L M (λ s', shape L M (tiles s')) (λ _ _, TILE_AIR)); [|done].
    intros x y s1 Hx Hy Hg1.
    apply wp_bind, (wp_setTile L M); [done..|].
    unfold wp, push1. simpl. split; [|done]. by apply shape_put.
  - intros [] s1 [Hg1 Hl]. simpl in Hl. unfold wp, returnList. by rewrite Hl.
Qed.

(** A redraw inside the grid, on the grid and on the canvas. *)
Lemma drawn_shown m s c s2 c2 (g0 : list (list jsval)) :
  drawn m s c = Some (s2, c2) →
  wp m s (λ l s1, shape L M (tiles s1)
                  ∧ (∀ r, r ∈ l → rx r < L ∧ ry r < M ∧ public (rvalue r))
                  ∧ ∀ x y, x < L → y < M → last_at l x y = None →
                      cell (tiles s1) x y = cell g0 x y
                      ∧ ∀ px py, square x y px py →
                          tile_color (cell g0 x y) = Some (pixel c px py)) →
  shown L M (tiles s2) c2.
Proof.
  intros (l & s1 & Hm & Hdraw & ->)%drawn_run Hwp.
  unfold wp in Hwp. rewrite Hm in Hwp. destruct Hwp as (Hg1 & Hl & Hrest).
  pose proof (drawScreen_spec L M l s1 Hg1) as Hspec.
  apply wp_run in Hspec as ([] & s2' & Hdraw' & Ht & _); [|intros r Hr; split; by apply Hl].
  rewrite Hdraw in Hdraw'. injection Hdraw' as <-.
  apply (shown_paint L M (tiles s1)).
  - apply Forall_forall. intros r Hr. by apply Hl.
  - intros x y Hx Hy. rewrite Ht. apply (cell_redrawn L M); [done|].
    intros r Hr. split; by apply Hl.
  - intros x y px py Hx Hy Hlast Hsq.
    destruct (Hrest x y Hx Hy Hlast) as [-> Hpx]. by apply Hpx.
Qed.

Lemma processDrawing_on_shown event g c g' c' :
  well_formed L M g → shown L M (tiles (world g)) c →
  processDrawing_on L M screen event g c = Some (g', c') →
  shown L M (tiles (world g')) c'.
Proof.
  intros (Hg & _ & Hsel) Hshown. unfold processDrawing_on.
  destruct (negb (isDrawing (brush g))); [by intros [= <- <-]|]. cbv zeta.
  set (a := ((pageX event - offsetLeft screen) `div` tileSize)%Z).
  set (b := ((pageY event - offsetTop screen) `div` tileSize)%Z).
  destruct ((0 <=? a)%Z && (a <? Z.of_nat L)%Z && (0 <=? b)%Z && (b <? Z.of_nat M)%Z)
    eqn:Hin; [|by intros [= <- <-]].
  rewrite !andb_true_iff, !Z.leb_le, !Z.ltb_lt in Hin.
  destruct (drawn _ (world g) c) as [[s2 c2]|] eqn:Hdrawn; [|done].
  intros [= <- <-]. cbn [world].
  apply (drawn_shown _ _ _ _ _ (tiles (world g)) Hdrawn).
  unfold wp, ret. split; [done|]. split.
  - intros r ->%list_elem_of_singleton. cbn [rx ry rvalue].
    split; [lia|]. split; [lia|]. by apply selected_public.
  - intros x y Hx Hy _. split; [done|]. intros px py Hsq. by apply Hshown.
Qed.

Lemma handle_on_shown h g c g' c' :
  well_formed L M g → shown L M (tiles (world g)) c →
  handle_on L M screen flips h g c = Some (g', c') →
  shown L M (tiles (world g')) c'.
Proof.
  intros Hwf Hshown. pose proof Hwf as (Hg & Hpub & Hsel).
  destruct h as [event|event|event|key|keyCode|]; cbn [handle_on].
  - apply processDrawing_on_shown; done.
  - by intros [= <- <-].
  - by apply processDrawing_on_shown.
  - by intros [= <- <-].
  - unfold on_screen, clearScreen_on.
    destruct (negb (keyCode =? 27)%Z); [by intros [= <- <-]|].
    destruct (drawn _ (world g) c) as [[s2 c2]|] eqn:Hdrawn; [|done].
    intros [= <- <-]. cbn [world].
    apply (drawn_shown _ _ _ _ _ (tiles (world g)) Hdrawn).
    eapply wp_mono; [by apply clearTiles_spec|].
    intros l s1 [-> Hg1]. split; [done|]. split.
    + intros r (? & ? & ->)%all_cells_elem. split_and!; [done..|]. by eexists.
    + intros x y Hx Hy Hlast. by rewrite (last_at_all_cells L M) in Hlast.
  - unfold on_screen, render_on.
    destruct (drawn _ (world g) c) as [[s2 c2]|] eqn:Hdrawn; [|done].
    intros [= <- <-]. cbn [world].
    apply (drawn_shown _ _ _ _ _ (tiles (world g)) Hdrawn).
    destruct (frame_spec L M flips (world g) Hg) as (l & s1 & _ & Hscan & _ & _ & _ & Hinv & _).
    unfold wp. rewrite Hscan. split; [apply (inv_shape _ _ _ _ _ Hinv)|]. split.
    + intros r Hr. destruct (inv_bounds _ _ _ _ _ Hinv r Hr) as [? ?].
      split_and!; [done..|]. apply mobile_public. by apply (inv_values _ _ _ _ _ Hinv).
    + intros x y Hx Hy Hlast. split; [|intros px py Hsq; by apply Hshown].
      apply (inv_kept _ _ _ _ _ Hinv). intros Hin.
      apply record_at in Hin as [v Hr].
      by rewrite (last_at_record l x y v (inv_once _ _ _ _ _ Hinv) Hr) in Hlast.
Qed.

Lemma handle_shows h g c :
  well_formed L M g → shown L M (tiles (world g)) c → plain h →
  ∃ g' c',
    handle_on L M screen flips h g c = Some (g', c')
    ∧ handle L M screen flips h g = Some g'
    ∧ well_formed L M g' ∧ shown L M (tiles (world g')) c'.
Proof.
  intros Hwf Hshown Hplain.
  destruct (handle_keeps L M screen flips h g Hwf Hplain) as (g' & Hrun & Hwf').
  pose proof (handle_on_game h g c) as Hgame. rewrite Hrun in Hgame.
  destruct (handle_on L M screen flips h g c) as [[g1 c1]|] eqn:Hon; [|done].
  injection Hgame as ->. exists g', c1. split_and!; [done..|].
  exact (handle_on_shown h g c g' c1 Hwf Hshown Hon).
Qed.

(** X20. The canvas shows the grid. From a game whose grid is full and
    holds tile values, whose selected type has a colour and whose canvas
    shows the grid, every sequence of mouse and key events and animation
    frames in which no key press carries a name that objects inherit
    (["constructor"], ["toString"] and the like) is handled without an error
    and leaves such a game and canvas: each pixel of the square of a cell has
    the colour of the value the cell holds. The game itself is the one the
    handlers give without the canvas. *)
Theorem play_shows hs g c :
  well_formed L M g → shown L M (tiles (world g)) c → Forall plain hs →
  ∃ g' c',
    play_on L M screen flips hs g c = Some (g', c')
    ∧ play L M screen flips hs g = Some g'
    ∧ well_formed L M g' ∧ shown L M (tiles (world g')) c'.
Proof.
  revert g c. induction hs as [|h hs IH]; intros g c Hwf Hshown Hplain.
  - by exists g, c.
  - apply Forall_cons in Hplain as [Hh Hhs].
    destruct (handle_shows h g c Hwf Hshown Hh) as (g1 & c1 & Hon & Hrun & Hwf1 & Hshown1).
    cbn [play_on play]. rewrite Hon, Hrun. by apply IH.
Qed.

End Showing.

Section Pixels.

Variables L M : nat.
Variable screen : canvas.
Variable flips : nat → bool.
Variable rolls : nat → nat.

Lemma rect_div (a px : Z) :
  (a * tileSize ≤ px < a * tileSize + tileSize)%Z ↔ (px `div` tileSize)%Z = a.
Proof.
  unfold tileSize. split.
  - intros Hin. symmetry. apply (Z.div_unique px 10 a (px - 10 * a)); lia.
  - intros <-. pose proof (Z.mul_div_le px 10).
    pose proof (Z.mul_succ_div_gt px 10). lia.
Qed.

Lemma cell_bound (a : Z) (n : nat) :
  (0 ≤ a < tileSize * Z.of_nat n)%Z → Z.to_nat (a `div` tileSize) < n.
Proof.
  unfold tileSize. intros Ha.
  assert (0 ≤ a `div` 10 < Z.of_nat n)%Z; [|lia].
  split; [apply Z.div_pos; lia|apply Z.div_lt_upper_bound; lia].
Qed.

Lemma outside_squares (l : list redraw) px py :
  (∀ r, r ∈ l → rx r < L ∧ ry r < M) →
  (px < 0 ∨ tileSize * Z.of_nat L ≤ px ∨ py < 0 ∨ tileSize * Z.of_nat M ≤ py)%Z →
  ∀ r, r ∈ l → ¬ square (rx r) (ry r) px py.
Proof.
  intros Hl Hout r Hr. destruct (Hl r Hr) as [Hx Hy].
  unfold square, tileSize in *. lia.
Qed.

(** X19. [drawScreen] paints what it writes. For records inside the grid
    that carry tile values, every pixel of the square of a cell that some
    record addresses takes the colour of the value of the last such record,
    which is the value the cell then holds; the squares of the other cells
    keep their pixels and the cells their values; and no pixel outside the
    [L] by [M] squares of the grid changes. *)
Theorem drawScreen_paints l s c :
  shape L M (tiles s) →
  (∀ r, r ∈ l → rx r < L ∧ ry r < M ∧ public (rvalue r)) →
  ∃ s2 c2,
    drawn (ret l) s c = Some (s2, c2)
    ∧ drawScreen l s = Some ((), s2)
    ∧ (∀ x y px py, square x y px py →
         match last_at l x y with
         | Some v => cell (tiles s2) x y = v ∧ tile_color v = Some (pixel c2 px py)
         | None => cell (tiles s2) x y = cell (tiles s) x y
                   ∧ pixel c2 px py = pixel c px py
         end)
    ∧ (∀ px py,
         (px < 0 ∨ tileSize * Z.of_nat L ≤ px ∨ py < 0 ∨ tileSize * Z.of_nat M ≤ py)%Z →
         pixel c2 px py = pixel c px py).
Proof.
  intros Hg Hl.
  assert (∀ r, r ∈ l → rx r < L ∧ ry r < M) as Hin by (intros r Hr; split; by apply Hl).
  pose proof (drawScreen_spec L M l s Hg Hin) as Hdraw.
  apply wp_run in Hdraw as ([] & s2 & Hdraw & Ht & _).
  exists s2, (paint l c). split_and!.
  - unfold drawn, ret. by rewrite Hdraw.
  - done.
  - intros x y px py Hsq.
    assert (Forall (λ r, public (rvalue r)) l) as Hpub.
    { apply Forall_forall. intros r Hr. by apply Hl. }
    pose proof (paint_spec l c x y px py Hpub Hsq) as Hpaint.
    rewrite Ht, (cell_redrawn L M) by done.
    by destruct (last_at l x y).
  - intros px py Hout. apply paint_out. by apply outside_squares.
Qed.

Lemma newSand_on_game d c :
  fst <$> newSand_on L M rolls d c = newSand L M rolls d.
Proof.
  unfold newSand_on, newSand, drawn, bind.
  destruct (initialize L M rolls _) as [[[] s1]|]; [|reflexivity]. cbv beta iota.
  destruct (allTiles L M s1) as [[l s2]|]; [|reflexivity]. cbv beta iota.
  by destruct (drawScreen l s2) as [[[] s3]|].
Qed.

(** X21. [new Sand()] paints the whole grid, on whatever the canvas held:
    when it returns, each pixel of the square of a cell has the colour of the
    value [initialize] gave the cell, and no pixel outside the [L] by [M]
    squares was touched. *)
Theorem newSand_shows d c :
  (∀ n, rolls n < 4) →
  ∃ g c',
    newSand_on L M rolls d c = Some (g, c')
    ∧ newSand L M rolls d = Some g
    ∧ shown L M (tiles (world g)) c'
    ∧ (∀ x y px py, x < L → y < M → square x y px py →
         tile_color (tile_type (rolls (d + x * M + y))) = Some (pixel c' px py))
    ∧ (∀ px py,
         (px < 0 ∨ tileSize * Z.of_nat L ≤ px ∨ py < 0 ∨ tileSize * Z.of_nat M ≤ py)%Z →
         pixel c' px py = pixel c px py).
Proof.
  intros Hrolls.
  pose proof (initialize_spec L M rolls (State [] [] d [])) as Hinit.
  apply wp_run in Hinit as ([] & s1 & Hinit & Ht1 & _). simpl in Ht1.
  assert (shape L M (tiles s1)) as Hg1 by (rewrite Ht1; apply rolled_grid_shape).
  pose proof (allTiles_spec L M s1 Hg1) as Hall.
  apply wp_run in Hall as (l & s2 & Hall & -> & _ & Ht2 & _).
  pose proof (drawScreen_spec L M (all_cells L M (cell (tiles s1))) s2) as Hdraw.
  rewrite Ht2 in Hdraw. specialize (Hdraw Hg1 (all_cells_bounds L M _)).
  apply wp_run in Hdraw as ([] & s3 & Hdraw & Ht3 & _).
  rewrite (redrawn_same L M) in Ht3 by done.
  assert (newSand_on L M rolls d c
          = Some (Game (Pen false "s") s3, paint (all_cells L M (cell (tiles s1))) c)) as Hon.
  { unfold newSand_on, drawn, bind. by rewrite Hinit, Hall, Hdraw. }
  assert (shown L M (tiles s3) (paint (all_cells L M (cell (tiles s1))) c)) as Hshown.
  { apply (shown_paint L M (tiles s1)).
    - apply Forall_forall. intros r (Hx & Hy & ->)%all_cells_elem.
      rewrite Ht1, rolled_grid_cell by done. by apply tile_type_public.
    - intros x y Hx Hy. by rewrite Ht3, (last_at_all_cells L M).
    - intros x y px py Hx Hy Hlast. by rewrite (last_at_all_cells L M) in Hlast. }
  eexists _, _. split; [exact Hon|]. split_and!.
  - pose proof (newSand_on_game d c) as Hgame. by rewrite Hon in Hgame.
  - exact Hshown.
  - intros x y px py Hx Hy Hsq. rewrite <- (Hshown x y px py Hx Hy Hsq).
    cbn [world]. by rewrite Ht3, Ht1, rolled_grid_cell.
  - intros px py Hout. apply paint_out, (outside_squares _ _ _ (all_cells_bounds L M _) Hout).
Qed.

(** X22. A frame repaints the cells that changed and no others, whatever
    the canvas holds: each pixel of the square of a cell whose value the
    frame changed takes the colour of the new value, and every other pixel
    keeps its colour. *)
Theorem frame_paints_changes s c :
  shape L M (tiles s) →
  ∃ s2 c2,
    render_on L M flips s c = Some (s2, c2)
    ∧ render L M flips s = Some ((), s2)
    ∧ (∀ x y px py, square x y px py →
         if decide (cell (tiles s2) x y = cell (tiles s) x y)
         then pixel c2 px py = pixel c px py
         else tile_color (cell (tiles s2) x y) = Some (pixel c2 px py))
    ∧ (∀ px py, (px < 0 ∨ py < 0)%Z → pixel c2 px py = pixel c px py).
Proof.
  intros Hg.
  destruct (frame_moves L M flips s Hg)
    as (l & s1 & s2 & Hscan & Hdraw & Hframe & Hinv & [Hall _] & Hcells).
  rewrite Forall_forall in Hall.
  exists s2, (paint l c). split_and!.
  - unfold render_on, drawn. by rewrite Hscan, Hdraw.
  - done.
  - intros x y px py Hsq.
    assert (Forall (λ r, public (rvalue r)) l) as Hpub.
    { apply Forall_forall. intros r Hr. apply mobile_public.
      by apply (inv_values _ _ _ _ _ Hinv). }
    pose proof (paint_spec l c x y px py Hpub Hsq) as Hpaint.
    rewrite Hcells. destruct (last_at l x y) as [v|] eqn:Hlast; simpl.
    + apply last_at_elem in Hlast. destruct (Hall _ Hlast) as [Hne _].
      cbn [rx ry rvalue] in Hne. by rewrite decide_False.
    + by rewrite decide_True.
  - intros px py Hout. apply paint_out. intros r _.
    unfold square, tileSize. lia.
Qed.

(** X23. A stroke paints the tile square of the position the handler
    computes. While the game is drawing with a selected type that has a
    colour, take the position of the pointer on the page less the offset of
    the canvas element, and let it lie inside the bitmap: that colour is
    given to the pixels of the bitmap in the tile square that holds this
    position, the pixel at the position itself among them, and to no other
    pixel; [fillStyle] is left at that colour. Whether the pixel at that
    position lies under the pointer depends on the border and padding of
    the element, which the handler leaves out of account. *)
Theorem stroke_paints_pixels event g c color :
  shape L M (tiles (world g)) → isDrawing (brush g) = true →
  TILE_COLORS !! currentTileType (brush g) = Some color →
  (0 ≤ pageX event - offsetLeft screen < tileSize * Z.of_nat L)%Z →
  (0 ≤ pageY event - offsetTop screen < tileSize * Z.of_nat M)%Z →
  ∃ g' c',
    processDrawing_on L M screen event g c = Some (g', c')
    ∧ processDrawing L M screen event g = Some g'
    ∧ fillStyle c' = color
    ∧ pixel c' (pageX event - offsetLeft screen) (pageY event - offsetTop screen) = color
    ∧ ∀ px py,
        pixel c' px py
        = if decide (((px `div` tileSize)%Z, (py `div` tileSize)%Z) = pointed screen event)
          then color else pixel c px py.
Proof.
  intros Hg Hdrawing Hcolor Ha Hb.
  set (a := (pageX event - offsetLeft screen)%Z) in *.
  set (b := (pageY event - offsetTop screen)%Z) in *.
  pose proof (cell_bound a L Ha) as Hx. pose proof (cell_bound b M Hb) as Hy.
  assert (0 ≤ a `div` tileSize)%Z as Ha0 by (apply Z.div_pos; [lia|done]).
  assert (0 ≤ b `div` tileSize)%Z as Hb0 by (apply Z.div_pos; [lia|done]).
  set (r := Redraw (Z.to_nat (a `div` tileSize)) (Z.to_nat (b `div` tileSize))
                   (Str (currentTileType (brush g)))).
  destruct (drawScreen_one L M _ _ (Str (currentTileType (brush g))) (world g) Hg Hx Hy)
    as (s' & Hrun & _).
  assert (processDrawing_on L M screen event g c = Some (Game (brush g) s', fillTile r c))
    as Hon.
  { unfold processDrawing_on. rewrite Hdrawing. cbn [negb]. cbv zeta. fold a b.
    replace ((0 <=? a `div` tileSize)%Z && (a `div` tileSize <? Z.of_nat L)%Z
             && (0 <=? b `div` tileSize)%Z && (b `div` tileSize <? Z.of_nat M)%Z) with true.
    - unfold drawn, ret. fold r. fold r in Hrun. by rewrite Hrun.
    - symmetry. rewrite !andb_true_iff, !Z.leb_le, !Z.ltb_lt. lia. }
  assert (∀ px py,
    pixel (fillTile r c) px py
    = if decide (((px `div` tileSize)%Z, (py `div` tileSize)%Z) = pointed screen event)
      then color else pixel c px py) as Hpixels.
  { intros px py. unfold fillTile, fillRect, pointed, r. fold a b.
    cbn [pixel fillStyle rx ry rvalue tile_color]. rewrite Hcolor.
    cbn [set_fillStyle pixel fillStyle]. rewrite !Z2Nat.id by done.
    destruct (decide _) as [Heq|Hne].
    - injection Heq as Hpx Hpy. rewrite bool_decide_eq_true_2; [done|].
      split; by apply rect_div.
    - rewrite bool_decide_eq_false_2; [done|]. intros [Hpx Hpy]. apply Hne.
      apply rect_div in Hpx, Hpy. by rewrite Hpx, Hpy. }
  eexists _, _. split; [exact Hon|]. split_and!.
  - pose proof (processDrawing_on_game L M screen event g c) as Hgame.
    by rewrite Hon in Hgame.
  - unfold fillTile, fillRect, r. cbn [fillStyle rvalue tile_color]. by rewrite Hcolor.
  - rewrite Hpixels. by rewrite decide_True.
  - exact Hpixels.
Qed.

(** X24. Escape whitens the canvas. On key code 27 [clearScreen] gives the
    colour of Air to every pixel of the [L] by [M] squares of the grid, and
    to no other pixel; on any other key code the canvas is left alone. *)
Theorem clearScreen_whitens keyCode s c :
  shape L M (tiles s) →
  (∃ s' c',
     clearScreen_on L M 27 s c = Some (s', c')
     ∧ clearScreen L M 27 s = Some ((), s')
     ∧ ∀ px py,
         pixel c' px py
         = if decide (0 ≤ px < tileSize * Z.of_nat L ∧ 0 ≤ py < tileSize * Z.of_nat M)%Z
           then "#ffffff" else pixel c px py)
  ∧ (keyCode ≠ 27%Z → clearScreen_on L M keyCode s c = Some (s, c)).
Proof.
  intros Hg. split.
  - pose proof (clearTiles_spec L M s Hg) as Hlist.
    apply wp_run in Hlist as (l & s1 & Hlist & -> & Hg1).
    pose proof (drawScreen_spec L M _ s1 Hg1 (all_cells_bounds L M (λ _ _, TILE_AIR))) as Hdraw.
    apply wp_run in Hdraw as ([] & s2 & Hdraw & _).
    assert (clearScreen_on L M 27 s c
            = Some (s2, paint (all_cells L M (λ _ _, TILE_AIR)) c)) as Hon.
    { unfold clearScreen_on, drawn. cbn [Z.eqb Pos.eqb negb]. by rewrite Hlist, Hdraw. }
    eexists _, _. split; [exact Hon|]. split.
    + pose proof (clearScreen_on_game L M 27 s c) as Hgame. rewrite Hon in Hgame.
      destruct (clearScreen L M 27 s) as [[[] s']|]; [|done].
      by injection Hgame as ->.
    + intros px py. destruct (decide _) as [[Hpx Hpy]|Hout].
      * pose proof (cell_bound px L Hpx) as Hx. pose proof (cell_bound py M Hpy) as Hy.
        assert (square (Z.to_nat (px `div` tileSize)) (Z.to_nat (py `div` tileSize)) px py)
          as Hsq by (apply in_square; lia).
        pose proof (paint_spec (all_cells L M (λ _ _, TILE_AIR)) c
                      (Z.to_nat (px `div` tileSize)) (Z.to_nat (py `div` tileSize)) px py)
          as Hpaint.
        rewrite (last_at_all_cells L M) in Hpaint by done.
        assert (tile_color TILE_AIR = Some "#ffffff") as Hair by reflexivity.
        rewrite Hair in Hpaint. symmetry.
        assert (Some "#ffffff" = Some (pixel (paint (all_cells L M (λ _ _, TILE_AIR)) c) px py))
          as [= <-]; [|done].
        apply Hpaint; [|done].
        apply Forall_forall. intros r (_ & _ & ->)%all_cells_elem. by eexists.
      * apply paint_out, (outside_squares _ _ _ (all_cells_bounds L M _)). lia.
  - intros Hkey. unfold clearScreen_on.
    by rewrite (proj2 (Z.eqb_neq keyCode 27) Hkey).
Qed.

End Pixels.

Section Canvas_on_scenarios.

Lemma scenarioA_shown : shown 2 2 (tiles (world painter)) scenarioA_canvas.
Proof.
  apply (shown_paint 2 2 scenarioA).
  - apply Forall_forall. intros r (Hx & Hy & ->)%all_cells_elem.
    destruct (rx r) as [|[|x]], (ry r) as [|[|y]]; try lia; by eexists.
  - intros x y Hx Hy. by rewrite (last_at_all_cells 2 2).
  - intros x y px py Hx Hy Hlast. by rewrite (last_at_all_cells 2 2) in Hlast.
Qed.

Lemma one_water_record r :
  r ∈ [Redraw 0 0 TILE_WATER] → rx r < 2 ∧ ry r < 2 ∧ public (rvalue r).
Proof.
  intros ->%list_elem_of_singleton. cbn [rx ry rvalue].
  split; [lia|]. split; [lia|]. by eexists.
Qed.

Lemma drawScreen_paints_witness :
  shape 2 2 (tiles (start scenarioA))
  ∧ (∀ r, r ∈ [Redraw 0 0 TILE_WATER] → rx r < 2 ∧ ry r < 2 ∧ public (rvalue r))
  ∧ ∃ s2 c2, drawn (ret [Redraw 0 0 TILE_WATER]) (start scenarioA) blank = Some (s2, c2)
             ∧ pixel c2 (-1) 0 = pixel blank (-1) 0.
Proof.
  split; [exact scenarioA_shape|]. split; [exact one_water_record|].
  destruct (drawScreen_paints 2 2 [Redraw 0 0 TILE_WATER] (start scenarioA) blank
              scenarioA_shape one_water_record) as (s2 & c2 & Hrun & _ & _ & Hout).
  exists s2, c2. split; [exact Hrun|]. apply Hout. left. lia.
Defined.

Lemma plain_session :
  Forall plain [MouseMove (Mouse 15 5); AnimationFrame; KeyPress "l"; KeyUp 27].
Proof.
  apply Forall_cons. split; [exact I|]. apply Forall_cons. split; [exact I|].
  apply Forall_cons. split; [by apply plain_key|].
  apply Forall_cons. split; [exact I|]. by apply Forall_nil.
Qed.

Lemma play_shows_witness :
  well_formed 2 2 painter ∧ shown 2 2 (tiles (world painter)) scenarioA_canvas
  ∧ Forall plain [MouseMove (Mouse 15 5); AnimationFrame; KeyPress "l"; KeyUp 27]
  ∧ ∃ g' c',
      play_on 2 2 corner tails
        [MouseMove (Mouse 15 5); AnimationFrame; KeyPress "l"; KeyUp 27]
        painter scenarioA_canvas = Some (g', c')
      ∧ shown 2 2 (tiles (world g')) c'.
Proof.
  split; [exact painter_well_formed|]. split; [exact scenarioA_shown|].
  split; [exact plain_session|].
  destruct (play_shows 2 2 corner tails
              [MouseMove (Mouse 15 5); AnimationFrame; KeyPress "l"; KeyUp 27]
              painter scenarioA_canvas painter_well_formed scenarioA_shown plain_session)
    as (g' & c' & Hrun & _ & _ & Hshown).
  exists g', c'. split; [exact Hrun|exact Hshown].
Defined.

Lemma newSand_shows_witness :
  (∀ n, allLand n < 4)
  ∧ ∃ g c', newSand_on 2 2 allLand 0 blank = Some (g, c')
            ∧ shown 2 2 (tiles (world g)) c'.
Proof.
  split; [exact allLand_rolls|].
  destruct (newSand_shows 2 2 allLand 0 blank allLand_rolls)
    as (g & c' & Hrun & _ & Hshown & _).
  exists g, c'. split; [exact Hrun|exact Hshown].
Defined.

Lemma frame_paints_changes_witness :
  shape 2 2 (tiles (start scenarioA))
  ∧ ∃ s2 c2, render_on 2 2 tails (start scenarioA) scenarioA_canvas = Some (s2, c2)
             ∧ render 2 2 tails (start scenarioA) = Some ((), s2).
Proof.
  split; [exact scenarioA_shape|].
  destruct (frame_paints_changes 2 2 tails (start scenarioA) scenarioA_canvas scenarioA_shape)
    as (s2 & c2 & Hon & Hrun & _).
  exists s2, c2. split; [exact Hon|exact Hrun].
Defined.

Lemma water_color : TILE_COLORS !! currentTileType (brush painter) = Some "#add8e6".
Proof. reflexivity. Qed.

Lemma stroke_paints_pixels_witness :
  shape 2 2 (tiles (world painter)) ∧ isDrawing (brush painter) = true
  ∧ TILE_COLORS !! currentTileType (brush painter) = Some "#add8e6"
  ∧ (0 ≤ pageX (Mouse 15 5) - offsetLeft corner < tileSize * Z.of_nat 2)%Z
  ∧ (0 ≤ pageY (Mouse 15 5) - offsetTop corner < tileSize * Z.of_nat 2)%Z
  ∧ ∃ g' c', processDrawing_on 2 2 corner (Mouse 15 5) painter scenarioA_canvas
             = Some (g', c')
             ∧ fillStyle c' = "#add8e6".
Proof.
  assert (0 ≤ pageX (Mouse 15 5) - offsetLeft corner < tileSize * Z.of_nat 2)%Z as Hx
    by (unfold tileSize; simpl; lia).
  assert (0 ≤ pageY (Mouse 15 5) - offsetTop corner < tileSize * Z.of_nat 2)%Z as Hy
    by (unfold tileSize; simpl; lia).
  split; [exact painter_shape|]. split; [reflexivity|]. split; [exact water_color|].
  split; [exact Hx|]. split; [exact Hy|].
  destruct (stroke_paints_pixels 2 2 corner (Mouse 15 5) painter scenarioA_canvas "#add8e6"
              painter_shape eq_refl water_color Hx Hy) as (g' & c' & Hrun & _ & Hstyle & _).
  exists g', c'. split; [exact Hrun|exact Hstyle].
Defined.

Lemma clearScreen_whitens_witness :
  shape 2 2 (tiles (start scenarioA))
  ∧ ∃ s' c', clearScreen_on 2 2 27 (start scenarioA) scenarioA_canvas = Some (s', c')
             ∧ pixel c' 19 19 = "#ffffff".
Proof.
  split; [exact scenarioA_shape|].
  destruct (clearScreen_whitens 2 2 13 (start scenarioA) scenarioA_canvas scenarioA_shape)
    as ((s' & c' & Hrun & _ & Hpixels) & _).
  exists s', c'. split; [exact Hrun|]. rewrite Hpixels. reflexivity.
Defined.

End Canvas_on_scenarios.
